(** * Flow CLI (flowkit): import replacement and the accounts service

    A shallow embedding of

    - [pkg/flowkit/project/imports.go]: [ImportReplacer], [Replace],
      [getContractsLocations], [absolutePath];
    - the accounts service ([services] package): [Create], [AddContract],
      [RemoveContract], [prepareTransaction], and further down [Get],
      [StakingInfo], [NodeTotalStake].

    Go pointers to objects that are mutated ([*flowkit.Script], reached both
    through the caller's [contract] and through the [Program] built from it)
    are locations of an explicit heap.  Calls to the [Gateway] are recorded in
    a trace, so that "no transaction was submitted" is a statement about the
    trace.  The logger only prints and is left out. *)

From Stdlib Require Import Ascii.
From stdpp Require Import gmap strings list fin_maps pretty.

Local Open Scope string_scope.

(** ** Data *)

(** [flow.Address] (8 bytes) and [flow.Identifier] (32 bytes), as numbers. *)
Definition Address := N.
Definition Identifier := N.
Definition EmptyID : Identifier := 0%N.

(** [cadence.Value]: the services only pass arguments through. *)
Definition Value := string.

(** [crypto.SignatureAlgorithm] and [crypto.HashAlgorithm]. *)
Inductive SignatureAlgorithm :=
  UnknownSignatureAlgorithm | BLS_BLS12_381 | ECDSA_P256 | ECDSA_secp256k1.
Inductive HashAlgorithm :=
  UnknownHashAlgorithm | SHA2_256 | SHA2_384 | SHA3_256 | SHA3_384 | KMAC128.

(** [flow.AccountKey]; [Weight] is a Go [int]. *)
Record AccountKey := {
  PublicKey : string;
  SigAlgo : SignatureAlgorithm;
  HashAlgo : HashAlgorithm;
  Weight : Z
}.

(** [flow.AccountKeyWeightThreshold] *)
Definition AccountKeyWeightThreshold : Z := 1000.

(** [flowkit.Script]: code, arguments and the location of the file.  [code]
    is a [[]byte]; a Rocq string is a sequence of bytes. *)
Record Script := {
  s_code : string;
  s_args : list Value;
  s_location : string
}.

Definition Script_SetCode (s : Script) (c : string) : Script :=
  {| s_code := c; s_args := s_args s; s_location := s_location s |}.

(** [project.Contract], the fields the import replacer reads. *)
Record Contract := {
  c_name : string;
  c_location : string;
  AccountAddress : Address
}.

(** [project.Aliases] is a [map[string]string] that is only ever ranged over:
    the list holds its entries in the order the [range] loop visits them. *)
Definition Aliases := list (string * string).

(** [flowkit.Account]: the signer of a transaction. *)
Record Account := {
  acc_name : string;
  acc_address : Address;
  acc_key_index : nat
}.

(** [templates.Contract] *)
Record TemplateContract := { tc_Name : string; tc_Source : string }.

(** On-chain account key and account ([flow.Account]). *)
Record ChainKey := { ck_index : nat; ck_sequence : N }.
Record FlowAccount := {
  fa_address : Address;
  fa_contracts : gmap string string;
  fa_keys : list ChainKey
}.

Record Block := { block_id : Identifier; block_height : N }.

(** The operation a transaction carries: one constructor per builder of the
    [flowkit] package. *)
Inductive TxOp :=
| OpCreateAccount (keys : list AccountKey) (contracts : list TemplateContract)
| OpAddContract (name : string) (code : string) (args : list Value)
| OpUpdateContract (name : string) (code : string)
| OpRemoveContract (name : string).

(** Modelled from the spec: [flowkit.Transaction] (its file is not among the
    sources): an "envelope holding script bytes, arguments, payer, proposer
    (address + key index), block reference, and signature(s)", "mutated
    through a fixed sequence (reference, proposer, sign)". *)
Record Transaction := {
  tx_op : TxOp;
  tx_signer : Account;
  tx_payer : Address;
  tx_reference : option Block;
  tx_proposer : option (Address * nat * N);
  tx_signed : bool
}.

(** What [SendSignedTransaction] hands back: [sentTx.ID()] is all that is read. *)
Record SentTransaction := { sent_ID : Identifier }.

Inductive Event :=
| AccountCreated (a : Address)
| OtherEvent (type : string).

(** ** Errors

    One constructor per error the modelled code builds; [ErrExternal] is an
    error handed back by a collaborator.  [errUpdateNoDiff] is the package
    level sentinel of the accounts service. *)
Inductive Error :=
| ErrDoesNotExist
| ErrKeysWeightsMismatch (keys weights : nat)
| ErrInvalidAccountKey (cause : Error)
| ErrWrongContractFormat (arg : string)
| ErrAccountCreationFailed (cause : Error)
| ErrNoNewAddress
| ErrUnresolvedImport (imp : string)
| errUpdateNoDiff
| ErrContractExists (name account : string)
| ErrSendDeployFailed (cause : Error)
| ErrRemoveMissing (name : string) (existing : list string)
| ErrExternal (msg : string).

(** [strings.Join] *)
Definition strings_Join (l : list string) (sep : string) : string :=
  String.concat sep l.

(** [err.Error()]: the text of each error, from the format strings.  For
    [ErrContractExists] the source passes the formatted text to [fmt.Errorf]
    as a format once more: the text is the one given here when neither name
    holds a percent sign. *)
Fixpoint message (e : Error) : string :=
  match e with
  | ErrDoesNotExist => "missing configuration"
  | ErrKeysWeightsMismatch k w =>
      "number of keys and weights provided must match, number of provided keys: "
      +:+ pretty k +:+ ", number of provided key weights: " +:+ pretty w
  | ErrInvalidAccountKey c => "invalid account key: " +:+ message c
  | ErrWrongContractFormat a =>
      "wrong format for contract. Correct format is name:path, but got: " +:+ a
  | ErrAccountCreationFailed c =>
      "account creation transaction failed: " +:+ message c
  | ErrNoNewAddress => "new account address couldn't be fetched"
  | ErrUnresolvedImport imp =>
      "import " +:+ imp +:+ " could not be resolved from the configuration"
  | errUpdateNoDiff =>
      "contract already exists and is the same as the contract provided for update"
  | ErrContractExists n a => "contract " +:+ n +:+ " exists in account " +:+ a
  | ErrSendDeployFailed c =>
      "failed to send transaction to deploy a contract: " +:+ message c
  | ErrRemoveMissing n ex =>
      "can not remove a non-existing contract named '" +:+ n
      +:+ "'. Account only contains the contracts: " +:+ strings_Join ex ", "
  | ErrExternal m => m
  end.

Record TransactionResult := {
  tr_Error : option Error;
  tr_Events : list Event
}.

(** ** The gateway and its trace *)

Inductive Call :=
| CallGetAccount (a : Address)
| CallGetLatestBlock
| CallSendSignedTransaction (tx : Transaction)
| CallGetTransactionResult (id : Identifier) (waitSeal : bool).

(** [gateway.Gateway] is an interface.  An implementation answers a call
    knowing the calls made before it, which covers every deterministic
    gateway (node, emulator, mock).  An answer is an error or a value: a
    gateway that hands back a nil pointer with a nil error is not modelled. *)
Record Gateway := {
  gw_GetAccount : list Call → Address → Error + FlowAccount;
  gw_GetLatestBlock : list Call → Error + Block;
  gw_SendSignedTransaction : list Call → Transaction → Error + SentTransaction;
  gw_GetTransactionResult :
    list Call → Identifier → bool → Error + TransactionResult
}.

(** [flowkit.State], through the three queries the services make. *)
Record State := {
  DeploymentContractsByNetwork : string → Error + list Contract;
  AliasesForNetwork : string → Aliases;
  ReadFile : string → Error + string
}.

(** ** World, outcomes and the monad of the services *)

Record World := {
  heap : list Script;
  calls : list Call
}.

Inductive Fault :=
| NilDereference
| IndexOutOfRange (index len : nat).

Inductive Outcome (A : Type) :=
| Ok (a : A)
| Err (e : Error)
| Panic (f : Fault).
Arguments Ok {A} a.
Arguments Err {A} e.
Arguments Panic {A} f.

Definition M (A : Type) : Type := World → Outcome A * World.

Definition ret {A} (a : A) : M A := λ w, (Ok a, w).
Definition throw {A} (e : Error) : M A := λ w, (Err e, w).
Definition panic {A} (f : Fault) : M A := λ w, (Panic f, w).
Definition bind {A B} (m : M A) (k : A → M B) : M B :=
  λ w, match m w with
       | (Ok a, w') => k a w'
       | (Err e, w') => (Err e, w')
       | (Panic f, w') => (Panic f, w')
       end.

#[export] Instance M_ret : MRet M := @ret.
#[export] Instance M_bind : MBind M := λ A B k m, bind m k.

(** [v, err := f(...); if err != nil { return ..., err }] for a pure [f]. *)
Definition lift {A} (r : Error + A) : M A :=
  match r with inl e => throw e | inr a => ret a end.

Definition check (e : option Error) : M unit :=
  match e with Some e => throw e | None => ret tt end.

(** Reading and writing a script through a pointer. *)
Definition load (l : nat) : M Script :=
  λ w, match heap w !! l with
       | Some s => (Ok s, w)
       | None => (Panic NilDereference, w)
       end.

Definition store (l : nat) (s : Script) : M unit :=
  λ w, match heap w !! l with
       | Some _ => (Ok tt, {| heap := <[l := s]> (heap w); calls := calls w |})
       | None => (Panic NilDereference, w)
       end.

(** One gateway call: answered from the trace so far, then recorded. *)
Definition gateway_call {A} (c : Call) (answer : list Call → Error + A) : M A :=
  λ w, let w' := {| heap := heap w; calls := calls w ++ [c] |} in
       match answer (calls w) with
       | inl e => (Err e, w')
       | inr a => (Ok a, w')
       end.

(** ** Libraries and the parts of flowkit outside the sources *)

(** Go's [path] package, the Flow SDK and the Cadence parser. *)
Class Libraries := {
  path_Clean : string → string;
  path_Join : string → string → string;
  path_Dir : string → string;
  Address_String : Address → string;
  HexToAddress : string → Address;
  AccountKey_Validate : AccountKey → option Error;
  (** the Cadence parser: does the source parse, the paths of its import
      declarations that name a file, the name of the declared contract *)
  cadence_parse_error : string → option Error;
  cadence_imports : string → list string;
  cadence_contract_name : string → Error + string
}.

(** What the sources do not fix of the [flowkit] and [project] packages:
    the textual rewriting of one import, and when building or signing a
    transaction is refused. *)
Class Flowkit := {
  rewrite_import : string → string → string → string;
  builder_error : Account → TxOp → option Error;
  sign_error : Transaction → option Error
}.

(** ** The program of a contract

    [project.Program] (program.go) is not among the sources; its methods are
    modelled from what the spec says of them and from how imports.go and the
    accounts service use them. *)

(** Modelled from the spec: [project.Program], which "wraps one contract's
    raw source".  It holds the pointer to the script it was built from:
    [Replace] drops what [ReplaceImport] returns and hands back the program
    it was given, so the rewriting acts on the object itself. *)
Record Program := { p_script : nat }.

Record ImportReplacer := {
  contracts : list Contract;
  aliases : Aliases
}.

Definition NewImportReplacer (contracts : list Contract) (aliases : Aliases)
  : ImportReplacer :=
  {| contracts := contracts; aliases := aliases |}.

Section Project.
Context {L : Libraries} {F : Flowkit}.

(** Modelled from the spec: [project.NewProgram] parses the script's code
    and fails when it does not parse. *)
Definition NewProgram (script : nat) : M Program :=
  s ← load script;
  _ ← check (cadence_parse_error (s_code s));
  ret {| p_script := script |}.

(** Modelled from the spec: [Program.Imports], "the set of import
    statements found in the source (each an import path string)". *)
Definition Program_Imports (p : Program) : M (list string) :=
  s ← load (p_script p);
  ret (cadence_imports (s_code s)).

Definition Program_HasImports (p : Program) : M bool :=
  imports ← Program_Imports p;
  ret (bool_decide (0 < length imports)).

Definition Program_Location (p : Program) : M string :=
  s ← load (p_script p);
  ret (s_location s).

Definition Program_Code (p : Program) : M string :=
  s ← load (p_script p);
  ret (s_code s).

(** Modelled from the spec: [Program.Name], "the declared contract name
    extracted from source". *)
Definition Program_Name (p : Program) : M string :=
  s ← load (p_script p);
  lift (cadence_contract_name (s_code s)).

(** Modelled from the spec: [Program.ReplaceImport], "a given import path
    textually replaced by a resolved target string", in the script the
    program wraps; it returns the program it was called on. *)
Definition Program_ReplaceImport (p : Program) (from to : string) : M Program :=
  s ← load (p_script p);
  _ ← store (p_script p) (Script_SetCode s (rewrite_import (s_code s) from to));
  ret p.

(** *** imports.go *)

Definition absolutePath (basePath relativePath : string) : string :=
  path_Join (path_Dir basePath) relativePath.

(** The two loops of [getContractsLocations], in their order. *)
Definition getContractsLocations (i : ImportReplacer) : gmap string string :=
  let sourceTarget : gmap string string := ∅ in
  let sourceTarget :=
    foldl (λ m contract,
             <[path_Clean (c_location contract)
                 := Address_String (AccountAddress contract)]> m)
          sourceTarget (contracts i) in
  foldl (λ m alias,
           <[path_Clean alias.1 := Address_String (HexToAddress alias.2)]> m)
        sourceTarget (aliases i).

(** The body of the [for _, imp := range imports] loop of [Replace]. *)
Fixpoint Replace_range (contractsLocations : gmap string string)
    (program : Program) (imports : list string) : M unit :=
  match imports with
  | [] => ret tt
  | imp :: rest =>
      loc ← Program_Location program;
      let importLocation := path_Clean (absolutePath loc imp) in
      match contractsLocations !! importLocation with
      | None => throw (ErrUnresolvedImport imp)
      | Some target =>
          _ ← Program_ReplaceImport program imp target;
          Replace_range contractsLocations program rest
      end
  end.

Definition Replace (i : ImportReplacer) (program : Program) : M Program :=
  imports ← Program_Imports program;
  let contractsLocations := getContractsLocations i in
  _ ← Replace_range contractsLocations program imports;
  ret program.

End Project.

(** ** The accounts service *)

(** [Accounts]; [state] is a pointer that [Create] compares with [nil]. *)
Record Accounts := {
  gateway : Gateway;
  state : option State
}.

(** The text before and the text after the first [sep], if there is one. *)
Fixpoint cut_at (sep : ascii) (s : string) : option (string * string) :=
  match s with
  | EmptyString => None
  | String c r =>
      if decide (c = sep) then Some (EmptyString, r)
      else match cut_at sep r with
           | Some (a, b) => Some (String c a, b)
           | None => None
           end
  end.

(** [strings.SplitN(s, ":", 2)]: at most two parts, cut at the first colon. *)
Definition strings_SplitN2 (s : string) : list string :=
  match cut_at ":"%char s with
  | Some (a, b) => [a; b]
  | None => [s]
  end.

(** [maps.Keys]: Go leaves the order of the keys open; this is one order. *)
Definition maps_Keys (m : gmap string string) : list string :=
  (map_to_list m).*1.

(** Modelled from the spec: [Events.GetCreatedAddresses], "extracts the newly
    created account's address from the sealed result's emitted events". *)
Definition GetCreatedAddresses (events : list Event) : list Address :=
  omap (λ e, match e with AccountCreated a => Some a | OtherEvent _ => None end)
       events.

(** [l[i]] of Go: a run-time panic out of range. *)
Definition index {A} (l : list A) (i : nat) : M A :=
  match l !! i with
  | Some x => ret x
  | None => panic (IndexOutOfRange i (length l))
  end.

(** [errors.Wrap] / [fmt.Errorf("...: %w", err)] around a failing step. *)
Definition wrap_error {A} (wrap : Error → Error) (m : M A) : M A :=
  λ w, match m w with
       | (Err e, w') => (Err (wrap e), w')
       | r => r
       end.

Section Services.
Context {L : Libraries} {F : Flowkit}.

(** *** Transactions *)

(** Modelled from the spec: the builders of the [flowkit] package
    ([NewCreateAccountTransaction], [NewAddAccountContractTransaction],
    [NewUpdateAccountContractTransaction],
    [NewRemoveAccountContractTransaction]): a transaction "built fresh per
    operation", with the signer as payer, or an error. *)
Definition NewTransaction (signer : Account) (op : TxOp) : Error + Transaction :=
  match builder_error signer op with
  | Some e => inl e
  | None => inr {| tx_op := op; tx_signer := signer;
                   tx_payer := acc_address signer;
                   tx_reference := None; tx_proposer := None;
                   tx_signed := false |}
  end.

Definition NewCreateAccountTransaction (signer : Account)
    (keys : list AccountKey) (contracts : list TemplateContract) :=
  NewTransaction signer (OpCreateAccount keys contracts).

Definition NewAddAccountContractTransaction (signer : Account)
    (name : string) (source : string) (args : list Value) :=
  NewTransaction signer (OpAddContract name source args).

Definition NewUpdateAccountContractTransaction (signer : Account)
    (name : string) (source : string) :=
  NewTransaction signer (OpUpdateContract name source).

Definition NewRemoveAccountContractTransaction (signer : Account)
    (name : string) :=
  NewTransaction signer (OpRemoveContract name).

Definition Transaction_SetBlockReference (tx : Transaction) (block : Block)
  : Transaction :=
  {| tx_op := tx_op tx; tx_signer := tx_signer tx; tx_payer := tx_payer tx;
     tx_reference := Some block; tx_proposer := tx_proposer tx;
     tx_signed := tx_signed tx |}.

(** Modelled from the spec: [Transaction.SetProposer] takes the "current key
    sequence number" of the fetched account "at the signer's configured key
    index"; an "invalid key index" is an error. *)
Definition Transaction_SetProposer (tx : Transaction) (proposer : FlowAccount)
    (keyIndex : nat) : Error + Transaction :=
  match fa_keys proposer !! keyIndex with
  | None =>
      inl (ErrExternal ("failed to retrieve proposer key at index "
                        +:+ pretty keyIndex))
  | Some key =>
      inr {| tx_op := tx_op tx; tx_signer := tx_signer tx;
             tx_payer := tx_payer tx; tx_reference := tx_reference tx;
             tx_proposer :=
               Some (fa_address proposer, ck_index key, ck_sequence key);
             tx_signed := tx_signed tx |}
  end.

(** Modelled from the spec: [Transaction.Sign], "sign the transaction with
    the signer's private key capability", or a signing failure. *)
Definition Transaction_Sign (tx : Transaction) : Error + Transaction :=
  match sign_error tx with
  | Some e => inl e
  | None =>
      inr {| tx_op := tx_op tx; tx_signer := tx_signer tx;
             tx_payer := tx_payer tx; tx_reference := tx_reference tx;
             tx_proposer := tx_proposer tx; tx_signed := true |}
  end.

(** *** Gateway calls *)

Definition GetAccount (a : Accounts) (address : Address) : M FlowAccount :=
  gateway_call (CallGetAccount address)
               (λ cs, gw_GetAccount (gateway a) cs address).

Definition GetLatestBlock (a : Accounts) : M Block :=
  gateway_call CallGetLatestBlock (gw_GetLatestBlock (gateway a)).

Definition SendSignedTransaction (a : Accounts) (tx : Transaction)
  : M SentTransaction :=
  gateway_call (CallSendSignedTransaction tx)
               (λ cs, gw_SendSignedTransaction (gateway a) cs tx).

Definition GetTransactionResult (a : Accounts) (id : Identifier)
    (waitSeal : bool) : M TransactionResult :=
  gateway_call (CallGetTransactionResult id waitSeal)
               (λ cs, gw_GetTransactionResult (gateway a) cs id waitSeal).

(** *** prepareTransaction *)

Definition prepareTransaction (a : Accounts) (tx : Transaction)
    (account : Account) : M Transaction :=
  block ← GetLatestBlock a;
  proposer ← GetAccount a (acc_address account);
  let tx := Transaction_SetBlockReference tx block in
  tx ← lift (Transaction_SetProposer tx proposer (acc_key_index account));
  tx ← lift (Transaction_Sign tx);
  ret tx.

(** *** Create *)

(** The [for i, pubKey := range pubKeys] loop, from index [i] on. *)
Fixpoint Create_keys (pubKeys : list string) (i : nat) (keyWeights : list Z)
    (sigAlgo : list SignatureAlgorithm) (hashAlgo : list HashAlgorithm)
    (accKeys : list AccountKey) : M (list AccountKey) :=
  match pubKeys with
  | [] => ret accKeys
  | pubKey :: rest =>
      let weight :=
        if bool_decide (i < length keyWeights) then keyWeights !!! i
        else AccountKeyWeightThreshold in
      sa ← index sigAlgo i;
      ha ← index hashAlgo i;
      let accKey := {| PublicKey := pubKey; SigAlgo := sa; HashAlgo := ha;
                       Weight := weight |} in
      _ ← wrap_error ErrInvalidAccountKey (check (AccountKey_Validate accKey));
      Create_keys rest (S i) keyWeights sigAlgo hashAlgo (accKeys ++ [accKey])
  end.

(** The [for _, contract := range contractArgs] loop. *)
Fixpoint Create_contracts (st : State) (contractArgs : list string)
    (contracts : list TemplateContract) : M (list TemplateContract) :=
  match contractArgs with
  | [] => ret contracts
  | contract :: rest =>
      match strings_SplitN2 contract with
      | [name; path] =>
          contractSource ← lift (ReadFile st path);
          Create_contracts st rest
            (contracts ++ [{| tc_Name := name; tc_Source := contractSource |}])
      | _ => throw (ErrWrongContractFormat contract)
      end
  end.

Definition Create (a : Accounts) (signer : Account) (pubKeys : list string)
    (keyWeights : list Z) (sigAlgo : list SignatureAlgorithm)
    (hashAlgo : list HashAlgorithm) (contractArgs : list string)
  : M FlowAccount :=
  match state a with
  | None => throw ErrDoesNotExist
  | Some st =>
      if bool_decide (0 < length keyWeights
                      ∧ length pubKeys ≠ length keyWeights)
      then throw (ErrKeysWeightsMismatch (length pubKeys) (length keyWeights))
      else
        accKeys ← Create_keys pubKeys 0 keyWeights sigAlgo hashAlgo [];
        contracts ← Create_contracts st contractArgs [];
        tx ← lift (NewCreateAccountTransaction signer accKeys contracts);
        tx ← prepareTransaction a tx signer;
        sentTx ← wrap_error ErrAccountCreationFailed
                   (SendSignedTransaction a tx);
        result ← GetTransactionResult a (sent_ID sentTx) true;
        match tr_Error result with
        | Some e => throw e
        | None =>
            match GetCreatedAddresses (tr_Events result) with
            | [] => throw ErrNoNewAddress
            | newAccountAddress :: _ => GetAccount a newAccountAddress
            end
        end
  end.

(** *** AddContract

    [contract] is the pointer to the caller's script.  An error return
    carries [flow.EmptyID] and [false]; a normal return carries the
    identifier and the boolean. *)
Definition AddContract (a : Accounts) (account : Account) (contract : nat)
    (network : string) (updateExisting : bool) : M (Identifier * bool) :=
  program ← NewProgram contract;
  hasImports ← Program_HasImports program;
  program ←
    (if hasImports : bool then
       st ← match state a with
            | Some st => ret st
            | None => panic NilDereference
            end;
       contracts ← lift (DeploymentContractsByNetwork st network);
       let importReplacer :=
         NewImportReplacer contracts (AliasesForNetwork st network) in
       Replace importReplacer program
     else ret program);
  name ← Program_Name program;
  code ← Program_Code program;
  script ← load contract;
  tx ← lift (NewAddAccountContractTransaction account name code (s_args script));
  (* check if contract exists on account *)
  flowAccount ← GetAccount a (acc_address account);
  let existingContract := default EmptyString (fa_contracts flowAccount !! name) in
  let exists_ := bool_decide (is_Some (fa_contracts flowAccount !! name)) in
  code ← Program_Code program;
  let noDiffInContract := bool_decide (code = existingContract) in
  if exists_ && noDiffInContract then throw errUpdateNoDiff
  else if exists_ && negb updateExisting
  then throw (ErrContractExists name (acc_name account))
  else
    (* if we are updating contract *)
    tx ← (if exists_ && updateExisting then
            script ← load contract;
            lift (NewUpdateAccountContractTransaction account name (s_code script))
          else ret tx);
    tx ← prepareTransaction a tx account;
    (* send transaction with contract *)
    sentTx ← wrap_error ErrSendDeployFailed (SendSignedTransaction a tx);
    (* we wait for transaction to be sealed *)
    trx ← GetTransactionResult a (sent_ID sentTx) true;
    match tr_Error trx with
    | Some e => throw e
    | None => ret (sent_ID sentTx, updateExisting)
    end.

(** *** RemoveContract *)

Definition RemoveContract (a : Accounts) (account : Account)
    (contractName : string) : M Identifier :=
  (* check if contracts exists on the account *)
  flowAcc ← GetAccount a (acc_address account);
  let existingContracts := maps_Keys (fa_contracts flowAcc) in
  if bool_decide (contractName ∈ existingContracts) then
    tx ← lift (NewRemoveAccountContractTransaction account contractName);
    tx ← prepareTransaction a tx account;
    sentTx ← SendSignedTransaction a tx;
    txr ← GetTransactionResult a (sent_ID sentTx) true;
    match tr_Error txr with
    | Some e => throw e
    | None => ret (sent_ID sentTx)
    end
  else throw (ErrRemoveMissing contractName existingContracts).

End Services.

(** ** Statement vocabulary *)

(** The transactions handed to [SendSignedTransaction], oldest first. *)
Definition submitted (cs : list Call) : list Transaction :=
  omap (λ c, match c with
             | CallSendSignedTransaction tx => Some tx
             | _ => None
             end) cs.

(** The world after the script at [l] had its code set to [c]. *)
Definition set_code (w : World) (l : nat) (s : Script) (c : string) : World :=
  {| heap := <[l := Script_SetCode s c]> (heap w); calls := calls w |}.

(** The world after one more gateway call. *)
Definition called (w : World) (c : Call) : World :=
  {| heap := heap w; calls := calls w ++ [c] |}.

(** A computation that never panics. *)
Definition safe {A} (m : M A) : Prop :=
  ∀ w f w', m w ≠ (Panic f, w').

Section Vocabulary.
Context {L : Libraries} {F : Flowkit}.

(** The key [Replace] looks an import up with. *)
Definition importLocation (programLocation imp : string) : string :=
  path_Clean (absolutePath programLocation imp).

(** The code after the imports [imports] were rewritten with their targets
    in [table], in order; an import without a target is left as it is. *)
Definition rewritten (table : gmap string string) (programLocation : string)
    (code : string) (imports : list string) : string :=
  foldl (λ c imp,
           match table !! importLocation programLocation imp with
           | Some target => rewrite_import c imp target
           | None => c
           end) code imports.

(** The code [AddContract] deploys for the script [s]: its own code when it
    declares no import, and the code with every import rewritten when the
    state knows the network's contracts and every import has a target. *)
Definition resolved_code (a : Accounts) (network : string) (s : Script)
  : option string :=
  match cadence_imports (s_code s) with
  | [] => Some (s_code s)
  | imports =>
      match state a with
      | None => None
      | Some st =>
          match DeploymentContractsByNetwork st network with
          | inl _ => None
          | inr cs =>
              let table :=
                getContractsLocations
                  (NewImportReplacer cs (AliasesForNetwork st network)) in
              if bool_decide
                   (Forall (λ imp, is_Some
                              (table !! importLocation (s_location s) imp))
                           imports)
              then Some (rewritten table (s_location s) (s_code s) imports)
              else None
          end
      end
  end.

(** The transaction pipeline that every write operation runs: prepare,
    submit, wait for the seal. *)
Definition pipeline (a : Accounts) (tx : Transaction) (account : Account)
  : M (Transaction * SentTransaction * TransactionResult) :=
  tx ← prepareTransaction a tx account;
  sentTx ← SendSignedTransaction a tx;
  result ← GetTransactionResult a (sent_ID sentTx) true;
  ret (tx, sentTx, result).

(** The end of [AddContract], from the transaction it settled on: prepare
    it, send it, wait for the seal and report. *)
Definition AddContract_send (a : Accounts) (account : Account)
    (tx : Transaction) (updateExisting : bool) : M (Identifier * bool) :=
  tx ← prepareTransaction a tx account;
  sentTx ← wrap_error ErrSendDeployFailed (SendSignedTransaction a tx);
  trx ← GetTransactionResult a (sent_ID sentTx) true;
  match tr_Error trx with
  | Some e => throw e
  | None => ret (sent_ID sentTx, updateExisting)
  end.

(** The keys the loop of [Create] builds when every index is in range and
    every key is valid. *)
Definition built_keys (pubKeys : list string) (i : nat) (keyWeights : list Z)
    (sigAlgo : list SignatureAlgorithm) (hashAlgo : list HashAlgorithm)
  : list AccountKey :=
  imap (λ j pubKey,
          {| PublicKey := pubKey;
             SigAlgo := default UnknownSignatureAlgorithm (sigAlgo !! (i + j));
             HashAlgo := default UnknownHashAlgorithm (hashAlgo !! (i + j));
             Weight := default AccountKeyWeightThreshold (keyWeights !! (i + j)) |})
       pubKeys.


(** The table the spec describes: one entry per contract, then one entry
    per alias, each under its cleaned location. *)
Definition spec_table (i : ImportReplacer) : gmap string string :=
  let contract_entries :=
    (λ c, (path_Clean (c_location c), Address_String (AccountAddress c)))
      <$> contracts i in
  let alias_entries :=
    (λ al, (path_Clean al.1, Address_String (HexToAddress al.2)))
      <$> aliases i in
  foldl (λ m e, <[e.1 := e.2]> m) ∅ (contract_entries ++ alias_entries).

End Vocabulary.

(** ** A concrete setting

    Instances of the libraries and a gateway that behaves like the emulator,
    to run the services on concrete projects. *)

Module Sample.

(** *** Go's [path] package *)

Fixpoint split_on (sep : ascii) (s : string) : list string :=
  match s with
  | EmptyString => [EmptyString]
  | String c r =>
      if decide (c = sep) then EmptyString :: split_on sep r
      else match split_on sep r with
           | x :: xs => String c x :: xs
           | [] => [String c EmptyString]
           end
  end.

(** One path element against the elements kept so far (last one first). *)
Definition clean_step (rooted : bool) (kept : list string) (elem : string)
  : list string :=
  if decide (elem = EmptyString ∨ elem = ".") then kept
  else if decide (elem = "..") then
    match kept with
    | top :: below =>
        if decide (top = "..") then elem :: kept else below
    | [] => if rooted then [] else [elem]
    end
  else elem :: kept.

(** [path.Clean]: no empty and no [.] element, [..] cancels the element
    before it, [..] at the root is dropped, the empty path is [.]. *)
Definition Clean (p : string) : string :=
  let rooted := String.prefix "/" p in
  let kept := foldl (clean_step rooted) [] (split_on "/"%char p) in
  let body := String.concat "/" (reverse kept) in
  let out := if rooted then "/" +:+ body else body in
  if decide (out = EmptyString) then "." else out.

(** [path.Join] of two elements: empty elements are ignored. *)
Definition Join (a b : string) : string :=
  if decide (a = EmptyString ∧ b = EmptyString) then EmptyString
  else if decide (a = EmptyString) then Clean b
  else if decide (b = EmptyString) then Clean a
  else Clean (a +:+ "/" +:+ b).

(** [path.Dir]: everything up to the last slash, cleaned. *)
Definition Dir (p : string) : string :=
  match reverse (split_on "/"%char p) with
  | _ :: before =>
      Clean (String.concat "/" (reverse (EmptyString :: before)))
  | [] => "."
  end.

(** *** Flow addresses in hexadecimal *)

Definition hex_digit (n : N) : ascii :=
  match n with
  | 0 => "0" | 1 => "1" | 2 => "2" | 3 => "3" | 4 => "4" | 5 => "5"
  | 6 => "6" | 7 => "7" | 8 => "8" | 9 => "9" | 10 => "a" | 11 => "b"
  | 12 => "c" | 13 => "d" | 14 => "e" | _ => "f"
  end%N%char.

Fixpoint hex_digits (count : nat) (n : N) (acc : string) : string :=
  match count with
  | O => acc
  | S count' =>
      hex_digits count' (n / 16)%N (String (hex_digit (n mod 16)%N) acc)
  end.

(** [Address.String]: sixteen hexadecimal digits. *)
Definition AddressString (a : Address) : string :=
  hex_digits 16 a EmptyString.

Definition hex_value (c : ascii) : option N :=
  let n := N_of_ascii c in
  if bool_decide (48 ≤ n ≤ 57)%N then Some (n - 48)%N
  else if bool_decide (97 ≤ n ≤ 102)%N then Some (n - 87)%N
  else if bool_decide (65 ≤ n ≤ 70)%N then Some (n - 55)%N
  else None.

Fixpoint hex_parse (s : string) (acc : N) : N :=
  match s with
  | EmptyString => acc
  | String c r =>
      match hex_value c with
      | Some d => hex_parse r ((acc * 16 + d) mod 2 ^ 64)%N
      | None => acc
      end
  end.

(** [flow.HexToAddress]: an optional [0x], then the digits. *)
Definition HexToAddr (h : string) : Address :=
  match h with
  | String "0" (String "x" r) => hex_parse r 0%N
  | _ => hex_parse h 0%N
  end.

(** [AccountKey.Validate]: the two algorithms have to go together. *)
Definition Validate (k : AccountKey) : option Error :=
  match SigAlgo k, HashAlgo k with
  | (ECDSA_P256 | ECDSA_secp256k1), (SHA2_256 | SHA3_256) => None
  | BLS_BLS12_381, KMAC128 => None
  | _, _ =>
      Some (ErrExternal
              "signing algorithm is incompatible with hashing algorithm")
  end.

(** *** A front end for the Cadence programs of the examples

    Import declarations stand on lines of their own: [import Name from] and
    then either a path between double quotes, which ends the line, or [0x]
    and an address.  The contract is declared as [... contract Name ...]. *)

Definition dquote : ascii := "034"%char.
Definition newline : ascii := "010"%char.

(** a path between double quotes *)
Definition in_quotes (path : string) : string :=
  String dquote path +:+ String dquote EmptyString.



Definition join_with (sep : ascii) (ls : list string) : string :=
  String.concat (String sep EmptyString) ls.

Definition lines (code : string) : list string := split_on newline code.
Definition unlines (ls : list string) : string := join_with newline ls.

(** the path of an import declaration that names a file *)
Definition import_path (line : string) : option string :=
  if String.prefix "import " line then
    match cut_at dquote line with
    | Some (_, after) =>
        match cut_at dquote after with
        | Some (path, EmptyString) => Some path
        | _ => None
        end
    | None => None
    end
  else None.

Definition imports_of (code : string) : list string :=
  omap import_path (lines code).

Fixpoint after_contract (words : list string) : option string :=
  match words with
  | w :: rest =>
      if decide (w = "contract") then head rest else after_contract rest
  | [] => None
  end.

Definition name_of (code : string) : Error + string :=
  match after_contract (split_on " "%char code) with
  | Some n => inr n
  | None => inl (ErrExternal "unable to determine contract name")
  end.

#[export] Instance libraries : Libraries := {|
  path_Clean := Clean;
  path_Join := Join;
  path_Dir := Dir;
  Address_String := AddressString;
  HexToAddress := HexToAddr;
  AccountKey_Validate := Validate;
  cadence_parse_error := λ _, None;
  cadence_imports := imports_of;
  cadence_contract_name := name_of
|}.

(** Rewriting an import: in the first declaration that imports the path,
    the quoted path gives way to [0x] and the address, as the deployment
    test expects of a deployed source. *)
Definition rewrite_line (to line : string) : string :=
  match cut_at dquote line with
  | Some (before, _) => before +:+ "0x" +:+ to
  | None => line
  end.

Fixpoint rewrite_lines (from to : string) (ls : list string) : list string :=
  match ls with
  | [] => []
  | l :: rest =>
      if decide (import_path l = Some from) then rewrite_line to l :: rest
      else l :: rewrite_lines from to rest
  end.

Definition rewrite (code from to : string) : string :=
  unlines (rewrite_lines from to (lines code)).

#[export] Instance flowkit : Flowkit := {|
  rewrite_import := rewrite;
  builder_error := λ _ _, None;
  sign_error := λ _, None
|}.

(** *** A gateway over an in-memory chain

    The chain is what the transactions sent so far made of the initial
    accounts. *)

Definition Chain := gmap Address FlowAccount.

Definition with_contracts (f : gmap string string → gmap string string)
    (acc : FlowAccount) : FlowAccount :=
  {| fa_address := fa_address acc; fa_contracts := f (fa_contracts acc);
     fa_keys := fa_keys acc |}.

Definition fresh_address (chain : Chain) : Address :=
  (1 + foldr N.max 0 (map_to_list chain).*1)%N.

Definition execute (chain : Chain) (tx : Transaction) : Chain :=
  match tx_op tx with
  | OpAddContract name code _ =>
      alter (with_contracts (insert name code)) (tx_payer tx) chain
  | OpUpdateContract name code =>
      alter (with_contracts (insert name code)) (tx_payer tx) chain
  | OpRemoveContract name =>
      alter (with_contracts (delete name)) (tx_payer tx) chain
  | OpCreateAccount keys cs =>
      let address := fresh_address chain in
      <[address :=
          {| fa_address := address;
             fa_contracts :=
               list_to_map ((λ c, (tc_Name c, tc_Source c)) <$> cs);
             fa_keys := imap (λ i _, {| ck_index := i; ck_sequence := 0 |})
                             keys |}]> chain
  end.

Definition replay (genesis : Chain) (cs : list Call) : Chain :=
  foldl (λ chain c, match c with
                    | CallSendSignedTransaction tx => execute chain tx
                    | _ => chain
                    end) genesis cs.

Definition events_of (genesis : Chain) (cs : list Call) : list Event :=
  match last (submitted cs) with
  | Some tx =>
      match tx_op tx with
      | OpCreateAccount _ _ =>
          [AccountCreated
             (fresh_address (replay genesis (removelast cs)))]
      | _ => [OtherEvent "flow.AccountContractAdded"]
      end
  | None => []
  end.

Definition emulator (genesis : Chain) : Gateway := {|
  gw_GetAccount cs address :=
    match replay genesis cs !! address with
    | Some acc => inr acc
    | None => inl (ErrExternal "account not found")
    end;
  gw_GetLatestBlock cs :=
    inr {| block_id := N.of_nat (length cs);
           block_height := N.of_nat (length (submitted cs)) |};
  gw_SendSignedTransaction cs tx :=
    if tx_signed tx then inr {| sent_ID := N.of_nat (S (length cs)) |}
    else inl (ErrExternal "transaction is not signed");
  gw_GetTransactionResult cs id waitSeal :=
    inr {| tr_Error := None; tr_Events := events_of genesis cs |}
|}.

End Sample.

(** ** A project to run

    Three contracts in one directory, as in the deployment test: [C]
    imports [A] and [B]; the account [alice] sits at address 1. *)

Module Fixture.
Import Sample.

Definition nl : string := String Sample.newline EmptyString.

Definition sourceC : string :=
  "import A from " +:+ Sample.in_quotes "./contractA.cdc" +:+ nl +:+
  "import B from " +:+ Sample.in_quotes "./contractB.cdc" +:+ nl +:+
  "pub contract C {}".

(** [sourceC] once the import of [A] alone points at address 1 *)
Definition partlyC : string :=
  "import A from 0x0000000000000001" +:+ nl +:+
  "import B from " +:+ Sample.in_quotes "./contractB.cdc" +:+ nl +:+
  "pub contract C {}".

(** [sourceC] once both imports point at address 1 *)
Definition resolvedC : string :=
  "import A from 0x0000000000000001" +:+ nl +:+
  "import B from 0x0000000000000001" +:+ nl +:+
  "pub contract C {}".

Definition scriptC : Script :=
  {| s_code := sourceC; s_args := ["foo"]; s_location := "./contractC.cdc" |}.

Definition contractA : Contract :=
  {| c_name := "A"; c_location := "./contractA.cdc"; AccountAddress := 1%N |}.

Definition contractB : Contract :=
  {| c_name := "B"; c_location := "contractB.cdc"; AccountAddress := 1%N |}.

(** the script of [C] is the only object on the heap *)
Definition world : World := {| heap := [scriptC]; calls := [] |}.

Definition programC : Program := {| p_script := 0 |}.

(** a configuration that knows [A] only, and one that knows both *)
Definition onlyA : ImportReplacer := NewImportReplacer [contractA] [].
Definition both : ImportReplacer := NewImportReplacer [contractA; contractB] [].

(** [B] comes from the project and, under another spelling of the same
    file, from an alias *)
Definition aliased : ImportReplacer :=
  NewImportReplacer [contractA; contractB] [("./x/../contractB.cdc", "0x0b")].

Definition alice : Account :=
  {| acc_name := "alice"; acc_address := 1%N; acc_key_index := 0 |}.

Definition project : State := {|
  DeploymentContractsByNetwork := λ _, inr [contractA; contractB];
  AliasesForNetwork := λ _, [];
  ReadFile := λ _, inl (ErrExternal "no such file")
|}.

Definition account_with (cs : gmap string string) : FlowAccount :=
  {| fa_address := 1%N; fa_contracts := cs;
     fa_keys := [{| ck_index := 0; ck_sequence := 0%N |}] |}.

(** chains on which [alice] holds nothing, an older [C], the resolved [C] *)
Definition empty_chain : Chain := {[ 1%N := account_with ∅ ]}.
Definition old_chain : Chain :=
  {[ 1%N := account_with {[ "C" := "pub contract C { }" ]} ]}.
Definition same_chain : Chain :=
  {[ 1%N := account_with {[ "C" := resolvedC ]} ]}.

Definition service (chain : Chain) : Accounts :=
  {| gateway := emulator chain; state := Some project |}.

(** a service built without a project state *)
Definition stateless : Accounts :=
  {| gateway := emulator empty_chain; state := None |}.

End Fixture.

(** ** The rest of the accounts service

    [Get], [NodeTotalStake] and [StakingInfo].  The staking queries only
    execute scripts: their state is the list of scripts executed so far. *)

(** [cadence.Value] and [interface{}], as the staking queries look at
    them: by dynamic type. *)
Inductive CadenceValue :=
| CString (s : string)
| CUFix64 (n : N)
| CAddress (a : Address)
| COther (text : string).

(** [flow.ChainID] is a string type. *)
Definition ChainID := string.

Record ScriptCall := {
  sc_script : string;
  sc_arguments : list CadenceValue
}.

(** [ExecuteScript], the one method of [gateway.Gateway] the staking queries
    call; as for the other methods, the answer may depend on the calls made
    before. *)
Record ScriptGateway := {
  gw_ExecuteScript :
    list ScriptCall → string → list CadenceValue → Error + CadenceValue
}.

(** A failed type assertion [v.(T)]; [None] is the nil interface. *)
Inductive Conversion :=
| NotString (v : option CadenceValue)
| NotUFix64 (v : option CadenceValue).

Inductive Reply (A : Type) :=
| Returned (a : A)
| Failed (e : Error)
| Panicked (c : Conversion).
Arguments Returned {A} a.
Arguments Failed {A} e.
Arguments Panicked {A} c.

Definition Query (A : Type) : Type := list ScriptCall → Reply A * list ScriptCall.

Definition query_bind {A B} (m : Query A) (k : A → Query B) : Query B :=
  λ cs, match m cs with
        | (Returned a, cs') => k a cs'
        | (Failed e, cs') => (Failed e, cs')
        | (Panicked c, cs') => (Panicked c, cs')
        end.

#[export] Instance Query_ret : MRet Query := λ A a cs, (Returned a, cs).
#[export] Instance Query_bind : MBind Query := λ A B k m, query_bind m k.

Definition query_fail {A} (e : Error) : Query A := λ cs, (Failed e, cs).
Definition query_panic {A} (c : Conversion) : Query A := λ cs, (Panicked c, cs).

(** [fmt.Errorf] with no [%w]: an error that is its text. *)
Definition Errorf (text : string) : Error := ErrExternal text.

(** [v, err := f(...); if err != nil { return ..., fmt.Errorf(text, err.Error()) }] *)
Definition or_errorf {A} (text : string) (r : Error + A) : Query A :=
  match r with
  | inl e => query_fail (Errorf (text +:+ message e))
  | inr a => mret a
  end.

(** One script execution: answered from the scripts executed so far, then
    recorded; a failure comes back as [fmt.Errorf(text, err.Error())]. *)
Definition ExecuteScript (g : ScriptGateway) (text : string) (script : string)
    (arguments : list CadenceValue) : Query CadenceValue :=
  λ cs, let cs' := (cs ++ [{| sc_script := script;
                               sc_arguments := arguments |}])%list in
        match gw_ExecuteScript g cs script arguments with
        | inl e => (Failed (Errorf (text +:+ message e)), cs')
        | inr v => (Returned v, cs')
        end.

(** The [util] package, the script templates of the core contracts and
    [flowkit.NewStakingInfoFromValue]; [range_order] is the order in which a
    [range] over a map visits the given keys. *)
Class StakingLibraries := {
  flow_Emulator : ChainID;
  GetAddressNetwork : Address → Error + ChainID;
  Environment : Type;
  EnvFromNetwork : ChainID → Environment;
  GenerateCollectionGetAllNodeInfoScript : Environment → string;
  GenerateCollectionGetAllDelegatorInfoScript : Environment → string;
  GenerateGetTotalCommitmentBalanceScript : Environment → string;
  NewStakingInfoFromValue :
    CadenceValue → Error + list (gmap string CadenceValue);
  range_order : list string → list string;
  range_order_permutation : ∀ keys, range_order keys ≡ₚ keys
}.

Section Rest.
Context {L : Libraries} {F : Flowkit} {K : StakingLibraries}.

(** [Get] *)
Definition Get (a : Accounts) (address : Address) : M FlowAccount :=
  GetAccount a address.

(** [nodeIDToString]: [value.(cadence.String).ToGoValue().(string)] *)
Definition nodeIDToString (value : CadenceValue) : Query string :=
  match value with
  | CString s => mret s
  | _ => query_panic (NotString (Some value))
  end.

(** [NodeTotalStake] *)
Definition NodeTotalStake (g : ScriptGateway) (nodeId : string) (chain : ChainID)
  : Query CadenceValue :=
  if decide (chain = flow_Emulator)
  then query_fail (Errorf "emulator chain not supported")
  else
    let env := EnvFromNetwork chain in
    let stakingInfoScript := GenerateGetTotalCommitmentBalanceScript env in
    ExecuteScript g "error getting total stake for node: " stakingInfoScript
      [CString nodeId].

(** [StakingInfo], first loop: the set of node ids of the staking infos, as
    the keys of a map whose values are still nil. *)
Fixpoint StakingInfo_nodes (stakingInfos : list (gmap string CadenceValue))
    (nodeStakes : gmap string (option CadenceValue))
  : Query (gmap string (option CadenceValue)) :=
  match stakingInfos with
  | [] => mret nodeStakes
  | stakingInfo :: rest =>
      match stakingInfo !! "id" with
      | Some nodeID =>
          key ← nodeIDToString nodeID;
          StakingInfo_nodes rest (<[key := None]> nodeStakes)
      | None => StakingInfo_nodes rest nodeStakes
      end
  end.

(** Second loop: for each node id, in the order of the [range], the total
    stake of the node. *)
Fixpoint StakingInfo_stakes (g : ScriptGateway) (totalCommitmentScript : string)
    (nodeIDs : list string) (nodeStakes : gmap string (option CadenceValue))
  : Query (gmap string (option CadenceValue)) :=
  match nodeIDs with
  | [] => mret nodeStakes
  | nodeID :: rest =>
      stake ← ExecuteScript g "error getting total stake for node: "
                totalCommitmentScript [CString nodeID];
      StakingInfo_stakes g totalCommitmentScript rest
        (<[nodeID := Some stake]> nodeStakes)
  end.

(** Third loop: each staking info with an id gets the total stake of its
    node, which has to be a [cadence.UFix64]. *)
Fixpoint StakingInfo_totals (stakingInfos : list (gmap string CadenceValue))
    (nodeStakes : gmap string (option CadenceValue))
  : Query (list (gmap string CadenceValue)) :=
  match stakingInfos with
  | [] => mret []
  | stakingInfo :: rest =>
      match stakingInfo !! "id" with
      | Some nodeID =>
          key ← nodeIDToString nodeID;
          match default None (nodeStakes !! key) with
          | Some (CUFix64 n) =>
              rest' ← StakingInfo_totals rest nodeStakes;
              mret (<["nodeTotalStake" := CUFix64 n]> stakingInfo :: rest')
          | other => query_panic (NotUFix64 other)
          end
      | None =>
          rest' ← StakingInfo_totals rest nodeStakes;
          mret (stakingInfo :: rest')
      end
  end.

(** [StakingInfo] *)
Definition StakingInfo (g : ScriptGateway) (address : Address)
  : Query (list (gmap string CadenceValue) * list (gmap string CadenceValue)) :=
  let cadenceAddress := [CAddress address] in
  match GetAddressNetwork address with
  | inl _ =>
      query_fail
        (Errorf "failed to determine network from address, check the address and network")
  | inr chain =>
      if decide (chain = flow_Emulator)
      then query_fail (Errorf "emulator chain not supported")
      else
        let env := EnvFromNetwork chain in
        let stakingInfoScript := GenerateCollectionGetAllNodeInfoScript env in
        let delegationInfoScript :=
          GenerateCollectionGetAllDelegatorInfoScript env in
        stakingValue ← ExecuteScript g "error getting staking info: "
                         stakingInfoScript cadenceAddress;
        delegationValue ← ExecuteScript g "error getting delegation info: "
                            delegationInfoScript cadenceAddress;
        (* get staking infos and delegation infos *)
        stakingInfos ← or_errorf "error parsing staking info: "
                         (NewStakingInfoFromValue stakingValue);
        delegationInfos ← or_errorf "error parsing delegation info: "
                            (NewStakingInfoFromValue delegationValue);
        (* get a set of node ids from all staking infos *)
        nodeStakes ← StakingInfo_nodes stakingInfos ∅;
        let totalCommitmentScript :=
          GenerateGetTotalCommitmentBalanceScript env in
        (* foreach node id, get the node total stake *)
        nodeStakes ← StakingInfo_stakes g totalCommitmentScript
                       (range_order (map_to_list nodeStakes).*1) nodeStakes;
        (* foreach staking info, add the node total stake *)
        stakingInfos ← StakingInfo_totals stakingInfos nodeStakes;
        mret (stakingInfos, delegationInfos)
  end.

End Rest.

(** ** More statement vocabulary *)

(** A computation that hands no transaction to the gateway. *)
Definition submits_nothing {A} (m : M A) : Prop :=
  ∀ w r w', m w = (r, w') → submitted (calls w') = submitted (calls w).

(** A computation that calls no gateway. *)
Definition calls_nothing {A} (m : M A) : Prop :=
  ∀ w r w', m w = (r, w') → calls w' = calls w.

(** Between [w] and [w'] nothing happened to the heap but, at most, a change
    of the code of the script at [l]. *)
Definition only_code_of (l : nat) (w w' : World) : Prop :=
  length (heap w') = length (heap w)
  ∧ (∀ l', l' ≠ l → heap w' !! l' = heap w !! l')
  ∧ (∀ s, heap w !! l = Some s →
          ∃ code, heap w' !! l = Some (Script_SetCode s code)).

(** A computation that, on the heap, changes at most the code of the script
    at [l]. *)
Definition touches_only (l : nat) {A} (m : M A) : Prop :=
  ∀ w r w', m w = (r, w') → only_code_of l w w'.

(** The scripts [StakingInfo] executes for a list of node ids. *)
Definition stake_calls (script : string) (nodeIDs : list string)
  : list ScriptCall :=
  (λ nodeID, {| sc_script := script; sc_arguments := [CString nodeID] |})
    <$> nodeIDs.

(** The two scripts [StakingInfo] executes first, for an address of
    [chain]. *)
Definition info_calls {K : StakingLibraries} (chain : ChainID)
    (address : Address) : list ScriptCall :=
  let env := EnvFromNetwork chain in
  [{| sc_script := GenerateCollectionGetAllNodeInfoScript env;
      sc_arguments := [CAddress address] |};
   {| sc_script := GenerateCollectionGetAllDelegatorInfoScript env;
      sc_arguments := [CAddress address] |}].

(** ** More cases to run

    Gateways that fail where the emulator does not, projects with other
    files, and a network with two staked nodes. *)

Module Cases.
Import Sample.

(** the emulator behind an access node that refuses every transaction *)
Definition refusing (genesis : Chain) : Gateway := {|
  gw_GetAccount := gw_GetAccount (emulator genesis);
  gw_GetLatestBlock := gw_GetLatestBlock (emulator genesis);
  gw_SendSignedTransaction := λ _ _, inl (ErrExternal "connection refused");
  gw_GetTransactionResult := gw_GetTransactionResult (emulator genesis)
|}.

(** the emulator, every transaction being sealed with an execution error *)
Definition reverting (genesis : Chain) : Gateway := {|
  gw_GetAccount := gw_GetAccount (emulator genesis);
  gw_GetLatestBlock := gw_GetLatestBlock (emulator genesis);
  gw_SendSignedTransaction := gw_SendSignedTransaction (emulator genesis);
  gw_GetTransactionResult := λ _ _ _,
    inr {| tr_Error := Some (ErrExternal "execution reverted");
           tr_Events := [] |}
|}.

(** the emulator, the sealed results carrying no event *)
Definition eventless (genesis : Chain) : Gateway := {|
  gw_GetAccount := gw_GetAccount (emulator genesis);
  gw_GetLatestBlock := gw_GetLatestBlock (emulator genesis);
  gw_SendSignedTransaction := gw_SendSignedTransaction (emulator genesis);
  gw_GetTransactionResult := λ _ _ _,
    inr {| tr_Error := None; tr_Events := [] |}
|}.

(** a project that deploys [A] only *)
Definition projectA : State := {|
  DeploymentContractsByNetwork := λ _, inr [Fixture.contractA];
  AliasesForNetwork := λ _, [];
  ReadFile := λ _, inl (ErrExternal "no such file")
|}.

(** a project with one file to read *)
Definition files : State := {|
  DeploymentContractsByNetwork := λ _, inr [];
  AliasesForNetwork := λ _, [];
  ReadFile := λ path,
    if decide (path = "./hello.cdc") then inr "pub contract Hello {}"
    else inl (ErrExternal "no such file")
|}.

Definition service_of (g : Gateway) (st : State) : Accounts :=
  {| gateway := g; state := Some st |}.

(** a contract without imports, alone on the heap *)
Definition scriptHello : Script :=
  {| s_code := "pub contract Hello {}"; s_args := [];
     s_location := "./hello.cdc" |}.

Definition worldHello : World := {| heap := [scriptHello]; calls := [] |}.

(** the transaction that removes [C] from the account of [alice], as the
    builder hands it over *)
Definition removalC : Transaction :=
  {| tx_op := OpRemoveContract "C"; tx_signer := Fixture.alice;
     tx_payer := 1%N; tx_reference := None; tx_proposer := None;
     tx_signed := false |}.

(** *** Staking

    Address 1 is an address of the emulator, address 2 one of the test
    network.  A staking value is a text with one line per info: the line is
    the node id, an empty line is an info without id, a line that starts
    with [#] an info whose id is not a string. *)

Definition info_of (line : string) : gmap string CadenceValue :=
  match line with
  | EmptyString => {[ "role" := CString "delegator" ]}
  | String "#" _ => {[ "id" := COther line ]}
  | _ => {[ "id" := CString line; "role" := CString "node" ]}
  end.

#[export] Instance staking : StakingLibraries := {|
  flow_Emulator := "flow-emulator";
  GetAddressNetwork := λ address,
    if decide (address = 1%N) then inr "flow-emulator"
    else if decide (address = 2%N) then inr "flow-testnet"
    else inl (ErrExternal "address not valid for any known chain");
  Environment := ChainID;
  EnvFromNetwork := λ chain, chain;
  GenerateCollectionGetAllNodeInfoScript := λ env, "nodes of " +:+ env;
  GenerateCollectionGetAllDelegatorInfoScript := λ env, "delegators of " +:+ env;
  GenerateGetTotalCommitmentBalanceScript := λ env, "commitment of " +:+ env;
  NewStakingInfoFromValue := λ v,
    match v with
    | COther text => inr (info_of <$> lines text)
    | _ => inl (ErrExternal "staking info is not an array")
    end;
  range_order := reverse;
  range_order_permutation := reverse_Permutation
|}.

(** the answers of a network on which the account runs the nodes given by
    [nodes], one line each, and delegates to none *)
Definition network (nodes : string) : ScriptGateway := {|
  gw_ExecuteScript := λ _ script arguments,
    if String.prefix "nodes of " script then inr (COther nodes)
    else if String.prefix "delegators of " script then inr (COther EmptyString)
    else match arguments with
         | [CString nodeID] =>
             if decide (nodeID = "n1") then inr (CUFix64 100)
             else if decide (nodeID = "n2") then inr (CUFix64 250)
             else inl (ErrExternal "unknown node")
         | _ => inl (ErrExternal "wrong arguments")
         end
|}.

(** the node [n1] twice, the node [n2] once, and an info without id *)
Definition three_infos : string :=
  "n1" +:+ Fixture.nl +:+ "n2" +:+ Fixture.nl +:+ Fixture.nl +:+ "n1".

(** an access node that cannot be reached *)
Definition offline : ScriptGateway := {|
  gw_ExecuteScript := λ _ _ _, inl (ErrExternal "connection refused")
|}.

(** the infos of [three_infos] with the totals of their nodes *)
Definition with_total (n : N) (info : gmap string CadenceValue)
  : gmap string CadenceValue :=
  <["nodeTotalStake" := CUFix64 n]> info.

Definition three_totals : list (gmap string CadenceValue) :=
  [with_total 100 (info_of "n1"); with_total 250 (info_of "n2");
   info_of EmptyString; with_total 100 (info_of "n1")].

(** [n1] and an info whose id is not a string *)
Definition bad_infos : string := "n1" +:+ Fixture.nl +:+ "#7".

End Cases.

(** * Properties *)

(** ** The monad *)

Lemma bind_Ok {A B} (m : M A) (k : A → M B) w a w' :
  m w = (Ok a, w') → (m ≫= k) w = k a w'.
Proof. intros E. unfold mbind, M_bind, bind. by rewrite E. Qed.

Lemma bind_bind_Ok {A B C} (m : M A) (k1 : A → M B) (k2 : B → M C) w a w' :
  m w = (Ok a, w') → ((m ≫= k1) ≫= k2) w = (k1 a ≫= k2) w'.
Proof. intros E. unfold mbind, M_bind, bind. by rewrite E. Qed.

Lemma bind_Panic {A B} (m : M A) (k : A → M B) w f w' :
  m w = (Panic f, w') → (m ≫= k) w = (Panic f, w').
Proof. intros E. unfold mbind, M_bind, bind. by rewrite E. Qed.

Lemma load_Some l w s : heap w !! l = Some s → load l w = (Ok s, w).
Proof. intros E. unfold load. by rewrite E. Qed.

Lemma store_Some l w s s' :
  heap w !! l = Some s →
  store l s' w = (Ok tt, {| heap := <[l := s']> (heap w); calls := calls w |}).
Proof. intros E. unfold store. by rewrite E. Qed.

Lemma set_code_same w l s : heap w !! l = Some s → set_code w l s (s_code s) = w.
Proof.
  intros E. unfold set_code. destruct w as [h cs]; simpl in *.
  f_equal. apply list_insert_id. rewrite E. by destruct s.
Qed.

Lemma set_code_lookup w l s c :
  heap w !! l = Some s → heap (set_code w l s c) !! l = Some (Script_SetCode s c).
Proof.
  intros E. simpl. apply list_lookup_insert_eq. by eapply lookup_lt_Some.
Qed.

Lemma set_code_twice w l s c1 c2 :
  set_code (set_code w l s c1) l (Script_SetCode s c1) c2 = set_code w l s c2.
Proof. unfold set_code; simpl. f_equal. apply list_insert_insert_eq. Qed.

Lemma gateway_call_inr {A} c (answer : list Call → Error + A) w a :
  answer (calls w) = inr a → gateway_call c answer w = (Ok a, called w c).
Proof. intros E. unfold gateway_call. by rewrite E. Qed.

(** ** imports.go *)

Section ProjectFacts.
Context {L : Libraries} {F : Flowkit}.

Lemma Program_Imports_run p w s :
  heap w !! p_script p = Some s →
  Program_Imports p w = (Ok (cadence_imports (s_code s)), w).
Proof. intros E. unfold Program_Imports. by rewrite (bind_Ok _ _ _ _ _ (load_Some _ _ _ E)). Qed.

Lemma Program_Location_run p w s :
  heap w !! p_script p = Some s →
  Program_Location p w = (Ok (s_location s), w).
Proof. intros E. unfold Program_Location. by rewrite (bind_Ok _ _ _ _ _ (load_Some _ _ _ E)). Qed.

Lemma Program_Code_run p w s :
  heap w !! p_script p = Some s →
  Program_Code p w = (Ok (s_code s), w).
Proof. intros E. unfold Program_Code. by rewrite (bind_Ok _ _ _ _ _ (load_Some _ _ _ E)). Qed.

Lemma Program_ReplaceImport_run p w s from to :
  heap w !! p_script p = Some s →
  Program_ReplaceImport p from to w
  = (Ok p, set_code w (p_script p) s (rewrite_import (s_code s) from to)).
Proof.
  intros E. unfold Program_ReplaceImport.
  rewrite (bind_Ok _ _ _ _ _ (load_Some _ _ _ E)).
  by rewrite (bind_Ok _ _ _ _ _ (store_Some _ _ _ _ E)).
Qed.

(** One turn of the loop of [Replace]: the key is the cleaned join of the
    program's directory and the import; an absent key ends the loop, and a
    present one rewrites the import in the script before the next turn. *)
Lemma Replace_range_turn table p imp rest w s :
  heap w !! p_script p = Some s →
  Replace_range table p (imp :: rest) w
  = match table !! path_Clean (path_Join (path_Dir (s_location s)) imp) with
    | None => (Err (ErrUnresolvedImport imp), w)
    | Some target =>
        Replace_range table p rest
          (set_code w (p_script p) s (rewrite_import (s_code s) imp target))
    end.
Proof.
  intros E. cbn [Replace_range].
  rewrite (bind_Ok _ _ _ _ _ (Program_Location_run _ _ _ E)).
  unfold absolutePath.
  destruct (table !! _) as [target|]; [|done].
  by rewrite (bind_Ok _ _ _ _ _ (Program_ReplaceImport_run _ _ _ _ _ E)).
Qed.

Lemma importLocation_eq programLocation imp :
  importLocation programLocation imp
  = path_Clean (path_Join (path_Dir programLocation) imp).
Proof. reflexivity. Qed.

Lemma rewritten_cons table programLocation code imp rest :
  rewritten table programLocation code (imp :: rest)
  = rewritten table programLocation
      match table !! importLocation programLocation imp with
      | Some target => rewrite_import code imp target
      | None => code
      end rest.
Proof. reflexivity. Qed.

(** The loop over imports that all have a target. *)
Lemma Replace_range_resolved table p imports : ∀ w s,
  heap w !! p_script p = Some s →
  Forall (λ imp, is_Some (table !! importLocation (s_location s) imp)) imports →
  Replace_range table p imports w
  = (Ok tt, set_code w (p_script p) s
              (rewritten table (s_location s) (s_code s) imports)).
Proof.
  induction imports as [|imp rest IH]; intros w s E Hall.
  - simpl. by rewrite set_code_same.
  - apply Forall_cons in Hall as [[target Ht] Hrest].
    rewrite (Replace_range_turn _ _ _ _ _ _ E).
    rewrite (importLocation_eq _ _) in Ht. rewrite Ht.
    rewrite <- (importLocation_eq _ _) in Ht.
    rewrite (IH _ _ (set_code_lookup _ _ _ _ E) Hrest).
    rewrite set_code_twice. by rewrite rewritten_cons, Ht.
Qed.

(** The loop up to the first import without a target. *)
Lemma Replace_range_unresolved table p pre imp post : ∀ w s,
  heap w !! p_script p = Some s →
  Forall (λ x, is_Some (table !! importLocation (s_location s) x)) pre →
  table !! importLocation (s_location s) imp = None →
  Replace_range table p (pre ++ imp :: post) w
  = (Err (ErrUnresolvedImport imp),
     set_code w (p_script p) s (rewritten table (s_location s) (s_code s) pre)).
Proof.
  induction pre as [|x pre IH]; intros w s E Hall Hnone.
  - simpl app. rewrite (Replace_range_turn _ _ _ _ _ _ E).
    rewrite (importLocation_eq _ _) in Hnone. rewrite Hnone.
    simpl. by rewrite set_code_same.
  - apply Forall_cons in Hall as [[target Ht] Hrest].
    simpl app. rewrite (Replace_range_turn _ _ _ _ _ _ E).
    rewrite (importLocation_eq _ _) in Ht. rewrite Ht.
    rewrite <- (importLocation_eq _ _) in Ht.
    rewrite (IH _ _ (set_code_lookup _ _ _ _ E) Hrest Hnone).
    rewrite set_code_twice. by rewrite rewritten_cons, Ht.
Qed.

End ProjectFacts.

Section ReplaceFacts.
Context {L : Libraries} {F : Flowkit}.

(** A map filled by a loop of insertions holds, under a key, the value of
    the last element inserted under it. *)
Lemma foldl_insert_lookup {A} (key value : A → string) (l : list A)
    (m : gmap string string) (k : string) :
  foldl (λ m x, <[key x := value x]> m) m l !! k
  = match last (filter (λ x, key x = k) l) with
    | Some x => Some (value x)
    | None => m !! k
    end.
Proof.
  induction l as [|x l IH] using rev_ind; [done|].
  rewrite foldl_snoc, filter_app, last_app, filter_cons, filter_nil.
  destruct (decide (key x = k)) as [->|Hne]; simpl.
  - by rewrite lookup_insert_eq.
  - by rewrite lookup_insert_ne.
Qed.

Lemma getContractsLocations_lookup i k :
  getContractsLocations i !! k
  = match last (filter (λ al, path_Clean al.1 = k) (aliases i)) with
    | Some al => Some (Address_String (HexToAddress al.2))
    | None =>
        match last (filter (λ c, path_Clean (c_location c) = k) (contracts i)) with
        | Some c => Some (Address_String (AccountAddress c))
        | None => None
        end
    end.
Proof.
  unfold getContractsLocations.
  rewrite (foldl_insert_lookup (λ al, path_Clean al.1)
             (λ al, Address_String (HexToAddress al.2))).
  rewrite (foldl_insert_lookup (λ c, path_Clean (c_location c))
             (λ c, Address_String (AccountAddress c))).
  reflexivity.
Qed.

Lemma getContractsLocations_spec_table i :
  getContractsLocations i = spec_table i.
Proof.
  unfold getContractsLocations, spec_table.
  by rewrite foldl_app, !foldl_fmap.
Qed.

(** A list with an element that satisfies [P] splits at the first one. *)
Lemma Exists_first {A} (P : A → Prop) `{∀ x, Decision (P x)} (l : list A) :
  Exists P l →
  ∃ (pre : list A) x post,
    l = (pre ++ x :: post)%list ∧ Forall (λ y, ¬ P y) pre ∧ P x.
Proof.
  induction 1 as [x l Hx|x l _ IH].
  - by exists [], x, l.
  - destruct (decide (P x)) as [Hx|Hx].
    + by exists [], x, l.
    + destruct IH as (pre & y & post & -> & Hpre & Hy).
      exists (x :: pre), y, post. by repeat split; [constructor|].
Qed.

Lemma Replace_run i program w s :
  heap w !! p_script program = Some s →
  Replace i program w
  = match Replace_range (getContractsLocations i) program
            (cadence_imports (s_code s)) w with
    | (Ok _, w') => (Ok program, w')
    | (Err e, w') => (Err e, w')
    | (Panic f, w') => (Panic f, w')
    end.
Proof.
  intros E. unfold Replace.
  rewrite (bind_Ok _ _ _ _ _ (Program_Imports_run _ _ _ E)).
  unfold mbind, M_bind, bind. by destruct (Replace_range _ _ _ _) as [[]].
Qed.



(** C6: [Replace] looks an import up under the cleaned join of the
    directory of the program's location and the import path.  The table it
    consults is the one obtained by inserting one entry per contract
    (cleaned location, address string) and then one entry per alias
    (cleaned location, string of the address read from the alias's hex
    form): a key holds the value of the last alias that cleans to it, and
    that of the last such contract when no alias does.

    The first part is [Replace] itself on a program: without imports it
    hands the program back; otherwise what it does is decided by the entry
    of that table under that key for the first import, an import without
    entry being refused at once, and it goes on with the other imports in
    the same way, which is the second part. *)
Theorem Replace_key_and_table (i : ImportReplacer) :
  (∀ program w s,
     heap w !! p_script program = Some s →
     Replace i program w
     = match cadence_imports (s_code s) with
       | [] => (Ok program, w)
       | imp :: rest =>
           match getContractsLocations i
                   !! path_Clean (path_Join (path_Dir (s_location s)) imp) with
           | None => (Err (ErrUnresolvedImport imp), w)
           | Some target =>
               match Replace_range (getContractsLocations i) program rest
                       (set_code w (p_script program) s
                          (rewrite_import (s_code s) imp target)) with
               | (Ok _, w') => (Ok program, w')
               | (Err e, w') => (Err e, w')
               | (Panic f, w') => (Panic f, w')
               end
           end
       end)
  ∧ (∀ program imp rest w s,
     heap w !! p_script program = Some s →
     Replace_range (getContractsLocations i) program (imp :: rest) w
     = match getContractsLocations i
               !! path_Clean (path_Join (path_Dir (s_location s)) imp) with
       | None => (Err (ErrUnresolvedImport imp), w)
       | Some target =>
           Replace_range (getContractsLocations i) program rest
             (set_code w (p_script program) s
                (rewrite_import (s_code s) imp target))
       end)
  ∧ getContractsLocations i = spec_table i
  ∧ ∀ k,
      getContractsLocations i !! k
      = match last (filter (λ al, path_Clean al.1 = k) (aliases i)) with
        | Some al => Some (Address_String (HexToAddress al.2))
        | None =>
            match last (filter (λ c, path_Clean (c_location c) = k)
                               (contracts i)) with
            | Some c => Some (Address_String (AccountAddress c))
            | None => None
            end
        end.
Proof.
  split; [|split; [|split]].
  - intros program w s E. rewrite (Replace_run _ _ _ _ E).
    destruct (cadence_imports (s_code s)) as [|imp rest]; [done|].
    rewrite (Replace_range_turn _ _ _ _ _ _ E).
    by destruct (getContractsLocations i !! _).
  - intros. by apply Replace_range_turn.
  - apply getContractsLocations_spec_table.
  - apply getContractsLocations_lookup.
Qed.

(** C1, as the code has it: when some import of the program has no entry in
    the table, [Replace] returns the unresolved-import error that names the
    first such import, and no program.  The imports listed before it have
    been rewritten in the program's script by then; that import and the
    ones after it have not. *)
Theorem Replace_unresolved_import (i : ImportReplacer) (program : Program)
    (w : World) (s : Script) :
  let table := getContractsLocations i in
  heap w !! p_script program = Some s →
  Exists (λ imp, table !! importLocation (s_location s) imp = None)
         (cadence_imports (s_code s)) →
  ∃ (pre : list string) imp post,
    cadence_imports (s_code s) = (pre ++ imp :: post)%list
    ∧ Forall (λ x, is_Some (table !! importLocation (s_location s) x)) pre
    ∧ table !! importLocation (s_location s) imp = None
    ∧ Replace i program w
      = (Err (ErrUnresolvedImport imp),
         set_code w (p_script program) s
           (rewritten table (s_location s) (s_code s) pre))
    ∧ message (ErrUnresolvedImport imp)
      = "import " +:+ imp +:+ " could not be resolved from the configuration".
Proof.
  intros table E Hex.
  apply Exists_first in Hex as (pre & imp & post & Hsplit & Hpre & Himp);
    [|solve_decision].
  exists pre, imp, post.
  assert (Forall (λ x, is_Some (table !! importLocation (s_location s) x)) pre)
    as Hpre'.
  { eapply Forall_impl; [exact Hpre|]. intros x Hx. cbv beta in Hx.
    destruct (table !! importLocation (s_location s) x); [by eexists|done]. }
  repeat split; try done.
  rewrite (Replace_run _ _ _ _ E), Hsplit.
  by rewrite (Replace_range_unresolved _ _ _ _ _ _ _ E Hpre' Himp).
Qed.


End ReplaceFacts.

(** ** The sample front end keeps the contract of [ReplaceImport] *)



















(** ** imports.go on the fixture *)

(** On the fixture: [A] comes from the project, [B] from the alias that
    cleans to the same key as the project's entry, and an import without an
    entry stops the loop.  [Replace] on [C] with that alias points the
    import of [B] at the alias's address; with a configuration that knows
    [A] only it refuses the import of [B]. *)
Lemma Replace_key_and_table_witness :
  getContractsLocations (L:=Sample.libraries) Fixture.aliased !! "contractA.cdc"
  = Some "0000000000000001"
  ∧ getContractsLocations (L:=Sample.libraries) Fixture.aliased !! "contractB.cdc"
    = Some "000000000000000b"
  ∧ Replace_range (L:=Sample.libraries) (F:=Sample.flowkit)
      (getContractsLocations (L:=Sample.libraries) Fixture.onlyA)
      Fixture.programC ["./contractB.cdc"] Fixture.world
    = (Err (ErrUnresolvedImport "./contractB.cdc"), Fixture.world)
  ∧ Replace (L:=Sample.libraries) (F:=Sample.flowkit)
      Fixture.aliased Fixture.programC Fixture.world
    = (Ok Fixture.programC,
       set_code Fixture.world 0 Fixture.scriptC
         ("import A from 0x0000000000000001" +:+ Fixture.nl +:+
          "import B from 0x000000000000000b" +:+ Fixture.nl +:+
          "pub contract C {}"))
  ∧ Replace (L:=Sample.libraries) (F:=Sample.flowkit)
      Fixture.onlyA Fixture.programC Fixture.world
    = (Err (ErrUnresolvedImport "./contractB.cdc"),
       set_code Fixture.world 0 Fixture.scriptC Fixture.partlyC).
Proof.
  destruct (Replace_key_and_table (L:=Sample.libraries) (F:=Sample.flowkit)
              Fixture.aliased) as (Hreplace & _ & _ & Hlookup).
  destruct (Replace_key_and_table (L:=Sample.libraries) (F:=Sample.flowkit)
              Fixture.onlyA) as (Hreplace' & Hturn & _ & _).
  split; [|split; [|split; [|split]]].
  - rewrite Hlookup. reflexivity.
  - rewrite Hlookup. reflexivity.
  - rewrite (Hturn Fixture.programC "./contractB.cdc" [] Fixture.world
               Fixture.scriptC eq_refl).
    reflexivity.
  - rewrite (Hreplace Fixture.programC Fixture.world Fixture.scriptC eq_refl).
    vm_compute. reflexivity.
  - rewrite (Hreplace' Fixture.programC Fixture.world Fixture.scriptC eq_refl).
    vm_compute. reflexivity.
Defined.

(** C1 as stated fails: [C] imports [A], which the configuration knows, and
    then [B], which it does not.  [Replace] returns the error for [B], and
    the script of [C] has the import of [A] rewritten already. *)
Lemma Replace_partial_substitution :
  ∃ w',
    Replace (L:=Sample.libraries) (F:=Sample.flowkit)
      Fixture.onlyA Fixture.programC Fixture.world
    = (Err (ErrUnresolvedImport "./contractB.cdc"), w')
    ∧ heap w' !! 0 = Some (Script_SetCode Fixture.scriptC Fixture.partlyC)
    ∧ heap w' !! 0 ≠ heap Fixture.world !! 0.
Proof.
  eexists. split; [vm_compute; reflexivity|]. split; [reflexivity|].
  vm_compute. discriminate.
Qed.

(** On the fixture, with a configuration that knows [A] only. *)
Lemma Replace_unresolved_import_witness :
  heap Fixture.world !! p_script Fixture.programC = Some Fixture.scriptC
  ∧ ∃ imp w',
      Replace (L:=Sample.libraries) (F:=Sample.flowkit)
        Fixture.onlyA Fixture.programC Fixture.world
      = (Err (ErrUnresolvedImport imp), w').
Proof.
  split; [reflexivity|].
  destruct (Replace_unresolved_import (L:=Sample.libraries) (F:=Sample.flowkit)
              Fixture.onlyA Fixture.programC Fixture.world Fixture.scriptC
              eq_refl)
    as (pre & imp & post & Hsplit & _ & _ & Hrun & _).
  - apply Exists_exists. exists "./contractB.cdc". split.
    + apply list_elem_of_In. vm_compute. tauto.
    + vm_compute. reflexivity.
  - exists imp. eexists. exact Hrun.
Defined.


(** ** The accounts service *)

Lemma bind_Ok_inv {A B} (m : M A) (k : A → M B) w b w' :
  (m ≫= k) w = (Ok b, w') →
  ∃ a w1, m w = (Ok a, w1) ∧ k a w1 = (Ok b, w').
Proof.
  unfold mbind, M_bind, bind. destruct (m w) as [[a|e|f] w1]; [|done..].
  intros E. by exists a, w1.
Qed.

Lemma gateway_call_world {A} c (answer : list Call → Error + A) w r w' :
  gateway_call c answer w = (r, w') → w' = called w c.
Proof.
  unfold gateway_call. destruct (answer (calls w)); by intros [= _ <-].
Qed.

Lemma submitted_app cs1 cs2 :
  submitted (cs1 ++ cs2) = (submitted cs1 ++ submitted cs2)%list.
Proof. apply omap_app. Qed.

(** *** Computations that do not panic *)

Lemma safe_ret {A} (a : A) : safe (ret a).
Proof. intros w f w'. unfold ret. congruence. Qed.

Lemma safe_mret {A} (a : A) : safe (mret a : M A).
Proof. apply safe_ret. Qed.

Lemma safe_throw {A} e : safe (throw e : M A).
Proof. intros w f w'. unfold throw. congruence. Qed.

Lemma safe_bind {A B} (m : M A) (k : A → M B) :
  safe m → (∀ a, safe (k a)) → safe (m ≫= k).
Proof.
  intros Hm Hk w f w'. unfold mbind, M_bind, bind.
  destruct (m w) as [[a|e|f'] w1] eqn:E; [apply Hk|congruence|].
  by apply Hm in E.
Qed.

Lemma safe_lift {A} (r : Error + A) : safe (lift r).
Proof. destruct r; [apply safe_throw|apply safe_ret]. Qed.

Lemma safe_check e : safe (check e).
Proof. destruct e; [apply safe_throw|apply safe_ret]. Qed.

Lemma safe_wrap_error {A} wrap (m : M A) : safe m → safe (wrap_error wrap m).
Proof.
  intros Hm w f w'. unfold wrap_error.
  destruct (m w) as [[a|e|f'] w1] eqn:E; try congruence. by apply Hm in E.
Qed.

Lemma safe_gateway_call {A} c (answer : list Call → Error + A) :
  safe (gateway_call c answer).
Proof.
  intros w f w'. unfold gateway_call. destruct (answer (calls w)); congruence.
Qed.

Lemma safe_index {A} (l : list A) i : i < length l → safe (index l i).
Proof.
  intros Hi. unfold index.
  destruct (lookup_lt_is_Some_2 l i Hi) as [x ->]. apply safe_ret.
Qed.

Section ServiceFacts.
Context {L : Libraries} {F : Flowkit}.

Lemma safe_prepareTransaction a tx account : safe (prepareTransaction a tx account).
Proof.
  unfold prepareTransaction, GetLatestBlock, GetAccount.
  repeat (apply safe_bind; [|intros ?]);
    eauto using @safe_gateway_call, @safe_lift, @safe_mret.
Qed.

(** [prepareTransaction] calls the gateway for the block and the proposer,
    submits nothing, leaves the heap alone and keeps the operation. *)
Lemma prepareTransaction_Ok a tx account w ptx w' :
  prepareTransaction a tx account w = (Ok ptx, w') →
  tx_op ptx = tx_op tx
  ∧ tx_signed ptx = true
  ∧ heap w' = heap w
  ∧ calls w' = (calls w ++ [CallGetLatestBlock;
                            CallGetAccount (acc_address account)])%list.
Proof.
  unfold prepareTransaction. intros E.
  apply bind_Ok_inv in E as (block & w1 & E1 & E).
  apply bind_Ok_inv in E as (proposer & w2 & E2 & E).
  apply bind_Ok_inv in E as (tx1 & w3 & E3 & E).
  apply bind_Ok_inv in E as (tx2 & w4 & E4 & E).
  unfold GetLatestBlock in E1. unfold GetAccount in E2.
  apply gateway_call_world in E1 as ->. apply gateway_call_world in E2 as ->.
  unfold Transaction_SetProposer in E3.
  destruct (fa_keys proposer !! _); [|done]. injection E3 as <- <-.
  unfold Transaction_Sign in E4. destruct (sign_error _); [done|].
  injection E4 as <- <-. injection E as <- <-.
  simpl. by rewrite <- app_assoc.
Qed.

(** The pipeline, run to the end, has submitted exactly the prepared
    transaction. *)
Lemma pipeline_Ok a tx account w ptx sent res w' :
  pipeline a tx account w = (Ok (ptx, sent, res), w') →
  ∃ w1,
    prepareTransaction a tx account w = (Ok ptx, w1)
    ∧ SendSignedTransaction a ptx w1 = (Ok sent, called w1 (CallSendSignedTransaction ptx))
    ∧ GetTransactionResult a (sent_ID sent) true
        (called w1 (CallSendSignedTransaction ptx)) = (Ok res, w')
    ∧ tx_op ptx = tx_op tx
    ∧ heap w' = heap w
    ∧ submitted (calls w') = (submitted (calls w) ++ [ptx])%list.
Proof.
  unfold pipeline. intros E.
  apply bind_Ok_inv in E as (ptx' & w1 & E1 & E).
  apply bind_Ok_inv in E as (sent' & w2 & E2 & E).
  apply bind_Ok_inv in E as (res' & w3 & E3 & E).
  injection E as <- <- <- <-.
  pose proof E2 as E2'. pose proof E3 as E3'.
  unfold SendSignedTransaction in E2'. unfold GetTransactionResult in E3'.
  apply gateway_call_world in E2' as ->. apply gateway_call_world in E3' as ->.
  destruct (prepareTransaction_Ok _ _ _ _ _ _ E1) as (Hop & _ & Hheap & Hcalls).
  exists w1. repeat split; try done.
  simpl. rewrite Hcalls, !submitted_app. simpl. by rewrite !app_nil_r.
Qed.

End ServiceFacts.

Section AddContractFacts.
Context {L : Libraries} {F : Flowkit}.

Lemma NewProgram_run contract w s :
  heap w !! contract = Some s →
  cadence_parse_error (s_code s) = None →
  NewProgram contract w = (Ok {| p_script := contract |}, w).
Proof.
  intros E Hparse. unfold NewProgram.
  rewrite (bind_Ok _ _ _ _ _ (load_Some _ _ _ E)). by rewrite Hparse.
Qed.

Lemma Program_HasImports_run p w s :
  heap w !! p_script p = Some s →
  Program_HasImports p w
  = (Ok (bool_decide (0 < length (cadence_imports (s_code s)))), w).
Proof.
  intros E. unfold Program_HasImports.
  by rewrite (bind_Ok _ _ _ _ _ (Program_Imports_run _ _ _ E)).
Qed.

Lemma Program_Name_run p w s name :
  heap w !! p_script p = Some s →
  cadence_contract_name (s_code s) = inr name →
  Program_Name p w = (Ok name, w).
Proof.
  intros E Hname. unfold Program_Name.
  rewrite (bind_Ok _ _ _ _ _ (load_Some _ _ _ E)). by rewrite Hname.
Qed.

(** The import step of [AddContract]: the script ends up with the resolved
    code, and the program handed on is the one built from the script. *)
Lemma AddContract_resolution a network contract s code' w :
  heap w !! contract = Some s →
  resolved_code a network s = Some code' →
  (if bool_decide (0 < length (cadence_imports (s_code s))) then
     st ← match state a with
          | Some st => ret st
          | None => panic NilDereference
          end;
     contracts ← lift (DeploymentContractsByNetwork st network);
     let importReplacer :=
       NewImportReplacer contracts (AliasesForNetwork st network) in
     Replace importReplacer {| p_script := contract |}
   else ret {| p_script := contract |}) w
  = (Ok {| p_script := contract |}, set_code w contract s code').
Proof.
  intros E Hres. unfold resolved_code in Hres.
  destruct (cadence_imports (s_code s)) as [|imp rest] eqn:Himports.
  - injection Hres as <-. simpl. by rewrite set_code_same.
  - rewrite bool_decide_eq_true_2 by (simpl; lia).
    destruct (state a) as [st|]; [|done].
    destruct (DeploymentContractsByNetwork st network) as [|cs] eqn:Hcs; [done|].
    case_bool_decide as Hall; [|done]. injection Hres as <-.
    unfold mbind, M_bind, bind, ret; simpl. rewrite Hcs; simpl.
    rewrite (Replace_run _ {| p_script := contract |} _ _ E), Himports.
    by rewrite (Replace_range_resolved _ {| p_script := contract |} _ _ _ E Hall).
Qed.

End AddContractFacts.

Section AddContractChecks.
Context {L : Libraries} {F : Flowkit}.

(** [AddContract] once the program is parsed and resolved, the name is
    extracted, the creation transaction is built and the account is
    fetched: the three cases of the existence check. *)
Lemma AddContract_checks a account contract network updateExisting
    w s code' name tx flowAccount :
  heap w !! contract = Some s →
  cadence_parse_error (s_code s) = None →
  resolved_code a network s = Some code' →
  cadence_contract_name code' = inr name →
  NewAddAccountContractTransaction account name code' (s_args s) = inr tx →
  gw_GetAccount (gateway a) (calls w) (acc_address account) = inr flowAccount →
  AddContract a account contract network updateExisting w
  = let w2 := called (set_code w contract s code')
                     (CallGetAccount (acc_address account)) in
    match fa_contracts flowAccount !! name with
    | Some existing =>
        if bool_decide (code' = existing) then (Err errUpdateNoDiff, w2)
        else if updateExisting then
          (utx ← lift (NewUpdateAccountContractTransaction account name code');
           AddContract_send a account utx updateExisting) w2
        else (Err (ErrContractExists name (acc_name account)), w2)
    | None => AddContract_send a account tx updateExisting w2
    end.
Proof.
  intros E Hparse Hres Hname Htx Hacc.
  pose proof (set_code_lookup _ _ _ code' E) as E1.
  set (w1 := set_code w contract s code') in *.
  assert (heap (called w1 (CallGetAccount (acc_address account))) !! contract
          = Some (Script_SetCode s code')) as E2 by done.
  unfold AddContract.
  rewrite (bind_Ok _ _ _ _ _ (NewProgram_run _ _ _ E Hparse)).
  rewrite (bind_Ok _ _ _ _ _ (Program_HasImports_run {| p_script := contract |} _ _ E)).
  rewrite (bind_Ok _ _ _ _ _ (AddContract_resolution _ _ _ _ _ _ E Hres)).
  fold w1.
  rewrite (bind_Ok _ _ _ _ _
             (Program_Name_run {| p_script := contract |} _ _ _ E1 Hname)).
  rewrite (bind_Ok _ _ _ _ _ (Program_Code_run {| p_script := contract |} _ _ E1)).
  rewrite (bind_Ok _ _ _ _ _ (load_Some _ _ _ E1)).
  cbn [s_code s_args Script_SetCode]. rewrite Htx.
  assert (GetAccount a (acc_address account) w1
          = (Ok flowAccount, called w1 (CallGetAccount (acc_address account))))
    as Hget by (by apply gateway_call_inr).
  rewrite (bind_Ok _ _ _ _ _ (eq_refl : lift (inr tx) w1 = (Ok tx, w1))).
  rewrite (bind_Ok _ _ _ _ _ Hget).
  rewrite (bind_Ok _ _ _ _ _ (Program_Code_run {| p_script := contract |} _ _ E2)).
  cbn [s_code Script_SetCode]. cbv zeta.
  destruct (fa_contracts flowAccount !! name) as [existing|] eqn:Hex.
  - rewrite (bool_decide_eq_true_2 (is_Some (Some existing))) by eauto.
    cbn [default andb].
    destruct (decide (code' = existing)) as [Heq|Hne].
    { by rewrite !(bool_decide_eq_true_2 (code' = existing)) by done. }
    rewrite !(bool_decide_eq_false_2 (code' = existing)) by done.
    destruct updateExisting; cbn [negb]; [|done].
    by rewrite (bind_bind_Ok _ _ _ _ _ _ (load_Some _ _ _ E2)).
  - rewrite (bool_decide_eq_false_2 (is_Some None)) by (by intros [? ?]).
    cbn [andb]. reflexivity.
Qed.

Lemma AddContract_send_Ok a account tx updateExisting w ptx sent res w' :
  pipeline a tx account w = (Ok (ptx, sent, res), w') →
  tr_Error res = None →
  AddContract_send a account tx updateExisting w
  = (Ok (sent_ID sent, updateExisting), w').
Proof.
  intros Hpipe Hok.
  apply pipeline_Ok in Hpipe as (w1 & Hprep & Hsend & Hwait & _).
  unfold AddContract_send.
  rewrite (bind_Ok _ _ _ _ _ Hprep).
  assert (wrap_error ErrSendDeployFailed (SendSignedTransaction a ptx) w1
          = (Ok sent, called w1 (CallSendSignedTransaction ptx))) as Hsend'
    by (unfold wrap_error; by rewrite Hsend).
  rewrite (bind_Ok _ _ _ _ _ Hsend'), (bind_Ok _ _ _ _ _ Hwait).
  by rewrite Hok.
Qed.

End AddContractChecks.

Section AddContractClaims.
Context {L : Libraries} {F : Flowkit}.

(** C4: when the account fetched for the existence check holds a contract
    of the extracted name whose bytes are the resolved program code,
    [AddContract] returns [errUpdateNoDiff], whatever [updateExisting] is;
    the only gateway call it made is that account fetch, so no transaction
    was submitted. *)
Theorem AddContract_no_diff (a : Accounts) (account : Account)
    (contract : nat) (network : string) (updateExisting : bool)
    (w : World) (s : Script) (code' name : string) (tx : Transaction)
    (flowAccount : FlowAccount) :
  heap w !! contract = Some s →
  cadence_parse_error (s_code s) = None →
  resolved_code a network s = Some code' →
  cadence_contract_name code' = inr name →
  NewAddAccountContractTransaction account name code' (s_args s) = inr tx →
  gw_GetAccount (gateway a) (calls w) (acc_address account) = inr flowAccount →
  fa_contracts flowAccount !! name = Some code' →
  ∃ w',
    AddContract a account contract network updateExisting w
    = (Err errUpdateNoDiff, w')
    ∧ calls w' = (calls w ++ [CallGetAccount (acc_address account)])%list
    ∧ submitted (calls w') = submitted (calls w).
Proof.
  intros E Hparse Hres Hname Htx Hacc Hsame.
  rewrite (AddContract_checks _ _ _ _ _ _ _ _ _ _ _ E Hparse Hres Hname Htx Hacc).
  cbv zeta. rewrite Hsame, bool_decide_eq_true_2 by done.
  eexists. split; [done|]. split; [done|].
  simpl. rewrite submitted_app. simpl. by rewrite app_nil_r.
Qed.

(** C2: when the account holds a contract of the extracted name with other
    bytes and [updateExisting] is true, [AddContract] builds an update
    transaction that carries the resolved program code (the script the
    caller passed is the one the program rewrote), submits that transaction
    and no other, and, the pipeline reporting no error, returns its
    identifier and [true]. *)
Theorem AddContract_update_existing (a : Accounts) (account : Account)
    (contract : nat) (network : string) (w : World) (s : Script)
    (code' name existing : string) (tx utx ptx : Transaction)
    (flowAccount : FlowAccount) (sent : SentTransaction)
    (res : TransactionResult) (w' : World) :
  heap w !! contract = Some s →
  cadence_parse_error (s_code s) = None →
  resolved_code a network s = Some code' →
  cadence_contract_name code' = inr name →
  NewAddAccountContractTransaction account name code' (s_args s) = inr tx →
  gw_GetAccount (gateway a) (calls w) (acc_address account) = inr flowAccount →
  fa_contracts flowAccount !! name = Some existing →
  existing ≠ code' →
  NewUpdateAccountContractTransaction account name code' = inr utx →
  pipeline a utx account
    (called (set_code w contract s code') (CallGetAccount (acc_address account)))
  = (Ok (ptx, sent, res), w') →
  tr_Error res = None →
  AddContract a account contract network true w = (Ok (sent_ID sent, true), w')
  ∧ tx_op ptx = OpUpdateContract name code'
  ∧ submitted (calls w') = (submitted (calls w) ++ [ptx])%list
  ∧ heap w' !! contract = Some (Script_SetCode s code').
Proof.
  intros E Hparse Hres Hname Htx Hacc Hex Hne Hutx Hpipe Hok.
  rewrite (AddContract_checks _ _ _ _ _ _ _ _ _ _ _ E Hparse Hres Hname Htx Hacc).
  cbv zeta. rewrite Hex, bool_decide_eq_false_2 by done.
  rewrite Hutx.
  rewrite (bind_Ok _ _ _ _ _ (eq_refl : lift (inr utx) _ = (Ok utx, _))).
  rewrite (AddContract_send_Ok _ _ _ _ _ _ _ _ _ Hpipe Hok).
  apply pipeline_Ok in Hpipe as (w1 & _ & _ & _ & Hop & Hheap & Hsub).
  split; [done|]. split.
  { rewrite Hop. unfold NewUpdateAccountContractTransaction, NewTransaction in Hutx.
    destruct (builder_error _ _); [done|]. by injection Hutx as <-. }
  split.
  - rewrite Hsub. simpl. rewrite submitted_app. simpl. by rewrite app_nil_r.
  - rewrite Hheap. simpl. by apply set_code_lookup.
Qed.

(** C10: with [updateExisting] true on an account that holds no contract of
    the extracted name, [AddContract] passes the existence checks, submits
    the creation transaction with the resolved program code and no other
    transaction, and, the pipeline reporting no error, returns normally. *)
Theorem AddContract_update_flag_creates (a : Accounts) (account : Account)
    (contract : nat) (network : string) (w : World) (s : Script)
    (code' name : string) (tx ptx : Transaction)
    (flowAccount : FlowAccount) (sent : SentTransaction)
    (res : TransactionResult) (w' : World) :
  heap w !! contract = Some s →
  cadence_parse_error (s_code s) = None →
  resolved_code a network s = Some code' →
  cadence_contract_name code' = inr name →
  NewAddAccountContractTransaction account name code' (s_args s) = inr tx →
  gw_GetAccount (gateway a) (calls w) (acc_address account) = inr flowAccount →
  fa_contracts flowAccount !! name = None →
  pipeline a tx account
    (called (set_code w contract s code') (CallGetAccount (acc_address account)))
  = (Ok (ptx, sent, res), w') →
  tr_Error res = None →
  AddContract a account contract network true w = (Ok (sent_ID sent, true), w')
  ∧ tx_op ptx = OpAddContract name code' (s_args s)
  ∧ submitted (calls w') = (submitted (calls w) ++ [ptx])%list.
Proof.
  intros E Hparse Hres Hname Htx Hacc Hnone Hpipe Hok.
  rewrite (AddContract_checks _ _ _ _ _ _ _ _ _ _ _ E Hparse Hres Hname Htx Hacc).
  cbv zeta. rewrite Hnone.
  rewrite (AddContract_send_Ok _ _ _ _ _ _ _ _ _ Hpipe Hok).
  apply pipeline_Ok in Hpipe as (w1 & _ & _ & _ & Hop & _ & Hsub).
  split; [done|]. split.
  { rewrite Hop. unfold NewAddAccountContractTransaction, NewTransaction in Htx.
    destruct (builder_error _ _); [done|]. by injection Htx as <-. }
  rewrite Hsub. simpl. rewrite submitted_app. simpl. by rewrite app_nil_r.
Qed.

(** Whenever [AddContract] returns normally, the boolean is the flag it was
    called with, whether the contract existed or not. *)
Lemma AddContract_returns_flag a account contract network updateExisting
    w id b w' :
  AddContract a account contract network updateExisting w = (Ok (id, b), w') →
  b = updateExisting.
Proof.
  unfold AddContract. intros E.
  do 9 (apply bind_Ok_inv in E as (? & ? & _ & E)).
  destruct (_ && _); [done|]. destruct (_ && _); [done|].
  do 4 (apply bind_Ok_inv in E as (? & ? & _ & E)).
  destruct (tr_Error _); [done|]. by injection E as _ <- _.
Qed.

End AddContractClaims.

(** ** AddContract on the fixture *)

(** Settle a closed equation or disequation by evaluating both sides. *)
Ltac evaluate := vm_compute; first [reflexivity | discriminate].

(** On a chain where [alice] holds the resolved [C] already. *)
Lemma AddContract_no_diff_witness :
  heap Fixture.world !! 0 = Some Fixture.scriptC
  ∧ ∃ w',
      AddContract (L:=Sample.libraries) (F:=Sample.flowkit)
        (Fixture.service Fixture.same_chain) Fixture.alice 0 "emulator" true
        Fixture.world
      = (Err errUpdateNoDiff, w')
      ∧ submitted (calls w') = [].
Proof.
  split; [reflexivity|].
  edestruct (AddContract_no_diff (L:=Sample.libraries) (F:=Sample.flowkit)
               (Fixture.service Fixture.same_chain) Fixture.alice 0 "emulator"
               true Fixture.world Fixture.scriptC Fixture.resolvedC "C")
    as (w' & Hrun & _ & Hsub);
    [evaluate..|].
  exists w'. split; [exact Hrun|exact Hsub].
Defined.

(** On a chain where [alice] holds an older [C]. *)
Lemma AddContract_update_existing_witness :
  heap Fixture.world !! 0 = Some Fixture.scriptC
  ∧ ∃ id ptx w',
      AddContract (L:=Sample.libraries) (F:=Sample.flowkit)
        (Fixture.service Fixture.old_chain) Fixture.alice 0 "emulator" true
        Fixture.world
      = (Ok (id, true), w')
      ∧ tx_op ptx = OpUpdateContract "C" Fixture.resolvedC
      ∧ submitted (calls w') = [ptx].
Proof.
  split; [reflexivity|].
  edestruct (AddContract_update_existing (L:=Sample.libraries)
               (F:=Sample.flowkit) (Fixture.service Fixture.old_chain)
               Fixture.alice 0 "emulator" Fixture.world Fixture.scriptC
               Fixture.resolvedC "C" "pub contract C { }")
    as (Hrun & Hop & Hsub & _);
    [evaluate..|].
  eexists _, _, _. split; [exact Hrun|]. split; [exact Hop|exact Hsub].
Defined.

(** On a chain where [alice] holds no contract. *)
Lemma AddContract_update_flag_creates_witness :
  heap Fixture.world !! 0 = Some Fixture.scriptC
  ∧ ∃ id ptx w',
      AddContract (L:=Sample.libraries) (F:=Sample.flowkit)
        (Fixture.service Fixture.empty_chain) Fixture.alice 0 "emulator" true
        Fixture.world
      = (Ok (id, true), w')
      ∧ tx_op ptx = OpAddContract "C" Fixture.resolvedC ["foo"]
      ∧ submitted (calls w') = [ptx].
Proof.
  split; [reflexivity|].
  edestruct (AddContract_update_flag_creates (L:=Sample.libraries)
               (F:=Sample.flowkit) (Fixture.service Fixture.empty_chain)
               Fixture.alice 0 "emulator" Fixture.world Fixture.scriptC
               Fixture.resolvedC "C")
    as (Hrun & Hop & Hsub);
    [evaluate..|].
  eexists _, _, _. split; [exact Hrun|]. split; [exact Hop|exact Hsub].
Defined.

(** C3 on the code: [alice] holds no contract and [AddContract] is called
    with [updateExisting] true.  The one transaction submitted adds the
    contract, and the boolean returned with its identifier is [true]. *)
Theorem AddContract_reports_flag :
  ∃ id ptx w',
    gw_GetAccount (gateway (Fixture.service Fixture.empty_chain)) [] 1%N
    = inr (Fixture.account_with ∅)
    ∧ AddContract (L:=Sample.libraries) (F:=Sample.flowkit)
        (Fixture.service Fixture.empty_chain) Fixture.alice 0 "emulator" true
        Fixture.world
      = (Ok (id, true), w')
    ∧ submitted (calls w') = [ptx]
    ∧ tx_op ptx = OpAddContract "C" Fixture.resolvedC ["foo"].
Proof.
  eexists _, _, _. split; [reflexivity|].
  split; [vm_compute; reflexivity|]. split; reflexivity.
Qed.

(** ** Create *)

Section CreateFacts.
Context {L : Libraries} {F : Flowkit}.

Lemma safe_Create_keys (keyWeights : list Z)
    (sigAlgo : list SignatureAlgorithm) (hashAlgo : list HashAlgorithm) :
  ∀ (pubKeys : list string) (i : nat) accKeys,
  (i + length pubKeys ≤ length sigAlgo)%nat →
  (i + length pubKeys ≤ length hashAlgo)%nat →
  safe (Create_keys pubKeys i keyWeights sigAlgo hashAlgo accKeys).
Proof.
  induction pubKeys as [|pubKey rest IH]; intros i accKeys Hs Hh.
  - apply safe_ret.
  - simpl in Hs, Hh. cbn [Create_keys].
    apply safe_bind; [apply safe_index; lia|intros sa].
    apply safe_bind; [apply safe_index; lia|intros ha].
    apply safe_bind; [apply safe_wrap_error, safe_check|intros _].
    apply IH; lia.
Qed.

Lemma safe_Create_contracts st : ∀ contractArgs contracts,
  safe (Create_contracts st contractArgs contracts).
Proof.
  induction contractArgs as [|contract rest IH]; intros contracts.
  - apply safe_ret.
  - cbn [Create_contracts].
    destruct (strings_SplitN2 contract) as [|name [|path [|]]];
      try apply safe_throw.
    apply safe_bind; [apply safe_lift|intros ?]. apply IH.
Qed.

Lemma safe_Create a signer (pubKeys : list string) keyWeights
    (sigAlgo : list SignatureAlgorithm) (hashAlgo : list HashAlgorithm)
    contractArgs :
  (length pubKeys ≤ length sigAlgo)%nat →
  (length pubKeys ≤ length hashAlgo)%nat →
  safe (Create a signer pubKeys keyWeights sigAlgo hashAlgo contractArgs).
Proof.
  intros Hs Hh. unfold Create.
  destruct (state a) as [st|]; [|apply safe_throw].
  case_bool_decide; [apply safe_throw|].
  apply safe_bind; [by apply safe_Create_keys|intros accKeys].
  apply safe_bind; [apply safe_Create_contracts|intros contracts].
  apply safe_bind; [apply safe_lift|intros tx].
  apply safe_bind; [apply safe_prepareTransaction|intros ptx].
  apply safe_bind; [apply safe_wrap_error, safe_gateway_call|intros sent].
  apply safe_bind; [apply safe_gateway_call|intros result].
  destruct (tr_Error result); [apply safe_throw|].
  destruct (GetCreatedAddresses _); [apply safe_throw|apply safe_gateway_call].
Qed.

(** The keys the loop builds without explicit weights. *)
Lemma Create_keys_default_weight sigAlgo hashAlgo :
  ∀ pubKeys i accKeys w result w',
    Create_keys pubKeys i [] sigAlgo hashAlgo accKeys w = (Ok result, w') →
    ∃ new : list AccountKey,
      result = (accKeys ++ new)%list
      ∧ length new = length pubKeys
      ∧ Forall (λ k, Weight k = AccountKeyWeightThreshold) new.
Proof.
  induction pubKeys as [|pubKey rest IH]; intros i accKeys w result w' E.
  - injection E as <- <-. exists []. by rewrite app_nil_r.
  - cbn [Create_keys] in E.
    apply bind_Ok_inv in E as (sa & w1 & _ & E).
    apply bind_Ok_inv in E as (ha & w2 & _ & E).
    apply bind_Ok_inv in E as (? & w3 & _ & E).
    apply IH in E as (new & -> & Hlen & Hall).
    eexists (_ :: new). rewrite <- app_assoc. split; [done|].
    split; [simpl; by rewrite Hlen|]. by constructor.
Qed.

Lemma built_keys_cons pubKey rest i (keyWeights : list Z)
    (sigAlgo : list SignatureAlgorithm) (hashAlgo : list HashAlgorithm) :
  built_keys (pubKey :: rest) i keyWeights sigAlgo hashAlgo
  = {| PublicKey := pubKey;
       SigAlgo := default UnknownSignatureAlgorithm (sigAlgo !! i);
       HashAlgo := default UnknownHashAlgorithm (hashAlgo !! i);
       Weight := default AccountKeyWeightThreshold (keyWeights !! i) |}
    :: built_keys rest (S i) keyWeights sigAlgo hashAlgo.
Proof.
  unfold built_keys. rewrite imap_cons, Nat.add_0_r. f_equal.
  apply imap_ext. intros j x _. simpl. by rewrite <- !Nat.add_succ_comm.
Qed.

(** The weight the loop gives the key at index [i]. *)
Lemma Create_weight (keyWeights : list Z) (i : nat) :
  (if bool_decide (i < length keyWeights) then keyWeights !!! i
   else AccountKeyWeightThreshold)
  = default AccountKeyWeightThreshold (keyWeights !! i).
Proof.
  case_bool_decide as Hi.
  - by rewrite (list_lookup_lookup_total_lt keyWeights i Hi).
  - by rewrite lookup_ge_None_2 by lia.
Qed.

(** One turn of the loop with both indices in range and a valid key. *)
Lemma Create_keys_turn pubKey rest i (keyWeights : list Z)
    (sigAlgo : list SignatureAlgorithm) (hashAlgo : list HashAlgorithm)
    accKeys w sa ha :
  sigAlgo !! i = Some sa → hashAlgo !! i = Some ha →
  let accKey := {| PublicKey := pubKey; SigAlgo := sa; HashAlgo := ha;
                   Weight := default AccountKeyWeightThreshold
                               (keyWeights !! i) |} in
  AccountKey_Validate accKey = None →
  Create_keys (pubKey :: rest) i keyWeights sigAlgo hashAlgo accKeys w
  = Create_keys rest (S i) keyWeights sigAlgo hashAlgo (accKeys ++ [accKey]) w.
Proof.
  intros Hsa Hha accKey Hvalid. cbn [Create_keys]. unfold index.
  rewrite Hsa, Hha, Create_weight.
  unfold mbind, M_bind, bind, ret, wrap_error, check.
  fold accKey. by rewrite Hvalid.
Qed.

(** The keys the loop builds when every index is in range and every key is
    valid: one per public key, the weight given or else the threshold. *)
Lemma Create_keys_built (keyWeights : list Z)
    (sigAlgo : list SignatureAlgorithm) (hashAlgo : list HashAlgorithm) :
  ∀ (pubKeys : list string) (i : nat) accKeys w,
    (i + length pubKeys ≤ length sigAlgo)%nat →
    (i + length pubKeys ≤ length hashAlgo)%nat →
    Forall (λ k, AccountKey_Validate k = None)
           (built_keys pubKeys i keyWeights sigAlgo hashAlgo) →
    Create_keys pubKeys i keyWeights sigAlgo hashAlgo accKeys w
    = (Ok (accKeys ++ built_keys pubKeys i keyWeights sigAlgo hashAlgo)%list, w).
Proof.
  induction pubKeys as [|pubKey rest IH]; intros i accKeys w Hs Hh Hvalid.
  - simpl. by rewrite app_nil_r.
  - simpl in Hs, Hh. rewrite built_keys_cons in Hvalid |- *.
    apply Forall_cons in Hvalid as [Hkey Hrest].
    destruct (lookup_lt_is_Some_2 sigAlgo i ltac:(lia)) as [sa Hsa].
    destruct (lookup_lt_is_Some_2 hashAlgo i ltac:(lia)) as [ha Hha].
    rewrite Hsa, Hha in Hkey |- *. cbn [default from_option id] in Hkey |- *.
    rewrite (Create_keys_turn _ _ _ _ _ _ _ _ _ _ Hsa Hha Hkey).
    rewrite (IH (S i) _ w) by (done || lia).
    by rewrite <- app_assoc.
Qed.

(** The loop on lists of algorithms that do not cover the public keys: at
    the first index [n] that one of them lacks, the keys before it being
    valid, it panics. *)
Lemma Create_keys_short (keyWeights : list Z)
    (sigAlgo : list SignatureAlgorithm) (hashAlgo : list HashAlgorithm) :
  let n := length sigAlgo `min` length hashAlgo in
  ∀ (pubKeys : list string) (i : nat) accKeys w,
    (i ≤ n)%nat → (n < i + length pubKeys)%nat →
    Forall (λ k, AccountKey_Validate k = None)
           (built_keys (take (n - i) pubKeys) i keyWeights sigAlgo hashAlgo) →
    Create_keys pubKeys i keyWeights sigAlgo hashAlgo accKeys w
    = (Panic (IndexOutOfRange n n), w).
Proof.
  intros n. induction pubKeys as [|pubKey rest IH];
    intros i accKeys w Hi Hn Hvalid; simpl in Hn; [lia|].
  destruct (decide (i = n)) as [->|Hne].
  - cbn [Create_keys]. unfold index.
    destruct (sigAlgo !! n) as [sa|] eqn:Hsa.
    + apply lookup_lt_Some in Hsa.
      assert (length hashAlgo = n) as Hlen by lia.
      rewrite (lookup_ge_None_2 hashAlgo n) by lia. by rewrite Hlen.
    + apply lookup_ge_None in Hsa.
      assert (length sigAlgo = n) as Hlen by lia. by rewrite Hlen.
  - replace (n - i) with (S (n - S i)) in Hvalid by lia.
    cbn [take] in Hvalid. rewrite built_keys_cons in Hvalid.
    apply Forall_cons in Hvalid as [Hkey Hrest].
    destruct (lookup_lt_is_Some_2 sigAlgo i ltac:(lia)) as [sa Hsa].
    destruct (lookup_lt_is_Some_2 hashAlgo i ltac:(lia)) as [ha Hha].
    rewrite Hsa, Hha in Hkey. cbn [default from_option id] in Hkey.
    rewrite (Create_keys_turn _ _ _ _ _ _ _ _ _ _ Hsa Hha Hkey).
    apply IH; [lia|lia|done].
Qed.

(** C9: [Create] reads [sigAlgo] and [hashAlgo] at the index of each public
    key and checks neither length.  It never panics when both lists are at
    least as long as [pubKeys].  When one of them is shorter, the call
    having passed the two guards and the keys before the missing index being
    valid, it panics with an index out of range at the first index [n] that
    a list lacks, before any gateway call, instead of returning an error. *)
Theorem Create_index_out_of_range :
  (∀ a signer (pubKeys : list string) keyWeights
     (sigAlgo : list SignatureAlgorithm) (hashAlgo : list HashAlgorithm)
     contractArgs,
     (length pubKeys ≤ length sigAlgo)%nat →
     (length pubKeys ≤ length hashAlgo)%nat →
     safe (Create a signer pubKeys keyWeights sigAlgo hashAlgo contractArgs))
  ∧ (∀ a st signer (pubKeys : list string) (keyWeights : list Z)
       (sigAlgo : list SignatureAlgorithm) (hashAlgo : list HashAlgorithm)
       contractArgs w,
       let n := length sigAlgo `min` length hashAlgo in
       state a = Some st →
       (keyWeights = [] ∨ length pubKeys = length keyWeights) →
       (n < length pubKeys)%nat →
       Forall (λ k, AccountKey_Validate k = None)
              (built_keys (take n pubKeys) 0 keyWeights sigAlgo hashAlgo) →
       Create a signer pubKeys keyWeights sigAlgo hashAlgo contractArgs w
       = (Panic (IndexOutOfRange n n), w)).
Proof.
  split; [intros; by apply safe_Create|].
  intros a st signer pubKeys keyWeights sigAlgo hashAlgo contractArgs w n
    Hst Hweights Hshort Hvalid.
  unfold Create. rewrite Hst.
  rewrite bool_decide_eq_false_2
    by (destruct Hweights as [->|]; simpl; lia).
  erewrite bind_Panic; [done|].
  apply Create_keys_short; [lia|done|by rewrite Nat.sub_0_r].
Qed.

End CreateFacts.

(** ** RemoveContract *)

Lemma maps_Keys_elem_of (m : gmap string string) (n : string) :
  n ∈ maps_Keys m ↔ is_Some (m !! n).
Proof.
  unfold maps_Keys. rewrite list_elem_of_fmap. split.
  - intros ([k v] & -> & Hin). apply elem_of_map_to_list in Hin. by eexists.
  - intros [v Hv]. exists (n, v). split; [done|]. by apply elem_of_map_to_list.
Qed.

Section RemoveContractFacts.
Context {L : Libraries} {F : Flowkit}.

(** C8: when the account fetched at the start holds no contract of the
    given name, [RemoveContract] fails with an error whose text lists the
    names of the contracts the account holds; the account fetch is the only
    gateway call, so no transaction is built or sent. *)
Theorem RemoveContract_missing (a : Accounts) (account : Account)
    (contractName : string) (w : World) (flowAcc : FlowAccount) :
  gw_GetAccount (gateway a) (calls w) (acc_address account) = inr flowAcc →
  fa_contracts flowAcc !! contractName = None →
  ∃ names w',
    RemoveContract a account contractName w
    = (Err (ErrRemoveMissing contractName names), w')
    ∧ NoDup names
    ∧ (∀ n, n ∈ names ↔ is_Some (fa_contracts flowAcc !! n))
    ∧ message (ErrRemoveMissing contractName names)
      = "can not remove a non-existing contract named '" +:+ contractName
        +:+ "'. Account only contains the contracts: "
        +:+ strings_Join names ", "
    ∧ calls w' = (calls w ++ [CallGetAccount (acc_address account)])%list
    ∧ submitted (calls w') = submitted (calls w).
Proof.
  intros Hacc Hnone.
  exists (maps_Keys (fa_contracts flowAcc)),
         (called w (CallGetAccount (acc_address account))).
  split; [|split; [|split; [|split; [|split]]]]; try done.
  - unfold RemoveContract.
    assert (GetAccount a (acc_address account) w
            = (Ok flowAcc, called w (CallGetAccount (acc_address account))))
      as Hget by (by apply gateway_call_inr).
    rewrite (bind_Ok _ _ _ _ _ Hget). cbv zeta.
    rewrite bool_decide_eq_false_2; [done|].
    rewrite maps_Keys_elem_of, Hnone. by intros [? ?].
  - apply NoDup_fst_map_to_list.
  - apply maps_Keys_elem_of.
  - simpl. rewrite submitted_app. simpl. by rewrite app_nil_r.
Qed.

End RemoveContractFacts.

(** ** Create and RemoveContract on the fixture *)

(** C7 as stated fails on a service without a project state: one weight for
    two keys, and the error is [config.ErrDoesNotExist], not the
    count-mismatch error. *)
Lemma Create_without_state :
  Create (L:=Sample.libraries) (F:=Sample.flowkit)
    Fixture.stateless Fixture.alice ["k1"; "k2"] [1000%Z]
    [ECDSA_P256; ECDSA_P256] [SHA3_256; SHA3_256] [] Fixture.world
  = (Err ErrDoesNotExist, Fixture.world)
  ∧ ErrDoesNotExist ≠ ErrKeysWeightsMismatch 2 1.
Proof. split; [reflexivity|discriminate]. Qed.

(** Two keys with one signature algorithm, then with two. *)
Lemma Create_index_out_of_range_witness :
  Create (L:=Sample.libraries) (F:=Sample.flowkit)
    (Fixture.service Fixture.empty_chain) Fixture.alice ["k1"; "k2"] []
    [ECDSA_P256] [SHA3_256; SHA3_256] [] Fixture.world
  = (Panic (IndexOutOfRange 1 1), Fixture.world)
  ∧ ∀ f w',
      Create (L:=Sample.libraries) (F:=Sample.flowkit)
        (Fixture.service Fixture.empty_chain) Fixture.alice ["k1"; "k2"] []
        [ECDSA_P256; ECDSA_P256] [SHA3_256; SHA3_256] [] Fixture.world
      ≠ (Panic f, w').
Proof.
  destruct (Create_index_out_of_range (L:=Sample.libraries) (F:=Sample.flowkit))
    as [Hsafe Hpanic].
  split.
  - apply (Hpanic _ Fixture.project Fixture.alice ["k1"; "k2"] []
                  [ECDSA_P256] [SHA3_256; SHA3_256]);
      [reflexivity|by left|simpl; lia|].
    repeat constructor.
  - intros f w'. apply Hsafe; simpl; lia.
Defined.

(** Removing a contract [alice] does not hold. *)
Lemma RemoveContract_missing_witness :
  gw_GetAccount (gateway (Fixture.service Fixture.old_chain)) [] 1%N
  = inr (Fixture.account_with {[ "C" := "pub contract C { }" ]})
  ∧ ∃ names w',
      RemoveContract (F:=Sample.flowkit)
        (Fixture.service Fixture.old_chain) Fixture.alice "Nope" Fixture.world
      = (Err (ErrRemoveMissing "Nope" names), w')
      ∧ submitted (calls w') = [].
Proof.
  split; [reflexivity|].
  edestruct (RemoveContract_missing (F:=Sample.flowkit)
               (Fixture.service Fixture.old_chain) Fixture.alice "Nope"
               Fixture.world)
    as (names & w' & Hrun & _ & _ & _ & _ & Hsub); [evaluate..|].
  exists names, w'. split; [exact Hrun|exact Hsub].
Defined.

(** The same runs, evaluated: what is returned and what reaches the chain. *)

Example Replace_both_resolved :
  Replace (L:=Sample.libraries) (F:=Sample.flowkit)
    Fixture.both Fixture.programC Fixture.world
  = (Ok Fixture.programC,
     set_code Fixture.world 0 Fixture.scriptC Fixture.resolvedC)
  ∧ Sample.imports_of Fixture.resolvedC = [].
Proof. split; evaluate. Qed.

Example RemoveContract_lists_contracts :
  (RemoveContract (F:=Sample.flowkit)
     (Fixture.service Fixture.old_chain) Fixture.alice "Nope" Fixture.world).1
  = Err (ErrRemoveMissing "Nope" ["C"])
  ∧ message (ErrRemoveMissing "Nope" ["C"])
    = "can not remove a non-existing contract named 'Nope'. Account only contains the contracts: C".
Proof. split; evaluate. Qed.

Example AddContract_update_stores_code :
  ∃ r w' acc,
    AddContract (L:=Sample.libraries) (F:=Sample.flowkit)
      (Fixture.service Fixture.old_chain) Fixture.alice 0 "emulator" true
      Fixture.world = (Ok r, w')
    ∧ gw_GetAccount (gateway (Fixture.service Fixture.old_chain)) (calls w') 1%N
      = inr acc
    ∧ fa_contracts acc !! "C" = Some Fixture.resolvedC.
Proof. eexists _, _, _. repeat split; evaluate. Qed.

Example Create_default_weights :
  ∃ acc w' tx keys,
    Create (L:=Sample.libraries) (F:=Sample.flowkit)
      (Fixture.service Fixture.empty_chain) Fixture.alice ["k1"; "k2"] []
      [ECDSA_P256; ECDSA_P256] [SHA3_256; SHA3_256] [] Fixture.world
    = (Ok acc, w')
    ∧ submitted (calls w') = [tx]
    ∧ tx_op tx = OpCreateAccount keys []
    ∧ Weight <$> keys = [AccountKeyWeightThreshold; AccountKeyWeightThreshold].
Proof. eexists _, _, _, _. repeat split; evaluate. Qed.

(** * More of imports.go and of the accounts service *)

(** ** The monad, outcome by outcome *)

Lemma bind_inv {A B} (m : M A) (k : A → M B) w r w' :
  (m ≫= k) w = (r, w') →
  ∃ r1 w1, m w = (r1, w1)
    ∧ match r1 with
      | Ok a => k a w1 = (r, w')
      | Err e => r = Err e ∧ w' = w1
      | Panic f => r = Panic f ∧ w' = w1
      end.
Proof.
  unfold mbind, M_bind, bind. destruct (m w) as [[a|e|f] w1]; intros E;
    eexists _, _; (split; [done|]); by (done || injection E as <- <-).
Qed.

Lemma load_inv l w r w' :
  load l w = (r, w') → w' = w.
Proof. unfold load. destruct (heap w !! l); by intros [= _ <-]. Qed.

Lemma lift_inv {A} (x : Error + A) w r w' : lift x w = (r, w') → w' = w.
Proof. destruct x; by intros [= _ <-]. Qed.

Lemma wrap_error_inv {A} wrap (m : M A) w r w' :
  wrap_error wrap m w = (r, w') →
  ∃ r1, m w = (r1, w')
    ∧ r = match r1 with Err e => Err (wrap e) | _ => r1 end.
Proof.
  unfold wrap_error. destruct (m w) as [[a|e|f] w1]; intros [= <- <-]; eauto.
Qed.

(** ** imports.go: when it succeeds, what it leaves alone, and the order of
    the configuration *)

Section ReplaceMore.
Context {L : Libraries} {F : Flowkit}.

Lemma last_filter_is_Some {A} (P : A → Prop) `{∀ x, Decision (P x)} (l : list A) :
  is_Some (last (filter P l)) ↔ ∃ x, x ∈ l ∧ P x.
Proof.
  split.
  - intros [x Hx]. apply last_Some in Hx as [l' Hl'].
    assert (x ∈ filter P l) as Hin by (rewrite Hl'; set_solver).
    apply list_elem_of_filter in Hin as [HP Hin]. by exists x.
  - intros (x & Hx & HP). destruct (last (filter P l)) eqn:E; [done|].
    apply last_None in E.
    assert (x ∈ filter P l) as Hin by (by apply list_elem_of_filter).
    rewrite E in Hin. by apply elem_of_nil in Hin.
Qed.

(** The table has an entry for a key exactly when a contract or an alias of
    the configuration cleans to it. *)
Lemma getContractsLocations_is_Some i k :
  is_Some (getContractsLocations i !! k)
  ↔ (∃ c, c ∈ contracts i ∧ path_Clean (c_location c) = k)
    ∨ (∃ al, al ∈ aliases i ∧ path_Clean al.1 = k).
Proof.
  rewrite getContractsLocations_lookup.
  pose proof (last_filter_is_Some (λ c, path_Clean (c_location c) = k)
                (contracts i)) as Hc.
  pose proof (last_filter_is_Some (λ al : string * string, path_Clean al.1 = k)
                (aliases i)) as Ha.
  destruct (last (filter _ (aliases i))) as [al|] eqn:Ea in |- *.
  - split; [intros _; right; apply Ha|by eauto].
    eapply mk_is_Some. exact Ea.
  - destruct (last (filter _ (contracts i))) as [c|] eqn:Ec in |- *.
    + split; [intros _; left; apply Hc|by eauto].
      eapply mk_is_Some. exact Ec.
    + split; [by intros [??]|].
      intros [Hex|Hex]; [apply Hc in Hex|apply Ha in Hex];
        destruct Hex as [x Hx].
      * assert (Some x = None) as Hn by (rewrite <- Hx; exact Ec). done.
      * assert (Some x = None) as Hn by (rewrite <- Hx; exact Ea). done.
Qed.

(** The loop of [Replace], whatever comes of it, sets the code of the
    program's script and does nothing else. *)
Lemma Replace_range_world table p imports : ∀ w s r w',
  heap w !! p_script p = Some s →
  Replace_range table p imports w = (r, w') →
  ∃ code, w' = set_code w (p_script p) s code.
Proof.
  induction imports as [|imp rest IH]; intros w s r w' E Hrun.
  - injection Hrun as _ <-. exists (s_code s). by rewrite set_code_same.
  - rewrite (Replace_range_turn _ _ _ _ _ _ E) in Hrun.
    destruct (table !! _) as [target|].
    + apply (IH _ _ _ _ (set_code_lookup _ _ _ _ E)) in Hrun as [code ->].
      exists code. by rewrite set_code_twice.
    + injection Hrun as _ <-. exists (s_code s). by rewrite set_code_same.
Qed.

(** X1: [Replace] hands back a program exactly when every import of the
    program, looked up under its key, is the cleaned location of a contract
    or of an alias of the configuration; the program it hands back is the one
    it was given. *)
Theorem Replace_succeeds_iff (i : ImportReplacer) (program : Program)
    (w : World) (s : Script) :
  heap w !! p_script program = Some s →
  ((∃ p' w', Replace i program w = (Ok p', w'))
   ↔ Forall (λ imp,
               (∃ c, c ∈ contracts i
                     ∧ path_Clean (c_location c)
                       = importLocation (s_location s) imp)
               ∨ (∃ al, al ∈ aliases i
                        ∧ path_Clean al.1 = importLocation (s_location s) imp))
            (cadence_imports (s_code s)))
  ∧ ∀ p' w', Replace i program w = (Ok p', w') → p' = program.
Proof.
  intros E.
  assert (Forall (λ imp, is_Some (getContractsLocations i
                                    !! importLocation (s_location s) imp))
                 (cadence_imports (s_code s))
          ↔ Forall (λ imp,
               (∃ c, c ∈ contracts i
                     ∧ path_Clean (c_location c)
                       = importLocation (s_location s) imp)
               ∨ (∃ al, al ∈ aliases i
                        ∧ path_Clean al.1 = importLocation (s_location s) imp))
            (cadence_imports (s_code s))) as <-.
  { apply Forall_proper; [|done]. intros imp.
    apply getContractsLocations_is_Some. }
  rewrite (Replace_run _ _ _ _ E). split; [split|].
  - intros (p' & w' & Hrun).
    destruct (decide (Forall (λ imp, is_Some (getContractsLocations i
                                    !! importLocation (s_location s) imp))
                 (cadence_imports (s_code s)))) as [|Hno]; [done|].
    exfalso. apply not_Forall_Exists in Hno; [|solve_decision].
    apply Exists_first in Hno as (pre & imp & post & Hsplit & Hpre & Himp);
      [|solve_decision].
    assert (Forall (λ x, is_Some (getContractsLocations i
                                    !! importLocation (s_location s) x)) pre)
      as Hpre'.
    { eapply Forall_impl; [exact Hpre|]. intros x Hx. simpl in Hx.
      by apply dec_stable. }
    assert (getContractsLocations i !! importLocation (s_location s) imp = None)
      as Hnone.
    { cbv beta in Himp.
      destruct (getContractsLocations i !! importLocation (s_location s) imp)
        as [t|] eqn:Et; [|done].
      exfalso. apply Himp. by exists t. }
    rewrite Hsplit in Hrun.
    by rewrite (Replace_range_unresolved _ _ _ _ _ _ _ E Hpre' Hnone) in Hrun.
  - intros Hall. rewrite (Replace_range_resolved _ _ _ _ _ E Hall). eauto.
  - intros p' w'. destruct (Replace_range _ _ _ _) as [[[]|?|?] ?]; congruence.
Qed.

(** X2: whatever [Replace] returns, it has called no gateway, the heap has as
    many scripts as before, every other script is as it was, and the
    program's script has its location and its arguments: only its code may
    have changed. *)
Theorem Replace_frame (i : ImportReplacer) (program : Program)
    (w : World) (r : Outcome Program) (w' : World) :
  Replace i program w = (r, w') →
  calls w' = calls w
  ∧ length (heap w') = length (heap w)
  ∧ (∀ l, l ≠ p_script program → heap w' !! l = heap w !! l)
  ∧ (∀ s, heap w !! p_script program = Some s →
          ∃ code, heap w' !! p_script program = Some (Script_SetCode s code)).
Proof.
  intros Hrun. destruct (heap w !! p_script program) as [s|] eqn:E.
  - rewrite (Replace_run _ _ _ _ E) in Hrun.
    destruct (Replace_range _ _ _ _) as [r1 w1] eqn:Hloop.
    apply (Replace_range_world _ _ _ _ _ _ _ E) in Hloop as [code ->].
    assert (w' = set_code w (p_script program) s code) as ->
      by (destruct r1; congruence).
    repeat split.
    + simpl. apply length_insert.
    + intros l Hl. simpl. by apply list_lookup_insert_ne.
    + intros s' [= <-]. exists code. by apply set_code_lookup.
  - unfold Replace, Program_Imports in Hrun.
    apply bind_inv in Hrun as (r1 & w1 & Hrun & Hrest).
    apply bind_inv in Hrun as (r2 & w2 & Hload & Hrun).
    unfold load in Hload. rewrite E in Hload. injection Hload as <- <-.
    destruct Hrun as [-> ->]. destruct Hrest as [-> ->].
    repeat split; done.
Qed.

(** A list whose images under [f] are distinct has at most one element with
    a given image, so which one comes last does not depend on the order. *)
Lemma last_filter_permutation {A} (f : A → string) (k : string) (l l' : list A) :
  NoDup (f <$> l) → l ≡ₚ l' →
  last (filter (λ x, f x = k) l) = last (filter (λ x, f x = k) l').
Proof.
  intros Hnd Hperm.
  assert (∀ l0 : list A, NoDup (f <$> l0) →
            (length (filter (λ x, f x = k) l0) ≤ 1)%nat) as Hshort.
  { induction l0 as [|x l0 IH]; [simpl; lia|].
    rewrite fmap_cons, NoDup_cons. intros [Hx Hl0].
    rewrite filter_cons. destruct (decide (f x = k)) as [<-|]; [|by apply IH].
    assert (filter (λ y, f y = f x) l0 = []) as ->; [|simpl; lia].
    destruct (filter (λ y, f y = f x) l0) as [|y ?] eqn:Ef; [done|].
    assert (y ∈ filter (λ y, f y = f x) l0) as Hin by (rewrite Ef; left).
    apply list_elem_of_filter in Hin as [Hy Hin]. exfalso. apply Hx.
    rewrite <- Hy. by apply list_elem_of_fmap_2. }
  pose proof (Hshort l Hnd) as H1.
  assert (NoDup (f <$> l')) as Hnd' by (by rewrite <- Hperm).
  pose proof (Hshort l' Hnd') as H2.
  assert (filter (λ x, f x = k) l ≡ₚ filter (λ x, f x = k) l') as Hf
    by (by rewrite Hperm).
  destruct (filter _ l) as [|x [|??]], (filter _ l') as [|y [|??]];
    simpl in *; try lia; try done.
  - by apply Permutation_nil_cons in Hf.
  - symmetry in Hf. by apply Permutation_nil_cons in Hf.
  - by apply Permutation_singleton_inj in Hf as ->.
Qed.

(** X3: the table does not depend on the order of the contracts nor on the order
    in which the alias map is ranged over, as long as no two contracts and no
    two aliases clean to the same location. *)
Theorem getContractsLocations_order (i i' : ImportReplacer) :
  contracts i ≡ₚ contracts i' →
  aliases i ≡ₚ aliases i' →
  NoDup ((λ c, path_Clean (c_location c)) <$> contracts i) →
  NoDup ((λ al : string * string, path_Clean al.1) <$> aliases i) →
  getContractsLocations i = getContractsLocations i'.
Proof.
  intros Hc Ha Hndc Hnda. apply map_eq. intros k.
  rewrite !getContractsLocations_lookup.
  match goal with
  | |- match ?X with _ => _ end = match ?Y with _ => _ end =>
      assert (X = Y) as ->
        by apply (last_filter_permutation
                    (λ al : string * string, path_Clean al.1) k _ _ Hnda Ha)
  end.
  destruct (last _) as [al|]; [done|].
  match goal with
  | |- match ?X with _ => _ end = match ?Y with _ => _ end =>
      assert (X = Y) as ->
        by apply (last_filter_permutation
                    (λ c, path_Clean (c_location c)) k _ _ Hndc Hc)
  end.
  done.
Qed.

End ReplaceMore.

(** ** imports.go on the fixture, once more *)

(** The configuration that knows [A] and [B] resolves both imports of [C]. *)
Lemma Replace_succeeds_iff_witness :
  heap Fixture.world !! p_script Fixture.programC = Some Fixture.scriptC
  ∧ (∃ p' w', Replace (L:=Sample.libraries) (F:=Sample.flowkit)
                Fixture.both Fixture.programC Fixture.world = (Ok p', w'))
  ∧ ∀ p' w', Replace (L:=Sample.libraries) (F:=Sample.flowkit)
               Fixture.both Fixture.programC Fixture.world = (Ok p', w') →
             p' = Fixture.programC.
Proof.
  split; [reflexivity|].
  destruct (Replace_succeeds_iff (L:=Sample.libraries) (F:=Sample.flowkit)
              Fixture.both Fixture.programC Fixture.world Fixture.scriptC
              eq_refl) as [Hiff Hsame].
  split; [|exact Hsame]. apply Hiff.
  change (cadence_imports (s_code Fixture.scriptC))
    with (Sample.imports_of Fixture.sourceC).
  replace (Sample.imports_of Fixture.sourceC)
    with ["./contractA.cdc"; "./contractB.cdc"] by evaluate.
  constructor; [|constructor; [|constructor]]; left.
  - exists Fixture.contractA. split; [left|evaluate].
  - exists Fixture.contractB. split; [right; left|evaluate].
Defined.

(** The configuration that knows [A] only: the run fails, and still no
    gateway was called and the script kept its location and arguments. *)
Lemma Replace_frame_witness :
  ∃ r w',
    Replace (L:=Sample.libraries) (F:=Sample.flowkit)
      Fixture.onlyA Fixture.programC Fixture.world = (r, w')
    ∧ calls w' = []
    ∧ length (heap w') = 1
    ∧ ∃ code, heap w' !! 0 = Some (Script_SetCode Fixture.scriptC code).
Proof.
  destruct (Replace (L:=Sample.libraries) (F:=Sample.flowkit)
              Fixture.onlyA Fixture.programC Fixture.world) as [r w'] eqn:E.
  exists r, w'. split; [reflexivity|].
  destruct (Replace_frame (L:=Sample.libraries) (F:=Sample.flowkit)
              Fixture.onlyA Fixture.programC Fixture.world r w' E)
    as (Hcalls & Hlen & _ & Hscript).
  split; [exact Hcalls|]. split; [exact Hlen|].
  apply (Hscript Fixture.scriptC). reflexivity.
Defined.

(** [A] and [B] listed in the other order give the same table. *)
Lemma getContractsLocations_order_witness :
  getContractsLocations (L:=Sample.libraries) Fixture.both
  = getContractsLocations (L:=Sample.libraries)
      (NewImportReplacer [Fixture.contractB; Fixture.contractA] []).
Proof.
  apply (getContractsLocations_order (L:=Sample.libraries) Fixture.both
           (NewImportReplacer [Fixture.contractB; Fixture.contractA] [])).
  - apply perm_swap.
  - reflexivity.
  - replace ((λ c, path_Clean (c_location c)) <$> contracts Fixture.both)
      with ["contractA.cdc"; "contractB.cdc"] by evaluate.
    apply NoDup_cons. split; [|apply NoDup_singleton].
    intros Hin. apply list_elem_of_singleton in Hin. discriminate.
  - constructor.
Defined.

(** ** What a step may do to the trace *)

Create HintDb trace.

Lemma calls_nothing_submits {A} (m : M A) : calls_nothing m → submits_nothing m.
Proof. intros Hm w r w' E. by rewrite (Hm _ _ _ E). Qed.

Lemma calls_nothing_ret {A} (a : A) : calls_nothing (ret a).
Proof. by intros w r w' [= _ <-]. Qed.

Lemma calls_nothing_mret {A} (a : A) : calls_nothing (mret a : M A).
Proof. apply calls_nothing_ret. Qed.

Lemma calls_nothing_throw {A} e : calls_nothing (throw e : M A).
Proof. by intros w r w' [= _ <-]. Qed.

Lemma calls_nothing_panic {A} f : calls_nothing (panic f : M A).
Proof. by intros w r w' [= _ <-]. Qed.

Lemma calls_nothing_lift {A} (x : Error + A) : calls_nothing (lift x).
Proof. intros w r w' E. by rewrite (lift_inv _ _ _ _ E). Qed.

Lemma calls_nothing_check e : calls_nothing (check e).
Proof. destruct e; [apply calls_nothing_throw|apply calls_nothing_ret]. Qed.

Lemma calls_nothing_load l : calls_nothing (load l).
Proof. intros w r w' E. by rewrite (load_inv _ _ _ _ E). Qed.

Lemma calls_nothing_store l s : calls_nothing (store l s).
Proof.
  intros w r w'. unfold store. destruct (heap w !! l); by intros [= _ <-].
Qed.

Lemma calls_nothing_index {A} (l : list A) i : calls_nothing (index l i).
Proof.
  unfold index. destruct (l !! i);
    [apply calls_nothing_ret|apply calls_nothing_panic].
Qed.

Lemma calls_nothing_bind {A B} (m : M A) (k : A → M B) :
  calls_nothing m → (∀ a, calls_nothing (k a)) → calls_nothing (m ≫= k).
Proof.
  intros Hm Hk w r w' E. apply bind_inv in E as (r1 & w1 & E1 & E).
  apply Hm in E1. destruct r1; [apply Hk in E|destruct E as [_ ->]..];
    congruence.
Qed.

Lemma calls_nothing_wrap_error {A} wrap (m : M A) :
  calls_nothing m → calls_nothing (wrap_error wrap m).
Proof.
  intros Hm w r w' E. apply wrap_error_inv in E as (r1 & E & _).
  by apply Hm in E.
Qed.

Lemma submits_nothing_bind {A B} (m : M A) (k : A → M B) :
  submits_nothing m → (∀ a, submits_nothing (k a)) → submits_nothing (m ≫= k).
Proof.
  intros Hm Hk w r w' E. apply bind_inv in E as (r1 & w1 & E1 & E).
  apply Hm in E1. destruct r1; [apply Hk in E|destruct E as [_ ->]..];
    congruence.
Qed.

Lemma submits_nothing_gateway_call {A} c (answer : list Call → Error + A) :
  (∀ tx, c ≠ CallSendSignedTransaction tx) →
  submits_nothing (gateway_call c answer).
Proof.
  intros Hc w r w' E. apply gateway_call_world in E as ->.
  simpl. rewrite submitted_app. destruct c; simpl; try apply app_nil_r.
  by destruct (Hc tx).
Qed.

#[export] Hint Resolve calls_nothing_ret calls_nothing_mret calls_nothing_throw
  calls_nothing_panic calls_nothing_lift calls_nothing_check calls_nothing_load
  calls_nothing_store calls_nothing_index calls_nothing_bind
  calls_nothing_wrap_error : trace.

Section TraceFacts.
Context {L : Libraries} {F : Flowkit}.

Lemma calls_nothing_NewProgram contract : calls_nothing (NewProgram contract).
Proof. unfold NewProgram. eauto 10 with trace. Qed.

Lemma calls_nothing_Program_Imports p : calls_nothing (Program_Imports p).
Proof. unfold Program_Imports. eauto 10 with trace. Qed.

Lemma calls_nothing_Program_HasImports p : calls_nothing (Program_HasImports p).
Proof.
  unfold Program_HasImports.
  eauto 10 using calls_nothing_Program_Imports with trace.
Qed.

Lemma calls_nothing_Program_Location p : calls_nothing (Program_Location p).
Proof. unfold Program_Location. eauto 10 with trace. Qed.

Lemma calls_nothing_Program_Code p : calls_nothing (Program_Code p).
Proof. unfold Program_Code. eauto 10 with trace. Qed.

Lemma calls_nothing_Program_Name p : calls_nothing (Program_Name p).
Proof. unfold Program_Name. eauto 10 with trace. Qed.

Lemma calls_nothing_Program_ReplaceImport p from to :
  calls_nothing (Program_ReplaceImport p from to).
Proof. unfold Program_ReplaceImport. eauto 10 with trace. Qed.

Lemma calls_nothing_Replace_range table p imports :
  calls_nothing (Replace_range table p imports).
Proof.
  induction imports as [|imp rest IH]; cbn [Replace_range];
    [apply calls_nothing_ret|].
  apply calls_nothing_bind; [apply calls_nothing_Program_Location|intros loc].
  cbv zeta. destruct (table !! _); [|apply calls_nothing_throw].
  apply calls_nothing_bind; [apply calls_nothing_Program_ReplaceImport|done].
Qed.

Lemma calls_nothing_Replace i p : calls_nothing (Replace i p).
Proof.
  unfold Replace.
  eauto 10 using calls_nothing_Program_Imports, calls_nothing_Replace_range
    with trace.
Qed.

Lemma submits_nothing_GetAccount a address : submits_nothing (GetAccount a address).
Proof. by apply submits_nothing_gateway_call. Qed.

Lemma submits_nothing_GetLatestBlock a : submits_nothing (GetLatestBlock a).
Proof. by apply submits_nothing_gateway_call. Qed.

Lemma submits_nothing_GetTransactionResult a id waitSeal :
  submits_nothing (GetTransactionResult a id waitSeal).
Proof. by apply submits_nothing_gateway_call. Qed.

(** [prepareTransaction], answer by answer of the gateway. *)
Lemma prepareTransaction_run a tx account w :
  prepareTransaction a tx account w
  = match gw_GetLatestBlock (gateway a) (calls w) with
    | inl e => (Err e, called w CallGetLatestBlock)
    | inr block =>
        let w2 := called (called w CallGetLatestBlock)
                         (CallGetAccount (acc_address account)) in
        match gw_GetAccount (gateway a) (calls w ++ [CallGetLatestBlock])
                (acc_address account) with
        | inl e => (Err e, w2)
        | inr proposer =>
            match Transaction_SetProposer
                    (Transaction_SetBlockReference tx block) proposer
                    (acc_key_index account) with
            | inl e => (Err e, w2)
            | inr tx1 =>
                match Transaction_Sign tx1 with
                | inl e => (Err e, w2)
                | inr tx2 => (Ok tx2, w2)
                end
            end
        end
    end.
Proof.
  unfold prepareTransaction, GetLatestBlock, GetAccount, mbind, M_bind, bind,
    gateway_call, called.
  destruct (gw_GetLatestBlock _ _) as [e|block]; [done|]. simpl.
  destruct (gw_GetAccount _ _ _) as [e|proposer]; [done|].
  destruct (Transaction_SetProposer _ _ _) as [e|tx1]; [done|]. simpl.
  by destruct (Transaction_Sign tx1) as [e|tx2].
Qed.

(** What [prepareTransaction] keeps of the transaction it is given. *)
Lemma prepareTransaction_kept a tx account w ptx w' :
  prepareTransaction a tx account w = (Ok ptx, w') →
  tx_op ptx = tx_op tx ∧ tx_signer ptx = tx_signer tx
  ∧ tx_payer ptx = tx_payer tx ∧ tx_signed ptx = true.
Proof.
  rewrite prepareTransaction_run.
  destruct (gw_GetLatestBlock _ _) as [e|block]; [done|]. cbv zeta.
  destruct (gw_GetAccount _ _ _) as [e|proposer]; [done|].
  unfold Transaction_SetProposer, Transaction_Sign.
  destruct (fa_keys proposer !! _) as [key|]; [|done].
  destruct (sign_error _); [done|]. by intros [= <- _].
Qed.

Lemma submits_nothing_prepareTransaction a tx account :
  submits_nothing (prepareTransaction a tx account).
Proof.
  unfold prepareTransaction.
  apply submits_nothing_bind; [apply submits_nothing_GetLatestBlock|intros ?].
  apply submits_nothing_bind; [apply submits_nothing_GetAccount|intros ?].
  apply calls_nothing_submits. eauto 10 with trace.
Qed.

(** What a builder makes of the signer and the operation. *)
Lemma NewTransaction_inr signer op tx :
  NewTransaction signer op = inr tx →
  tx_op tx = op ∧ tx_signer tx = signer ∧ tx_payer tx = acc_address signer.
Proof.
  unfold NewTransaction. destruct (builder_error _ _); [done|].
  by intros [= <-].
Qed.

(** X4: [prepareTransaction] only reads: it asks for the latest block, then for
    the signer's account, and stops at the first failure; it submits
    nothing, leaves the heap alone and does not panic.  The transaction it
    hands back is the one it was given, with the block the gateway answered
    as reference, the fetched account and its key at the signer's index as
    proposer, and signed. *)
Theorem prepareTransaction_outcome (a : Accounts) (tx : Transaction)
    (account : Account) (w : World) (r : Outcome Transaction) (w' : World) :
  prepareTransaction a tx account w = (r, w') →
  heap w' = heap w
  ∧ submitted (calls w') = submitted (calls w)
  ∧ (∀ f, r ≠ Panic f)
  ∧ ((calls w' = (calls w ++ [CallGetLatestBlock])%list
      ∧ ∃ e, r = Err e ∧ gw_GetLatestBlock (gateway a) (calls w) = inl e)
     ∨ calls w' = (calls w ++ [CallGetLatestBlock;
                               CallGetAccount (acc_address account)])%list)
  ∧ ∀ ptx, r = Ok ptx →
      ∃ block proposer key,
        gw_GetLatestBlock (gateway a) (calls w) = inr block
        ∧ gw_GetAccount (gateway a) (calls w ++ [CallGetLatestBlock])
            (acc_address account) = inr proposer
        ∧ fa_keys proposer !! acc_key_index account = Some key
        ∧ ptx = {| tx_op := tx_op tx; tx_signer := tx_signer tx;
                   tx_payer := tx_payer tx; tx_reference := Some block;
                   tx_proposer := Some (fa_address proposer, ck_index key,
                                        ck_sequence key);
                   tx_signed := true |}.
Proof.
  intros E. split; [|split].
  { rewrite prepareTransaction_run in E.
    repeat (destruct (_ : _ + _) in E); by injection E as _ <-. }
  { by apply submits_nothing_prepareTransaction in E. }
  rewrite prepareTransaction_run in E.
  destruct (gw_GetLatestBlock _ _) as [e|block] eqn:Hblock.
  { injection E as <- <-. split; [done|]. split; [left; eauto|done]. }
  cbv zeta in E.
  assert (calls (called (called w CallGetLatestBlock)
                        (CallGetAccount (acc_address account)))
          = (calls w ++ [CallGetLatestBlock;
                         CallGetAccount (acc_address account)])%list) as Hcalls
    by (simpl; by rewrite <- app_assoc).
  destruct (gw_GetAccount _ _ _) as [e|proposer] eqn:Hacc.
  { injection E as <- <-. split; [done|]. split; [by right|done]. }
  unfold Transaction_SetProposer, Transaction_Sign in E.
  destruct (fa_keys proposer !! _) as [key|] eqn:Hkey.
  - destruct (sign_error _).
    + injection E as <- <-. split; [done|]. split; [by right|done].
    + injection E as <- <-. split; [done|]. split; [by right|].
      intros ptx [= <-]. by exists block, proposer, key.
  - injection E as <- <-. split; [done|]. split; [by right|done].
Qed.

End TraceFacts.

(** ** AddContract: the ways out *)

Lemma bind_Err {A B} (m : M A) (k : A → M B) w e w' :
  m w = (Err e, w') → (m ≫= k) w = (Err e, w').
Proof. intros E. unfold mbind, M_bind, bind. by rewrite E. Qed.

(** One step of a computation that submits nothing: the statement moves to
    the world after the step, and an early exit closes the goal with [tac]. *)
Ltac pass_step E tac :=
  let r1 := fresh "r" in
  let w1 := fresh "w" in
  let E1 := fresh "E" in
  let H := fresh "H" in
  apply bind_inv in E as (r1 & w1 & E1 & E);
  match type of E1 with
  | ?m _ = _ => assert (submits_nothing m) as H by tac
  end;
  apply H in E1; rewrite <- E1; clear H E1;
  destruct r1 as [?|?|?];
  [cbv beta in E|destruct E as [-> ->]; left; by split..].

Section AddContractMore.
Context {L : Libraries} {F : Flowkit}.

(** X5: lines 344 to 353: a contract of that name with other bytes is on
    the account and [updateExisting] is false.  [AddContract] reports that
    the contract exists in the account; it has fetched the account and
    called nothing else, so no transaction was prepared or submitted.  The
    caller's script holds the resolved code all the same. *)
Theorem AddContract_exists_without_update (a : Accounts) (account : Account)
    (contract : nat) (network : string) (w : World) (s : Script)
    (code' name existing : string) (tx : Transaction)
    (flowAccount : FlowAccount) :
  heap w !! contract = Some s →
  cadence_parse_error (s_code s) = None →
  resolved_code a network s = Some code' →
  cadence_contract_name code' = inr name →
  NewAddAccountContractTransaction account name code' (s_args s) = inr tx →
  gw_GetAccount (gateway a) (calls w) (acc_address account) = inr flowAccount →
  fa_contracts flowAccount !! name = Some existing →
  existing ≠ code' →
  ∃ w',
    AddContract a account contract network false w
    = (Err (ErrContractExists name (acc_name account)), w')
    ∧ calls w' = (calls w ++ [CallGetAccount (acc_address account)])%list
    ∧ submitted (calls w') = submitted (calls w)
    ∧ heap w' !! contract = Some (Script_SetCode s code').
Proof.
  intros E Hparse Hres Hname Htx Hacc Hex Hne.
  rewrite (AddContract_checks _ _ _ _ _ _ _ _ _ _ _ E Hparse Hres Hname Htx Hacc).
  cbv zeta. rewrite Hex, bool_decide_eq_false_2 by done.
  eexists. split; [done|]. split; [done|]. split.
  - simpl. rewrite submitted_app. simpl. by rewrite app_nil_r.
  - simpl. by apply set_code_lookup.
Qed.

(** X6: lines 297 to 312: the program declares imports and one of them has no
    entry in the table built from the project state.  [AddContract] returns
    the error of [Replace] for an import the table lacks, and it has called
    no gateway: neither the account is fetched nor a transaction built. *)
Theorem AddContract_unresolved_import (a : Accounts) (account : Account)
    (contract : nat) (network : string) (updateExisting : bool) (w : World)
    (s : Script) (st : State) (cs : list Contract) :
  let table :=
    getContractsLocations
      (NewImportReplacer cs (AliasesForNetwork st network)) in
  heap w !! contract = Some s →
  cadence_parse_error (s_code s) = None →
  state a = Some st →
  DeploymentContractsByNetwork st network = inr cs →
  Exists (λ imp, table !! importLocation (s_location s) imp = None)
         (cadence_imports (s_code s)) →
  ∃ imp w',
    AddContract a account contract network updateExisting w
    = (Err (ErrUnresolvedImport imp), w')
    ∧ imp ∈ cadence_imports (s_code s)
    ∧ table !! importLocation (s_location s) imp = None
    ∧ calls w' = calls w.
Proof.
  intros table E Hparse Hst Hcs Hex.
  apply Exists_first in Hex as (pre & imp & post & Hsplit & Hpre & Himp);
    [|solve_decision].
  assert (Forall (λ x, is_Some (table !! importLocation (s_location s) x)) pre)
    as Hpre'.
  { eapply Forall_impl; [exact Hpre|]. intros x Hx. cbv beta in Hx.
    destruct (table !! importLocation (s_location s) x); [by eexists|done]. }
  exists imp. eexists. split; [|split; [|split; [exact Himp|]]].
  - unfold AddContract.
    rewrite (bind_Ok _ _ _ _ _ (NewProgram_run _ _ _ E Hparse)).
    rewrite (bind_Ok _ _ _ _ _
               (Program_HasImports_run {| p_script := contract |} _ _ E)).
    rewrite Hsplit, bool_decide_eq_true_2
      by (rewrite length_app; simpl; lia).
    apply bind_Err. rewrite Hst.
    unfold mbind, M_bind, bind, ret; simpl. rewrite Hcs; simpl.
    rewrite (Replace_run _ {| p_script := contract |} _ _ E), Hsplit.
    by rewrite (Replace_range_unresolved _ {| p_script := contract |}
                  _ _ _ _ _ E Hpre' Himp).
  - rewrite Hsplit. set_solver.
  - done.
Qed.

(** X7: line 297: a program without imports never consults the project state
    nor the network name.  Two services over the same gateway, whatever
    their states, do the same on it. *)
Theorem AddContract_without_imports (a a' : Accounts) (account : Account)
    (contract : nat) (network network' : string) (updateExisting : bool)
    (w : World) (s : Script) :
  heap w !! contract = Some s →
  cadence_imports (s_code s) = [] →
  gateway a = gateway a' →
  AddContract a account contract network updateExisting w
  = AddContract a' account contract network' updateExisting w.
Proof.
  intros E Himports Hg. unfold AddContract.
  destruct (cadence_parse_error (s_code s)) as [e|] eqn:Hparse.
  - assert (NewProgram contract w = (Err e, w)) as Hnew.
    { unfold NewProgram. rewrite (bind_Ok _ _ _ _ _ (load_Some _ _ _ E)).
      by rewrite Hparse. }
    by rewrite !(bind_Err _ _ _ _ _ Hnew).
  - rewrite !(bind_Ok _ _ _ _ _ (NewProgram_run _ _ _ E Hparse)).
    rewrite !(bind_Ok _ _ _ _ _
                (Program_HasImports_run {| p_script := contract |} _ _ E)).
    rewrite Himports. rewrite !bool_decide_eq_false_2 by (simpl; lia).
    unfold GetAccount, prepareTransaction, GetLatestBlock, GetAccount,
      SendSignedTransaction, GetTransactionResult.
    by rewrite Hg.
Qed.

(** X8: whatever [AddContract] returns, it has handed at most one transaction to
    the gateway, and exactly one when it returns normally.  That transaction
    is signed, is paid for by the account, and adds or updates a contract. *)
Theorem AddContract_submits_at_most_once (a : Accounts) (account : Account)
    (contract : nat) (network : string) (updateExisting : bool)
    (w : World) (r : Outcome (Identifier * bool)) (w' : World) :
  AddContract a account contract network updateExisting w = (r, w') →
  (submitted (calls w') = submitted (calls w) ∧ ∀ v, r ≠ Ok v)
  ∨ ∃ ptx,
      submitted (calls w') = (submitted (calls w) ++ [ptx])%list
      ∧ tx_signed ptx = true
      ∧ tx_signer ptx = account
      ∧ tx_payer ptx = acc_address account
      ∧ ∃ name code,
          (∃ args, tx_op ptx = OpAddContract name code args)
          ∨ tx_op ptx = OpUpdateContract name code.
Proof.
  unfold AddContract. intros E.
  pass_step E ltac:(apply calls_nothing_submits, calls_nothing_NewProgram).
  pass_step E ltac:(apply calls_nothing_submits, calls_nothing_Program_HasImports).
  pass_step E ltac:(
    apply calls_nothing_submits;
    match goal with |- calls_nothing (if ?b then _ else _) => destruct b end;
    [destruct (state a)|];
    eauto 10 using calls_nothing_Replace with trace).
  pass_step E ltac:(apply calls_nothing_submits, calls_nothing_Program_Name).
  pass_step E ltac:(apply calls_nothing_submits, calls_nothing_Program_Code).
  pass_step E ltac:(apply calls_nothing_submits, calls_nothing_load).
  match type of E with
  | (lift ?x ≫= _) _ = _ => destruct x as [e|tx] eqn:Htx
  end.
  { injection E as <- <-. left. by split. }
  apply NewTransaction_inr in Htx as (Hop & Hsigner & Hpayer).
  rewrite (bind_Ok _ _ _ _ _ (eq_refl : lift (inr tx) _ = (Ok tx, _))) in E.
  pass_step E ltac:(apply submits_nothing_GetAccount).
  pass_step E ltac:(apply calls_nothing_submits, calls_nothing_Program_Code).
  cbv zeta in E.
  destruct (_ && _) in E; [injection E as <- <-; left; by split|].
  destruct (_ && _) in E; [injection E as <- <-; left; by split|].
  apply bind_inv in E as (r1 & wa & E1 & E).
  match type of E1 with
  | _ ?w0 = _ =>
      assert (submitted (calls wa) = submitted (calls w0)
              ∧ ∀ tx2, r1 = Ok tx2 →
                  tx_signer tx2 = account
                  ∧ tx_payer tx2 = acc_address account
                  ∧ ∃ name code,
                      (∃ args, tx_op tx2 = OpAddContract name code args)
                      ∨ tx_op tx2 = OpUpdateContract name code)
        as [Hwa Htx2]
  end.
  { destruct (_ && _) in E1.
    - apply bind_inv in E1 as (r2 & wb & E2 & E1). apply load_inv in E2 as ->.
      destruct r2 as [script| |]; [|destruct E1 as [-> ->]; by split..].
      cbv beta in E1.
      destruct (NewUpdateAccountContractTransaction _ _ _) as [e|utx] eqn:Hutx;
        injection E1 as <- <-; (split; [done|]); [done|].
      intros tx2 [= <-]. apply NewTransaction_inr in Hutx as (? & ? & ?).
      eauto 10.
    - injection E1 as <- <-. split; [done|]. intros tx2 [= <-].
      unfold NewAddAccountContractTransaction in Hop. eauto 10. }
  rewrite <- Hwa.
  destruct r1 as [tx2| |]; [|destruct E as [-> ->]; left; by split..].
  destruct (Htx2 _ eq_refl) as (Hsigner2 & Hpayer2 & name & code & Hop2).
  cbv beta in E. apply bind_inv in E as (r3 & wc & E3 & E).
  rewrite <- (submits_nothing_prepareTransaction _ _ _ _ _ _ E3).
  destruct r3 as [ptx| |]; [|destruct E as [-> ->]; left; by split..].
  apply prepareTransaction_kept in E3 as (Hop3 & Hsigner3 & Hpayer3 & Hsigned).
  cbv beta in E. apply bind_inv in E as (r4 & wd & E4 & E).
  apply wrap_error_inv in E4 as (r5 & E4 & ->).
  unfold SendSignedTransaction in E4. apply gateway_call_world in E4 as ->.
  right. exists ptx.
  split; [|rewrite Hsigner3, Hpayer3, Hop3; eauto 10].
  assert (submitted (calls (called wc (CallSendSignedTransaction ptx)))
          = (submitted (calls wc) ++ [ptx])%list) as <-
    by (simpl; by rewrite submitted_app).
  destruct r5 as [sent| |]; [|by destruct E as [_ ->]..].
  cbv beta in E. apply bind_inv in E as (r6 & we & E6 & E).
  rewrite <- (submits_nothing_GetTransactionResult _ _ _ _ _ _ E6).
  destruct r6 as [trx| |]; [|by destruct E as [_ ->]..].
  cbv beta in E. destruct (tr_Error trx); by injection E as _ <-.
Qed.

(** X9: lines 375 to 378: the account holds no contract of that name and the
    prepared transaction is refused by the gateway.  [AddContract] returns
    the refusal wrapped as a failure to send, and the send is its last
    gateway call: it does not ask for a result. *)
Theorem AddContract_send_refused (a : Accounts) (account : Account)
    (contract : nat) (network : string) (updateExisting : bool) (w : World)
    (s : Script) (code' name : string) (tx ptx : Transaction)
    (flowAccount : FlowAccount) (w3 : World) (e : Error) :
  heap w !! contract = Some s →
  cadence_parse_error (s_code s) = None →
  resolved_code a network s = Some code' →
  cadence_contract_name code' = inr name →
  NewAddAccountContractTransaction account name code' (s_args s) = inr tx →
  gw_GetAccount (gateway a) (calls w) (acc_address account) = inr flowAccount →
  fa_contracts flowAccount !! name = None →
  prepareTransaction a tx account
    (called (set_code w contract s code') (CallGetAccount (acc_address account)))
  = (Ok ptx, w3) →
  gw_SendSignedTransaction (gateway a) (calls w3) ptx = inl e →
  ∃ w',
    AddContract a account contract network updateExisting w
    = (Err (ErrSendDeployFailed e), w')
    ∧ message (ErrSendDeployFailed e)
      = "failed to send transaction to deploy a contract: " +:+ message e
    ∧ calls w'
      = (calls w ++ [CallGetAccount (acc_address account);
                     CallGetLatestBlock;
                     CallGetAccount (acc_address account);
                     CallSendSignedTransaction ptx])%list.
Proof.
  intros E Hparse Hres Hname Htx Hacc Hnone Hprep Hsend.
  rewrite (AddContract_checks _ _ _ _ _ _ _ _ _ _ _ E Hparse Hres Hname Htx Hacc).
  cbv zeta. rewrite Hnone. unfold AddContract_send.
  rewrite (bind_Ok _ _ _ _ _ Hprep).
  exists (called w3 (CallSendSignedTransaction ptx)).
  split; [|split; [done|]].
  - apply bind_Err. unfold wrap_error, SendSignedTransaction, gateway_call.
    by rewrite Hsend.
  - apply prepareTransaction_Ok in Hprep as (_ & _ & _ & Hcalls).
    simpl. rewrite Hcalls. simpl. by rewrite <- !app_assoc.
Qed.

(** X10: lines 381 to 387: the transaction that adds the contract was sent and
    sealed, and the sealed result carries an execution error.  [AddContract]
    returns that error as it is, although the transaction has been
    submitted. *)
Theorem AddContract_sealed_with_error (a : Accounts) (account : Account)
    (contract : nat) (network : string) (updateExisting : bool) (w : World)
    (s : Script) (code' name : string) (tx ptx : Transaction)
    (flowAccount : FlowAccount) (sent : SentTransaction)
    (res : TransactionResult) (w' : World) (e : Error) :
  heap w !! contract = Some s →
  cadence_parse_error (s_code s) = None →
  resolved_code a network s = Some code' →
  cadence_contract_name code' = inr name →
  NewAddAccountContractTransaction account name code' (s_args s) = inr tx →
  gw_GetAccount (gateway a) (calls w) (acc_address account) = inr flowAccount →
  fa_contracts flowAccount !! name = None →
  pipeline a tx account
    (called (set_code w contract s code') (CallGetAccount (acc_address account)))
  = (Ok (ptx, sent, res), w') →
  tr_Error res = Some e →
  AddContract a account contract network updateExisting w = (Err e, w')
  ∧ tx_op ptx = OpAddContract name code' (s_args s)
  ∧ submitted (calls w') = (submitted (calls w) ++ [ptx])%list.
Proof.
  intros E Hparse Hres Hname Htx Hacc Hnone Hpipe Herr.
  rewrite (AddContract_checks _ _ _ _ _ _ _ _ _ _ _ E Hparse Hres Hname Htx Hacc).
  cbv zeta. rewrite Hnone.
  apply pipeline_Ok in Hpipe as (w1 & Hprep & Hsend & Hwait & Hop & _ & Hsub).
  split; [|split].
  - unfold AddContract_send. rewrite (bind_Ok _ _ _ _ _ Hprep).
    assert (wrap_error ErrSendDeployFailed (SendSignedTransaction a ptx) w1
            = (Ok sent, called w1 (CallSendSignedTransaction ptx))) as Hsend'
      by (unfold wrap_error; by rewrite Hsend).
    rewrite (bind_Ok _ _ _ _ _ Hsend'), (bind_Ok _ _ _ _ _ Hwait).
    by rewrite Herr.
  - rewrite Hop. by apply NewTransaction_inr in Htx as (-> & _).
  - rewrite Hsub. simpl. rewrite submitted_app. simpl. by rewrite app_nil_r.
Qed.

End AddContractMore.

(** ** AddContract and the heap *)

Create HintDb frame.

Lemma only_code_of_same l w w' : heap w' = heap w → only_code_of l w w'.
Proof.
  intros Hheap. unfold only_code_of. rewrite Hheap.
  split; [done|]. split; [done|]. intros s Hs. exists (s_code s).
  rewrite Hs. by destruct s.
Qed.

Lemma only_code_of_trans l w w1 w2 :
  only_code_of l w w1 → only_code_of l w1 w2 → only_code_of l w w2.
Proof.
  intros (Hlen1 & Hother1 & Hcode1) (Hlen2 & Hother2 & Hcode2).
  split; [congruence|]. split.
  - intros l' Hl'. by rewrite Hother2, Hother1.
  - intros s Hs. destruct (Hcode1 s Hs) as [code1 Hs1].
    destruct (Hcode2 _ Hs1) as [code2 Hs2]. by exists code2.
Qed.

Lemma touches_only_pure l {A} (m : M A) :
  (∀ w r w', m w = (r, w') → w' = w) → touches_only l m.
Proof.
  intros Hm w r w' E. apply only_code_of_same. by rewrite (Hm _ _ _ E).
Qed.

Lemma touches_only_ret l {A} (a : A) : touches_only l (ret a).
Proof. apply touches_only_pure. by intros w r w' [= _ <-]. Qed.

Lemma touches_only_mret l {A} (a : A) : touches_only l (mret a : M A).
Proof. apply touches_only_ret. Qed.

Lemma touches_only_throw l {A} e : touches_only l (throw e : M A).
Proof. apply touches_only_pure. by intros w r w' [= _ <-]. Qed.

Lemma touches_only_panic l {A} f : touches_only l (panic f : M A).
Proof. apply touches_only_pure. by intros w r w' [= _ <-]. Qed.

Lemma touches_only_lift l {A} (x : Error + A) : touches_only l (lift x).
Proof. apply touches_only_pure, lift_inv. Qed.

Lemma touches_only_load l l' : touches_only l (load l').
Proof. apply touches_only_pure, load_inv. Qed.

Lemma touches_only_check l e : touches_only l (check e).
Proof. destruct e; [apply touches_only_throw|apply touches_only_ret]. Qed.

Lemma touches_only_gateway_call l {A} c (answer : list Call → Error + A) :
  touches_only l (gateway_call c answer).
Proof.
  intros w r w' E. apply gateway_call_world in E as ->.
  by apply only_code_of_same.
Qed.

Lemma touches_only_bind l {A B} (m : M A) (k : A → M B) :
  touches_only l m → (∀ a, touches_only l (k a)) → touches_only l (m ≫= k).
Proof.
  intros Hm Hk w r w' E. apply bind_inv in E as (r1 & w1 & E1 & E).
  apply Hm in E1. destruct r1; [|by destruct E as [_ ->]..].
  apply Hk in E. by eapply only_code_of_trans.
Qed.

Lemma touches_only_wrap_error l {A} wrap (m : M A) :
  touches_only l m → touches_only l (wrap_error wrap m).
Proof.
  intros Hm w r w' E. apply wrap_error_inv in E as (r1 & E & _).
  by apply Hm in E.
Qed.

#[export] Hint Resolve touches_only_ret touches_only_mret touches_only_throw
  touches_only_panic touches_only_lift touches_only_load touches_only_check
  touches_only_gateway_call touches_only_bind touches_only_wrap_error : frame.

(** A computation built from binds, branches and steps that are known to
    change at most the code of one script changes at most that. *)
Ltac frame :=
  repeat first
    [ progress cbv zeta
    | solve [eauto 2 with frame]
    | apply touches_only_bind; [|intros ?]
    | match goal with
      | |- touches_only _ (if ?b then _ else _) => destruct b
      | |- touches_only _ (match ?x with _ => _ end) => destruct x
      end ].

Section AddContractFrame.
Context {L : Libraries} {F : Flowkit}.

Lemma touches_only_Replace i p : touches_only (p_script p) (Replace i p).
Proof.
  intros w r w' Hrun. destruct (heap w !! p_script p) as [s|] eqn:E.
  - rewrite (Replace_run _ _ _ _ E) in Hrun.
    destruct (Replace_range _ _ _ _) as [r1 w1] eqn:Hloop.
    apply (Replace_range_world _ _ _ _ _ _ _ E) in Hloop as [code ->].
    assert (w' = set_code w (p_script p) s code) as ->
      by (destruct r1; congruence).
    split; [apply length_insert|]. split.
    + intros l Hl. simpl. by apply list_lookup_insert_ne.
    + intros s' Hs'. rewrite E in Hs'. injection Hs' as <-.
      exists code. by apply set_code_lookup.
  - unfold Replace, Program_Imports in Hrun.
    apply bind_inv in Hrun as (r1 & w1 & Hrun & Hrest).
    apply bind_inv in Hrun as (r2 & w2 & Hload & Hrun).
    unfold load in Hload. rewrite E in Hload. injection Hload as <- <-.
    destruct Hrun as [-> ->]. destruct Hrest as [-> ->].
    by apply only_code_of_same.
Qed.

Lemma touches_only_prepareTransaction l a tx account :
  touches_only l (prepareTransaction a tx account).
Proof. unfold prepareTransaction, GetLatestBlock, GetAccount. frame. Qed.

(** X24: whatever [AddContract] returns, the heap has as many scripts as
    before, every script other than the one passed as [contract] is as it
    was, and that script has its location and its arguments: only its code
    may have changed, also when the call fails. *)
Theorem AddContract_frame (a : Accounts) (account : Account) (contract : nat)
    (network : string) (updateExisting : bool) (w : World)
    (r : Outcome (Identifier * bool)) (w' : World) :
  AddContract a account contract network updateExisting w = (r, w') →
  length (heap w') = length (heap w)
  ∧ (∀ l, l ≠ contract → heap w' !! l = heap w !! l)
  ∧ (∀ s, heap w !! contract = Some s →
          ∃ code, heap w' !! contract = Some (Script_SetCode s code)).
Proof.
  unfold AddContract. intros E.
  apply bind_inv in E as (r1 & w1 & E1 & E).
  assert (w1 = w ∧ ∀ p, r1 = Ok p → p = {| p_script := contract |})
    as [-> Hprogram].
  { unfold NewProgram in E1. apply bind_inv in E1 as (r2 & w2 & E2 & E1).
    apply load_inv in E2 as ->.
    destruct r2 as [s| |]; [|by destruct E1 as [-> ->]..].
    cbv beta in E1. destruct (cadence_parse_error (s_code s));
      injection E1 as <- <-; split; try done. by intros p [= <-]. }
  destruct r1 as [program| |];
    [|destruct E as [_ ->]; by apply (only_code_of_same contract)..].
  rewrite (Hprogram program eq_refl) in E. clear Hprogram E1.
  pose proof (λ i, touches_only_Replace i {| p_script := contract |})
    as Hreplace.
  pose proof (touches_only_prepareTransaction contract) as Hprepare.
  match type of E with
  | ?m _ = _ => assert (touches_only contract m) as Hrest
  end.
  { unfold Program_HasImports, Program_Imports, Program_Name, Program_Code,
      GetAccount, SendSignedTransaction, GetTransactionResult.
    frame. }
  exact (Hrest _ _ _ E).
Qed.

End AddContractFrame.

(** ** RemoveContract: the removal and the ways out *)

Section RemoveContractMore.
Context {L : Libraries} {F : Flowkit}.

(** X11: lines 420 to 456: the account holds a contract of the given name and
    the transaction built for it was prepared, sent and sealed.
    [RemoveContract] has submitted that one transaction, which removes the
    contract of that name and is paid for by the account; it returns the
    identifier of the transaction, or else the execution error of the
    sealed result. *)
Theorem RemoveContract_removes (a : Accounts) (account : Account)
    (contractName : string) (w : World) (flowAcc : FlowAccount)
    (tx ptx : Transaction) (sent : SentTransaction)
    (res : TransactionResult) (w' : World) :
  gw_GetAccount (gateway a) (calls w) (acc_address account) = inr flowAcc →
  is_Some (fa_contracts flowAcc !! contractName) →
  NewRemoveAccountContractTransaction account contractName = inr tx →
  pipeline a tx account (called w (CallGetAccount (acc_address account)))
  = (Ok (ptx, sent, res), w') →
  RemoveContract a account contractName w
  = (match tr_Error res with
     | Some e => Err e
     | None => Ok (sent_ID sent)
     end, w')
  ∧ tx_op ptx = OpRemoveContract contractName
  ∧ tx_payer ptx = acc_address account
  ∧ submitted (calls w') = (submitted (calls w) ++ [ptx])%list.
Proof.
  intros Hacc Hex Htx Hpipe.
  apply pipeline_Ok in Hpipe as (w1 & Hprep & Hsend & Hwait & Hop & _ & Hsub).
  pose proof (prepareTransaction_kept _ _ _ _ _ _ Hprep) as (_ & _ & Hpayer & _).
  pose proof (NewTransaction_inr _ _ _ Htx) as (Hop0 & _ & Hpayer0).
  split; [|split; [congruence|split; [congruence|]]].
  - unfold RemoveContract.
    assert (GetAccount a (acc_address account) w
            = (Ok flowAcc, called w (CallGetAccount (acc_address account))))
      as Hget by (by apply gateway_call_inr).
    rewrite (bind_Ok _ _ _ _ _ Hget). cbv zeta.
    rewrite bool_decide_eq_true_2 by (by apply maps_Keys_elem_of).
    rewrite Htx.
    rewrite (bind_Ok _ _ _ _ _ (eq_refl : lift (inr tx) _ = (Ok tx, _))).
    rewrite (bind_Ok _ _ _ _ _ Hprep), (bind_Ok _ _ _ _ _ Hsend).
    rewrite (bind_Ok _ _ _ _ _ Hwait). by destruct (tr_Error res).
  - rewrite Hsub. simpl. rewrite submitted_app. simpl. by rewrite app_nil_r.
Qed.

(** X27: lines 436 to 439: the removal transaction is built and prepared,
    and the gateway refuses it.  [RemoveContract] returns the refusal as it
    is, without the wrapping that [AddContract] and [Create] give it; the
    send is its last gateway call. *)
Theorem RemoveContract_send_refused (a : Accounts) (account : Account)
    (contractName : string) (w : World) (flowAcc : FlowAccount)
    (tx ptx : Transaction) (w1 : World) (e : Error) :
  gw_GetAccount (gateway a) (calls w) (acc_address account) = inr flowAcc →
  is_Some (fa_contracts flowAcc !! contractName) →
  NewRemoveAccountContractTransaction account contractName = inr tx →
  prepareTransaction a tx account (called w (CallGetAccount (acc_address account)))
  = (Ok ptx, w1) →
  gw_SendSignedTransaction (gateway a) (calls w1) ptx = inl e →
  RemoveContract a account contractName w
  = (Err e, called w1 (CallSendSignedTransaction ptx))
  ∧ calls w1 = (calls w ++ [CallGetAccount (acc_address account);
                            CallGetLatestBlock;
                            CallGetAccount (acc_address account)])%list.
Proof.
  intros Hacc Hex Htx Hprep Hsend. split.
  - unfold RemoveContract.
    assert (GetAccount a (acc_address account) w
            = (Ok flowAcc, called w (CallGetAccount (acc_address account))))
      as Hget by (by apply gateway_call_inr).
    rewrite (bind_Ok _ _ _ _ _ Hget). cbv zeta.
    rewrite bool_decide_eq_true_2 by (by apply maps_Keys_elem_of).
    rewrite Htx.
    rewrite (bind_Ok _ _ _ _ _ (eq_refl : lift (inr tx) _ = (Ok tx, _))).
    rewrite (bind_Ok _ _ _ _ _ Hprep). apply bind_Err.
    unfold SendSignedTransaction, gateway_call. by rewrite Hsend.
  - apply prepareTransaction_Ok in Hprep as (_ & _ & _ & ->).
    simpl. by rewrite <- app_assoc.
Qed.

(** X12: whatever [RemoveContract] returns, it has handed at most one transaction
    to the gateway, and exactly one when it returns normally: a signed
    transaction, paid for by the account, that removes the named contract. *)
Theorem RemoveContract_submits_at_most_once (a : Accounts) (account : Account)
    (contractName : string) (w : World) (r : Outcome Identifier) (w' : World) :
  RemoveContract a account contractName w = (r, w') →
  (submitted (calls w') = submitted (calls w) ∧ ∀ v, r ≠ Ok v)
  ∨ ∃ ptx,
      submitted (calls w') = (submitted (calls w) ++ [ptx])%list
      ∧ tx_signed ptx = true
      ∧ tx_signer ptx = account
      ∧ tx_payer ptx = acc_address account
      ∧ tx_op ptx = OpRemoveContract contractName.
Proof.
  unfold RemoveContract. intros E.
  pass_step E ltac:(apply submits_nothing_GetAccount).
  cbv zeta in E. case_bool_decide; [|injection E as <- <-; left; by split].
  destruct (NewRemoveAccountContractTransaction _ _) as [e|tx] eqn:Htx.
  { injection E as <- <-. left. by split. }
  apply NewTransaction_inr in Htx as (Hop & Hsigner & Hpayer).
  rewrite (bind_Ok _ _ _ _ _ (eq_refl : lift (inr tx) _ = (Ok tx, _))) in E.
  apply bind_inv in E as (r3 & wc & E3 & E).
  rewrite <- (submits_nothing_prepareTransaction _ _ _ _ _ _ E3).
  destruct r3 as [ptx| |]; [|destruct E as [-> ->]; left; by split..].
  apply prepareTransaction_kept in E3 as (Hop3 & Hsigner3 & Hpayer3 & Hsigned).
  cbv beta in E. apply bind_inv in E as (r4 & wd & E4 & E).
  unfold SendSignedTransaction in E4. apply gateway_call_world in E4 as ->.
  right. exists ptx. split; [|by rewrite Hsigner3, Hpayer3, Hop3].
  assert (submitted (calls (called wc (CallSendSignedTransaction ptx)))
          = (submitted (calls wc) ++ [ptx])%list) as <-
    by (simpl; by rewrite submitted_app).
  destruct r4 as [sent| |]; [|by destruct E as [_ ->]..].
  cbv beta in E. apply bind_inv in E as (r6 & we & E6 & E).
  rewrite <- (submits_nothing_GetTransactionResult _ _ _ _ _ _ E6).
  destruct r6 as [txr| |]; [|by destruct E as [_ ->]..].
  cbv beta in E. destruct (tr_Error txr); by injection E as _ <-.
Qed.

End RemoveContractMore.

(** ** Create: the keys, the contracts and the ways out *)

Section CreateMore.
Context {L : Libraries} {F : Flowkit}.

Lemma index_inv {A} (l : list A) i w r w' : index l i w = (r, w') → w' = w.
Proof. unfold index. destruct (l !! i); by intros [= _ <-]. Qed.

(** The two loops of [Create] leave the world as it is. *)
Lemma Create_keys_world (keyWeights : list Z)
    (sigAlgo : list SignatureAlgorithm) (hashAlgo : list HashAlgorithm) :
  ∀ (pubKeys : list string) (i : nat) accKeys w r w',
    Create_keys pubKeys i keyWeights sigAlgo hashAlgo accKeys w = (r, w') →
    w' = w.
Proof.
  induction pubKeys as [|pubKey rest IH]; intros i accKeys w r w' E.
  - by injection E as _ <-.
  - cbn [Create_keys] in E.
    apply bind_inv in E as (r1 & w1 & E1 & E). apply index_inv in E1 as ->.
    destruct r1; [|by destruct E as [_ ->]..].
    apply bind_inv in E as (r2 & w2 & E2 & E). apply index_inv in E2 as ->.
    destruct r2; [|by destruct E as [_ ->]..].
    apply bind_inv in E as (r3 & w3 & E3 & E).
    apply wrap_error_inv in E3 as (r4 & E3 & _).
    assert (w3 = w) as -> by (destruct (AccountKey_Validate _);
                             by injection E3 as _ <-).
    destruct r3; [|by destruct E as [_ ->]..]. by apply IH in E.
Qed.

Lemma Create_contracts_world st : ∀ contractArgs contracts w r w',
  Create_contracts st contractArgs contracts w = (r, w') → w' = w.
Proof.
  induction contractArgs as [|contract rest IH]; intros contracts w r w' E.
  - by injection E as _ <-.
  - cbn [Create_contracts] in E.
    destruct (strings_SplitN2 contract) as [|name [|path [|]]];
      try by injection E as _ <-.
    apply bind_inv in E as (r1 & w1 & E1 & E). apply lift_inv in E1 as ->.
    destruct r1; [|by destruct E as [_ ->]..]. by apply IH in E.
Qed.

(** The keys loop over a valid prefix. *)
Lemma Create_keys_prefix (keyWeights : list Z)
    (sigAlgo : list SignatureAlgorithm) (hashAlgo : list HashAlgorithm)
    (rest : list string) :
  ∀ (pre : list string) (i : nat) accKeys w,
    (i + length pre ≤ length sigAlgo)%nat →
    (i + length pre ≤ length hashAlgo)%nat →
    Forall (λ k, AccountKey_Validate k = None)
           (built_keys pre i keyWeights sigAlgo hashAlgo) →
    Create_keys (pre ++ rest) i keyWeights sigAlgo hashAlgo accKeys w
    = Create_keys rest (i + length pre) keyWeights sigAlgo hashAlgo
        (accKeys ++ built_keys pre i keyWeights sigAlgo hashAlgo) w.
Proof.
  induction pre as [|pubKey pre IH]; intros i accKeys w Hs Hh Hvalid.
  - simpl. by rewrite Nat.add_0_r, app_nil_r.
  - simpl in Hs, Hh. rewrite built_keys_cons in Hvalid |- *.
    apply Forall_cons in Hvalid as [Hkey Hrest].
    destruct (lookup_lt_is_Some_2 sigAlgo i ltac:(lia)) as [sa Hsa].
    destruct (lookup_lt_is_Some_2 hashAlgo i ltac:(lia)) as [ha Hha].
    rewrite Hsa, Hha in Hkey |- *. cbn [default from_option id] in Hkey |- *.
    rewrite <- app_comm_cons.
    rewrite (Create_keys_turn _ _ _ _ _ _ _ _ _ _ Hsa Hha Hkey).
    rewrite (IH (S i)) by (done || lia).
    rewrite <- app_assoc. simpl. by rewrite Nat.add_succ_r.
Qed.

(** What the keys loop has built when it comes to its end. *)
Lemma Create_keys_Ok_inv (keyWeights : list Z)
    (sigAlgo : list SignatureAlgorithm) (hashAlgo : list HashAlgorithm) :
  ∀ (pubKeys : list string) (i : nat) accKeys w result w',
    Create_keys pubKeys i keyWeights sigAlgo hashAlgo accKeys w
    = (Ok result, w') →
    result = (accKeys ++ built_keys pubKeys i keyWeights sigAlgo hashAlgo)%list
    ∧ (pubKeys = [] ∨ (i + length pubKeys ≤ length sigAlgo)%nat
                      ∧ (i + length pubKeys ≤ length hashAlgo)%nat)
    ∧ Forall (λ k, AccountKey_Validate k = None)
             (built_keys pubKeys i keyWeights sigAlgo hashAlgo).
Proof.
  induction pubKeys as [|pubKey rest IH]; intros i accKeys w result w' E.
  - injection E as <- <-. rewrite app_nil_r. split; [done|].
    split; [by left|constructor].
  - cbn [Create_keys] in E. unfold index in E.
    destruct (sigAlgo !! i) as [sa|] eqn:Hsa; [|done].
    destruct (hashAlgo !! i) as [ha|] eqn:Hha; [|done].
    rewrite !(bind_Ok _ _ _ _ _ (eq_refl : ret _ _ = (Ok _, _))) in E.
    rewrite Create_weight in E.
    apply bind_Ok_inv in E as ([] & w1 & E1 & E).
    unfold wrap_error, check in E1.
    destruct (AccountKey_Validate _) as [e|] eqn:Hvalid; [done|].
    apply IH in E as (-> & Hlen & Hrest).
    rewrite built_keys_cons, Hsa, Hha. cbn [default from_option id].
    split; [by rewrite <- app_assoc|].
    apply lookup_lt_Some in Hsa. apply lookup_lt_Some in Hha.
    split; [|by constructor]. right. simpl.
    destruct Hlen as [->|[??]]; simpl; lia.
Qed.

Lemma built_keys_lookup (pubKeys : list string) i (keyWeights : list Z)
    (sigAlgo : list SignatureAlgorithm) (hashAlgo : list HashAlgorithm) j :
  built_keys pubKeys i keyWeights sigAlgo hashAlgo !! j
  = (λ pubKey,
       {| PublicKey := pubKey;
          SigAlgo := default UnknownSignatureAlgorithm (sigAlgo !! (i + j));
          HashAlgo := default UnknownHashAlgorithm (hashAlgo !! (i + j));
          Weight := default AccountKeyWeightThreshold (keyWeights !! (i + j)) |})
    <$> pubKeys !! j.
Proof. unfold built_keys. by rewrite list_lookup_imap. Qed.

(** A projection of the built keys that a list [l] covers is the start of
    that list. *)
Lemma built_keys_projection {A} (proj : AccountKey → A) (l : list A) (d : A)
    (pubKeys : list string) (keyWeights : list Z)
    (sigAlgo : list SignatureAlgorithm) (hashAlgo : list HashAlgorithm) :
  (∀ pubKey j,
     proj {| PublicKey := pubKey;
             SigAlgo := default UnknownSignatureAlgorithm (sigAlgo !! j);
             HashAlgo := default UnknownHashAlgorithm (hashAlgo !! j);
             Weight := default AccountKeyWeightThreshold (keyWeights !! j) |}
     = default d (l !! j)) →
  (length pubKeys ≤ length l)%nat →
  proj <$> built_keys pubKeys 0 keyWeights sigAlgo hashAlgo
  = take (length pubKeys) l.
Proof.
  intros Hproj Hlen. apply list_eq. intros j.
  rewrite list_lookup_fmap, built_keys_lookup, lookup_take.
  destruct (pubKeys !! j) as [pubKey|] eqn:Hj; simpl.
  - apply lookup_lt_Some in Hj. rewrite decide_True by done.
    rewrite Hproj.
    destruct (lookup_lt_is_Some_2 l j ltac:(lia)) as [x ->]. done.
  - apply lookup_ge_None in Hj. by rewrite decide_False by lia.
Qed.

(** X13: lines 201 to 221: when the keys loop of [Create] comes to its end, it
    has built one key per public key, in order: key [i] has public key [i],
    the signature and hash algorithms at [i], the weight at [i] when the
    weights are as many as the public keys, and every key has passed
    [Validate].  Both algorithm lists cover the public keys, and the world
    is as it was. *)
Theorem Create_keys_in_order (pubKeys : list string) (keyWeights : list Z)
    (sigAlgo : list SignatureAlgorithm) (hashAlgo : list HashAlgorithm)
    (w : World) (accKeys : list AccountKey) (w' : World) :
  Create_keys pubKeys 0 keyWeights sigAlgo hashAlgo [] w = (Ok accKeys, w') →
  w' = w
  ∧ PublicKey <$> accKeys = pubKeys
  ∧ SigAlgo <$> accKeys = take (length pubKeys) sigAlgo
  ∧ HashAlgo <$> accKeys = take (length pubKeys) hashAlgo
  ∧ (length keyWeights = length pubKeys → Weight <$> accKeys = keyWeights)
  ∧ Forall (λ k, AccountKey_Validate k = None) accKeys.
Proof.
  intros E. split; [by apply Create_keys_world in E|].
  apply Create_keys_Ok_inv in E as (-> & Hlen & Hvalid). rewrite app_nil_l.
  assert ((length pubKeys ≤ length sigAlgo)%nat
          ∧ (length pubKeys ≤ length hashAlgo)%nat) as [Hs Hh]
    by (destruct Hlen as [->|[??]]; simpl in *; lia).
  split; [|split; [|split; [|split; [|done]]]].
  - apply list_eq. intros j.
    rewrite list_lookup_fmap, built_keys_lookup.
    by destruct (pubKeys !! j).
  - by apply (built_keys_projection SigAlgo sigAlgo UnknownSignatureAlgorithm).
  - by apply (built_keys_projection HashAlgo hashAlgo UnknownHashAlgorithm).
  - intros Hw.
    rewrite (built_keys_projection Weight keyWeights AccountKeyWeightThreshold)
      by (done || lia).
    rewrite <- Hw. apply firstn_all.
Qed.

(** X14: lines 215 to 218: the keys before [pubKey] are valid and the key built
    from [pubKey] is not.  [Create] returns the error of [Validate] wrapped
    as an invalid account key; it has read no file and called no gateway. *)
Theorem Create_invalid_key (a : Accounts) (st : State) (signer : Account)
    (pre : list string) (pubKey : string) (post : list string)
    (keyWeights : list Z) (sigAlgo : list SignatureAlgorithm)
    (hashAlgo : list HashAlgorithm) (contractArgs : list string) (w : World)
    (sa : SignatureAlgorithm) (ha : HashAlgorithm) (e : Error) :
  state a = Some st →
  (keyWeights = [] ∨ length (pre ++ pubKey :: post) = length keyWeights) →
  sigAlgo !! length pre = Some sa →
  hashAlgo !! length pre = Some ha →
  Forall (λ k, AccountKey_Validate k = None)
         (built_keys pre 0 keyWeights sigAlgo hashAlgo) →
  AccountKey_Validate
    {| PublicKey := pubKey; SigAlgo := sa; HashAlgo := ha;
       Weight := default AccountKeyWeightThreshold
                   (keyWeights !! length pre) |} = Some e →
  Create a signer (pre ++ pubKey :: post) keyWeights sigAlgo hashAlgo
    contractArgs w
  = (Err (ErrInvalidAccountKey e), w).
Proof.
  intros Hst Hweights Hsa Hha Hvalid Hinvalid.
  unfold Create. rewrite Hst.
  rewrite bool_decide_eq_false_2
    by (destruct Hweights as [->|]; simpl; lia).
  apply bind_Err.
  pose proof (lookup_lt_Some _ _ _ Hsa). pose proof (lookup_lt_Some _ _ _ Hha).
  rewrite Create_keys_prefix by (done || simpl; lia).
  cbn [Create_keys]. unfold index. simpl. rewrite Hsa, Hha, Create_weight.
  unfold mbind, M_bind, bind, ret, wrap_error, check. by rewrite Hinvalid.
Qed.

(** The contracts loop over arguments that can be read. *)
Lemma Create_contracts_read st (rest : list string) :
  ∀ (pre : list string) (read acc : list TemplateContract) w,
    Forall2 (λ arg c, ∃ path, strings_SplitN2 arg = [tc_Name c; path]
                              ∧ ReadFile st path = inr (tc_Source c))
            pre read →
    Create_contracts st (pre ++ rest) acc w
    = Create_contracts st rest (acc ++ read) w.
Proof.
  intros pre read acc w Hread. revert acc.
  induction Hread as [|arg c pre read (path & Hsplit & Hfile) _ IH]; intros acc.
  - by rewrite app_nil_r.
  - rewrite <- app_comm_cons. cbn [Create_contracts]. rewrite Hsplit, Hfile.
    rewrite (bind_Ok _ _ _ _ _ (eq_refl : lift (inr _) _ = (Ok _, _))).
    rewrite IH, <- app_assoc. by destruct c.
Qed.

(** X15: lines 224 to 228: the keys are built, the arguments before [arg] name
    files that can be read, and [arg] has no colon.  [Create] returns the
    wrong-format error for [arg]; it has called no gateway. *)
Theorem Create_wrong_contract_format (a : Accounts) (st : State)
    (signer : Account) (pubKeys : list string) (keyWeights : list Z)
    (sigAlgo : list SignatureAlgorithm) (hashAlgo : list HashAlgorithm)
    (pre : list string) (arg : string) (post : list string)
    (read : list TemplateContract) (w : World) (accKeys : list AccountKey)
    (w' : World) :
  state a = Some st →
  (keyWeights = [] ∨ length pubKeys = length keyWeights) →
  Create_keys pubKeys 0 keyWeights sigAlgo hashAlgo [] w = (Ok accKeys, w') →
  Forall2 (λ arg c, ∃ path, strings_SplitN2 arg = [tc_Name c; path]
                            ∧ ReadFile st path = inr (tc_Source c))
          pre read →
  cut_at ":"%char arg = None →
  Create a signer pubKeys keyWeights sigAlgo hashAlgo (pre ++ arg :: post) w
  = (Err (ErrWrongContractFormat arg), w).
Proof.
  intros Hst Hweights Hkeys Hread Hcut.
  pose proof (Create_keys_world _ _ _ _ _ _ _ _ _ Hkeys) as ->.
  unfold Create. rewrite Hst.
  rewrite bool_decide_eq_false_2
    by (destruct Hweights as [->|]; simpl; lia).
  rewrite (bind_Ok _ _ _ _ _ Hkeys). apply bind_Err.
  rewrite (Create_contracts_read _ _ _ _ _ _ Hread).
  cbn [Create_contracts]. unfold strings_SplitN2. by rewrite Hcut.
Qed.

(** [Create] once the keys and the contracts are built and the transaction
    went through the pipeline. *)
Lemma Create_sent a st signer (pubKeys : list string) (keyWeights : list Z)
    (sigAlgo : list SignatureAlgorithm) (hashAlgo : list HashAlgorithm)
    (contractArgs : list string) (read : list TemplateContract) w accKeys
    tx ptx sent res w1 :
  state a = Some st →
  (keyWeights = [] ∨ length pubKeys = length keyWeights) →
  Create_keys pubKeys 0 keyWeights sigAlgo hashAlgo [] w = (Ok accKeys, w) →
  Forall2 (λ arg c, ∃ path, strings_SplitN2 arg = [tc_Name c; path]
                            ∧ ReadFile st path = inr (tc_Source c))
          contractArgs read →
  NewCreateAccountTransaction signer accKeys read = inr tx →
  pipeline a tx signer w = (Ok (ptx, sent, res), w1) →
  Create a signer pubKeys keyWeights sigAlgo hashAlgo contractArgs w
  = match tr_Error res with
    | Some e => (Err e, w1)
    | None =>
        match GetCreatedAddresses (tr_Events res) with
        | [] => (Err ErrNoNewAddress, w1)
        | newAccountAddress :: _ => GetAccount a newAccountAddress w1
        end
    end.
Proof.
  intros Hst Hweights Hkeys Hread Htx Hpipe.
  apply pipeline_Ok in Hpipe as (w2 & Hprep & Hsend & Hwait & _).
  unfold Create. rewrite Hst.
  rewrite bool_decide_eq_false_2
    by (destruct Hweights as [->|]; simpl; lia).
  rewrite (bind_Ok _ _ _ _ _ Hkeys).
  assert (Create_contracts st contractArgs [] w = (Ok read, w)) as Hcontracts.
  { rewrite <- (app_nil_r contractArgs).
    by rewrite (Create_contracts_read _ _ _ _ _ _ Hread). }
  rewrite (bind_Ok _ _ _ _ _ Hcontracts). rewrite Htx.
  rewrite (bind_Ok _ _ _ _ _ (eq_refl : lift (inr tx) _ = (Ok tx, _))).
  rewrite (bind_Ok _ _ _ _ _ Hprep).
  assert (wrap_error ErrAccountCreationFailed (SendSignedTransaction a ptx) w2
          = (Ok sent, called w2 (CallSendSignedTransaction ptx))) as Hsend'
    by (unfold wrap_error; by rewrite Hsend).
  rewrite (bind_Ok _ _ _ _ _ Hsend'), (bind_Ok _ _ _ _ _ Hwait).
  destruct (tr_Error res); [done|]. by destruct (GetCreatedAddresses _).
Qed.

(** X16: lines 241 to 279: the keys are built, every contract argument is
    [name:path] with a file that can be read, and the pipeline reports no
    error.  The one transaction [Create] submits creates an account with
    those keys and with one contract per argument, named as the argument
    says and holding the file's text, in order; [Create] then fetches the
    account at the first created address of the sealed result and returns
    what the gateway answers. *)
Theorem Create_creates (a : Accounts) (st : State) (signer : Account)
    (pubKeys : list string) (keyWeights : list Z)
    (sigAlgo : list SignatureAlgorithm) (hashAlgo : list HashAlgorithm)
    (contractArgs : list string) (read : list TemplateContract) (w : World)
    (accKeys : list AccountKey) (tx ptx : Transaction)
    (sent : SentTransaction) (res : TransactionResult) (w1 : World)
    (newAccountAddress : Address) (others : list Address)
    (answer : Error + FlowAccount) :
  state a = Some st →
  (keyWeights = [] ∨ length pubKeys = length keyWeights) →
  Create_keys pubKeys 0 keyWeights sigAlgo hashAlgo [] w = (Ok accKeys, w) →
  Forall2 (λ arg c, ∃ path, strings_SplitN2 arg = [tc_Name c; path]
                            ∧ ReadFile st path = inr (tc_Source c))
          contractArgs read →
  NewCreateAccountTransaction signer accKeys read = inr tx →
  pipeline a tx signer w = (Ok (ptx, sent, res), w1) →
  tr_Error res = None →
  GetCreatedAddresses (tr_Events res) = newAccountAddress :: others →
  gw_GetAccount (gateway a) (calls w1) newAccountAddress = answer →
  Create a signer pubKeys keyWeights sigAlgo hashAlgo contractArgs w
  = (match answer with inl e => Err e | inr account => Ok account end,
     called w1 (CallGetAccount newAccountAddress))
  ∧ tx_op ptx = OpCreateAccount accKeys read
  ∧ submitted (calls w1) = (submitted (calls w) ++ [ptx])%list.
Proof.
  intros Hst Hweights Hkeys Hread Htx Hpipe Hok Hevents Hanswer.
  rewrite (Create_sent _ _ _ _ _ _ _ _ _ _ _ _ _ _ _ _
             Hst Hweights Hkeys Hread Htx Hpipe).
  rewrite Hok, Hevents.
  apply pipeline_Ok in Hpipe as (w2 & _ & _ & _ & Hop & _ & Hsub).
  split; [|split; [|done]].
  - unfold GetAccount, gateway_call. rewrite Hanswer. by destruct answer.
  - rewrite Hop. by apply NewTransaction_inr in Htx as (-> & _).
Qed.

(** X17: lines 271 to 275: as before, but the sealed result carries no
    account-creation event.  [Create] reports that the new address could
    not be fetched, although the transaction has been submitted, and does
    not fetch any account. *)
Theorem Create_no_new_address (a : Accounts) (st : State) (signer : Account)
    (pubKeys : list string) (keyWeights : list Z)
    (sigAlgo : list SignatureAlgorithm) (hashAlgo : list HashAlgorithm)
    (contractArgs : list string) (read : list TemplateContract) (w : World)
    (accKeys : list AccountKey) (tx ptx : Transaction)
    (sent : SentTransaction) (res : TransactionResult) (w1 : World) :
  state a = Some st →
  (keyWeights = [] ∨ length pubKeys = length keyWeights) →
  Create_keys pubKeys 0 keyWeights sigAlgo hashAlgo [] w = (Ok accKeys, w) →
  Forall2 (λ arg c, ∃ path, strings_SplitN2 arg = [tc_Name c; path]
                            ∧ ReadFile st path = inr (tc_Source c))
          contractArgs read →
  NewCreateAccountTransaction signer accKeys read = inr tx →
  pipeline a tx signer w = (Ok (ptx, sent, res), w1) →
  tr_Error res = None →
  Forall (λ ev, ∀ address, ev ≠ AccountCreated address) (tr_Events res) →
  Create a signer pubKeys keyWeights sigAlgo hashAlgo contractArgs w
  = (Err ErrNoNewAddress, w1)
  ∧ submitted (calls w1) = (submitted (calls w) ++ [ptx])%list
  ∧ ∃ earlier,
      calls w1
      = (earlier ++ [CallGetTransactionResult (sent_ID sent) true])%list.
Proof.
  intros Hst Hweights Hkeys Hread Htx Hpipe Hok Hevents.
  rewrite (Create_sent _ _ _ _ _ _ _ _ _ _ _ _ _ _ _ _
             Hst Hweights Hkeys Hread Htx Hpipe).
  rewrite Hok.
  assert (GetCreatedAddresses (tr_Events res) = []) as ->.
  { unfold GetCreatedAddresses. induction Hevents as [|ev evs Hev _ IH]; [done|].
    destruct ev as [address|]; [by destruct (Hev address)|]. exact IH. }
  apply pipeline_Ok in Hpipe as (w2 & _ & _ & Hwait & _ & _ & Hsub).
  split; [done|]. split; [done|].
  unfold GetTransactionResult in Hwait. apply gateway_call_world in Hwait as ->.
  by eexists.
Qed.

(** X25: lines 230 to 233: the keys are built, the arguments before [arg]
    name files that can be read, and [arg] is [name:path] with a file that
    cannot be read.  [Create] returns the error of the reader as it is; it
    has called no gateway. *)
Theorem Create_unreadable_contract (a : Accounts) (st : State)
    (signer : Account) (pubKeys : list string) (keyWeights : list Z)
    (sigAlgo : list SignatureAlgorithm) (hashAlgo : list HashAlgorithm)
    (pre : list string) (arg name path : string) (post : list string)
    (read : list TemplateContract) (w : World) (accKeys : list AccountKey)
    (w' : World) (e : Error) :
  state a = Some st →
  (keyWeights = [] ∨ length pubKeys = length keyWeights) →
  Create_keys pubKeys 0 keyWeights sigAlgo hashAlgo [] w = (Ok accKeys, w') →
  Forall2 (λ arg c, ∃ path, strings_SplitN2 arg = [tc_Name c; path]
                            ∧ ReadFile st path = inr (tc_Source c))
          pre read →
  strings_SplitN2 arg = [name; path] →
  ReadFile st path = inl e →
  Create a signer pubKeys keyWeights sigAlgo hashAlgo (pre ++ arg :: post) w
  = (Err e, w).
Proof.
  intros Hst Hweights Hkeys Hread Hsplit Hfile.
  pose proof (Create_keys_world _ _ _ _ _ _ _ _ _ Hkeys) as ->.
  unfold Create. rewrite Hst.
  rewrite bool_decide_eq_false_2
    by (destruct Hweights as [->|]; simpl; lia).
  rewrite (bind_Ok _ _ _ _ _ Hkeys). apply bind_Err.
  rewrite (Create_contracts_read _ _ _ _ _ _ Hread).
  cbn [Create_contracts]. rewrite Hsplit, Hfile. done.
Qed.

(** X26: lines 255 to 258: the creation transaction is built and prepared,
    and the gateway refuses it.  [Create] returns the refusal wrapped as a
    failed account creation; the send is its last gateway call. *)
Theorem Create_send_refused (a : Accounts) (st : State) (signer : Account)
    (pubKeys : list string) (keyWeights : list Z)
    (sigAlgo : list SignatureAlgorithm) (hashAlgo : list HashAlgorithm)
    (contractArgs : list string) (read : list TemplateContract) (w : World)
    (accKeys : list AccountKey) (tx ptx : Transaction) (w1 : World)
    (e : Error) :
  state a = Some st →
  (keyWeights = [] ∨ length pubKeys = length keyWeights) →
  Create_keys pubKeys 0 keyWeights sigAlgo hashAlgo [] w = (Ok accKeys, w) →
  Forall2 (λ arg c, ∃ path, strings_SplitN2 arg = [tc_Name c; path]
                            ∧ ReadFile st path = inr (tc_Source c))
          contractArgs read →
  NewCreateAccountTransaction signer accKeys read = inr tx →
  prepareTransaction a tx signer w = (Ok ptx, w1) →
  gw_SendSignedTransaction (gateway a) (calls w1) ptx = inl e →
  Create a signer pubKeys keyWeights sigAlgo hashAlgo contractArgs w
  = (Err (ErrAccountCreationFailed e), called w1 (CallSendSignedTransaction ptx))
  ∧ message (ErrAccountCreationFailed e)
    = "account creation transaction failed: " +:+ message e
  ∧ calls w1 = (calls w ++ [CallGetLatestBlock;
                            CallGetAccount (acc_address signer)])%list.
Proof.
  intros Hst Hweights Hkeys Hread Htx Hprep Hsend.
  split; [|split; [done|]].
  - unfold Create. rewrite Hst.
    rewrite bool_decide_eq_false_2
      by (destruct Hweights as [->|]; simpl; lia).
    rewrite (bind_Ok _ _ _ _ _ Hkeys).
    assert (Create_contracts st contractArgs [] w = (Ok read, w)) as Hcontracts.
    { rewrite <- (app_nil_r contractArgs).
      by rewrite (Create_contracts_read _ _ _ _ _ _ Hread). }
    rewrite (bind_Ok _ _ _ _ _ Hcontracts). rewrite Htx.
    rewrite (bind_Ok _ _ _ _ _ (eq_refl : lift (inr tx) _ = (Ok tx, _))).
    rewrite (bind_Ok _ _ _ _ _ Hprep). apply bind_Err.
    unfold wrap_error, SendSignedTransaction, gateway_call. by rewrite Hsend.
  - by apply prepareTransaction_Ok in Hprep as (_ & _ & _ & ->).
Qed.

Lemma Create_contracts_length st : ∀ contractArgs contracts w result w',
  Create_contracts st contractArgs contracts w = (Ok result, w') →
  length result = (length contracts + length contractArgs)%nat.
Proof.
  induction contractArgs as [|contract rest IH];
    intros contracts w result w' E.
  - injection E as <- <-. simpl. lia.
  - cbn [Create_contracts] in E.
    destruct (strings_SplitN2 contract) as [|name [|path [|]]]; try done.
    apply bind_Ok_inv in E as (source & w1 & _ & E).
    apply IH in E. rewrite length_app in E. simpl in *. lia.
Qed.

(** X18: whatever [Create] returns, it has handed at most one transaction to the
    gateway, and exactly one when it returns normally: a signed transaction,
    paid for by the signer, that creates an account with one key per public
    key and one contract per contract argument. *)
Theorem Create_submits_at_most_once (a : Accounts) (signer : Account)
    (pubKeys : list string) (keyWeights : list Z)
    (sigAlgo : list SignatureAlgorithm) (hashAlgo : list HashAlgorithm)
    (contractArgs : list string) (w : World) (r : Outcome FlowAccount)
    (w' : World) :
  Create a signer pubKeys keyWeights sigAlgo hashAlgo contractArgs w = (r, w') →
  (submitted (calls w') = submitted (calls w) ∧ ∀ v, r ≠ Ok v)
  ∨ ∃ ptx keys contracts,
      submitted (calls w') = (submitted (calls w) ++ [ptx])%list
      ∧ tx_signed ptx = true
      ∧ tx_signer ptx = signer
      ∧ tx_payer ptx = acc_address signer
      ∧ tx_op ptx = OpCreateAccount keys contracts
      ∧ length keys = length pubKeys
      ∧ length contracts = length contractArgs.
Proof.
  unfold Create. intros E.
  destruct (state a) as [st|]; [|injection E as <- <-; left; by split].
  case_bool_decide; [injection E as <- <-; left; by split|].
  apply bind_inv in E as (r1 & w1 & E1 & E).
  pose proof (Create_keys_world _ _ _ _ _ _ _ _ _ E1) as ->.
  destruct r1 as [accKeys| |]; [|destruct E as [-> ->]; left; by split..].
  apply Create_keys_Ok_inv in E1 as (-> & _ & _). rewrite app_nil_l in E.
  cbv beta in E. apply bind_inv in E as (r2 & w2 & E2 & E).
  pose proof (Create_contracts_world _ _ _ _ _ _ E2) as ->.
  destruct r2 as [contracts| |]; [|destruct E as [-> ->]; left; by split..].
  apply Create_contracts_length in E2. simpl in E2.
  cbv beta in E.
  destruct (NewCreateAccountTransaction _ _ _) as [e|tx] eqn:Htx.
  { injection E as <- <-. left. by split. }
  apply NewTransaction_inr in Htx as (Hop & Hsigner & Hpayer).
  rewrite (bind_Ok _ _ _ _ _ (eq_refl : lift (inr tx) _ = (Ok tx, _))) in E.
  apply bind_inv in E as (r3 & wc & E3 & E).
  rewrite <- (submits_nothing_prepareTransaction _ _ _ _ _ _ E3).
  destruct r3 as [ptx| |]; [|destruct E as [-> ->]; left; by split..].
  apply prepareTransaction_kept in E3 as (Hop3 & Hsigner3 & Hpayer3 & Hsigned).
  cbv beta in E. apply bind_inv in E as (r4 & wd & E4 & E).
  apply wrap_error_inv in E4 as (r5 & E4 & ->).
  unfold SendSignedTransaction in E4. apply gateway_call_world in E4 as ->.
  right. eexists ptx, _, contracts.
  split; [|rewrite Hsigner3, Hpayer3, Hop3, Hop;
           repeat split; try done; unfold built_keys; apply length_imap].
  assert (submitted (calls (called wc (CallSendSignedTransaction ptx)))
          = (submitted (calls wc) ++ [ptx])%list) as <-
    by (simpl; by rewrite submitted_app).
  destruct r5 as [sent| |]; [|by destruct E as [_ ->]..].
  cbv beta in E. apply bind_inv in E as (r6 & we & E6 & E).
  rewrite <- (submits_nothing_GetTransactionResult _ _ _ _ _ _ E6).
  destruct r6 as [result| |]; [|by destruct E as [_ ->]..].
  cbv beta in E. destruct (tr_Error result); [by injection E as _ <-|].
  destruct (GetCreatedAddresses _); [by injection E as _ <-|].
  by rewrite (submits_nothing_GetAccount _ _ _ _ _ E).
Qed.

(** Without explicit weights every key the loop builds has the threshold. *)
Lemma built_keys_default_weight (pubKeys : list string) i
    (sigAlgo : list SignatureAlgorithm) (hashAlgo : list HashAlgorithm) :
  Forall (λ k, Weight k = AccountKeyWeightThreshold)
         (built_keys pubKeys i [] sigAlgo hashAlgo).
Proof.
  apply Forall_lookup. intros j k. rewrite built_keys_lookup.
  destruct (pubKeys !! j); [|done]. by intros [= <-].
Qed.

(** The transaction [Create] submits carries the keys its loop built. *)
Lemma Create_submitted_keys a signer (pubKeys : list string)
    (keyWeights : list Z) (sigAlgo : list SignatureAlgorithm)
    (hashAlgo : list HashAlgorithm) (contractArgs : list string) w r w' :
  Create a signer pubKeys keyWeights sigAlgo hashAlgo contractArgs w = (r, w') →
  (submitted (calls w') = submitted (calls w) ∧ ∀ v, r ≠ Ok v)
  ∨ ∃ ptx contracts,
      submitted (calls w') = (submitted (calls w) ++ [ptx])%list
      ∧ tx_op ptx
        = OpCreateAccount (built_keys pubKeys 0 keyWeights sigAlgo hashAlgo)
            contracts.
Proof.
  unfold Create. intros E.
  destruct (state a) as [st|]; [|injection E as <- <-; left; by split].
  case_bool_decide; [injection E as <- <-; left; by split|].
  apply bind_inv in E as (r1 & w1 & E1 & E).
  pose proof (Create_keys_world _ _ _ _ _ _ _ _ _ E1) as ->.
  destruct r1 as [accKeys| |]; [|destruct E as [-> ->]; left; by split..].
  apply Create_keys_Ok_inv in E1 as (-> & _ & _). rewrite app_nil_l in E.
  cbv beta in E. apply bind_inv in E as (r2 & w2 & E2 & E).
  pose proof (Create_contracts_world _ _ _ _ _ _ E2) as ->.
  destruct r2 as [contracts| |]; [|destruct E as [-> ->]; left; by split..].
  cbv beta in E.
  destruct (NewCreateAccountTransaction _ _ _) as [e|tx] eqn:Htx.
  { injection E as <- <-. left. by split. }
  apply NewTransaction_inr in Htx as (Hop & _ & _).
  rewrite (bind_Ok _ _ _ _ _ (eq_refl : lift (inr tx) _ = (Ok tx, _))) in E.
  apply bind_inv in E as (r3 & wc & E3 & E).
  rewrite <- (submits_nothing_prepareTransaction _ _ _ _ _ _ E3).
  destruct r3 as [ptx| |]; [|destruct E as [-> ->]; left; by split..].
  apply prepareTransaction_kept in E3 as (Hop3 & _ & _ & _).
  cbv beta in E. apply bind_inv in E as (r4 & wd & E4 & E).
  apply wrap_error_inv in E4 as (r5 & E4 & ->).
  unfold SendSignedTransaction in E4. apply gateway_call_world in E4 as ->.
  right. exists ptx, contracts. split; [|by rewrite Hop3, Hop].
  assert (submitted (calls (called wc (CallSendSignedTransaction ptx)))
          = (submitted (calls wc) ++ [ptx])%list) as <-
    by (simpl; by rewrite submitted_app).
  destruct r5 as [sent| |]; [|by destruct E as [_ ->]..].
  cbv beta in E. apply bind_inv in E as (r6 & we & E6 & E).
  rewrite <- (submits_nothing_GetTransactionResult _ _ _ _ _ _ E6).
  destruct r6 as [result| |]; [|by destruct E as [_ ->]..].
  cbv beta in E. destruct (tr_Error result); [by injection E as _ <-|].
  destruct (GetCreatedAddresses _); [by injection E as _ <-|].
  by rewrite (submits_nothing_GetAccount _ _ _ _ _ E).
Qed.

(** C7, as the code has it: on a service that has a project state, a
    non-empty weight list whose length differs from the number of public
    keys makes [Create] fail with the count-mismatch error before any
    gateway call.  Without explicit weights every account key [Create]
    constructs has the full-weight threshold: whatever [Create] returns,
    the transaction it has submitted, and it has submitted one whenever it
    returns an account, creates the account with one key per public key,
    each of the threshold weight; on the way, every key the loop builds has
    that weight, the loop building one key per public key when the
    algorithm lists cover them and the keys are valid.  (Without a project
    state [Create] returns [config.ErrDoesNotExist] before it looks at the
    weights.) *)
Theorem Create_weights (a : Accounts) (st : State) (signer : Account)
    (pubKeys : list string) (keyWeights : list Z)
    (sigAlgo : list SignatureAlgorithm) (hashAlgo : list HashAlgorithm)
    (contractArgs : list string) (w : World) :
  state a = Some st →
  ((0 < length keyWeights)%nat → length pubKeys ≠ length keyWeights →
   Create a signer pubKeys keyWeights sigAlgo hashAlgo contractArgs w
   = (Err (ErrKeysWeightsMismatch (length pubKeys) (length keyWeights)), w))
  ∧ (keyWeights = [] →
     (∀ r w',
        Create a signer pubKeys keyWeights sigAlgo hashAlgo contractArgs w
        = (r, w') →
        (submitted (calls w') = submitted (calls w) ∧ ∀ v, r ≠ Ok v)
        ∨ ∃ ptx keys contracts,
            submitted (calls w') = (submitted (calls w) ++ [ptx])%list
            ∧ tx_op ptx = OpCreateAccount keys contracts
            ∧ length keys = length pubKeys
            ∧ Forall (λ k, Weight k = AccountKeyWeightThreshold) keys)
     ∧ (∀ accKeys w',
        Create_keys pubKeys 0 keyWeights sigAlgo hashAlgo [] w = (Ok accKeys, w') →
        length accKeys = length pubKeys
        ∧ Forall (λ k, Weight k = AccountKeyWeightThreshold) accKeys)
     ∧ ((length pubKeys ≤ length sigAlgo)%nat →
        (length pubKeys ≤ length hashAlgo)%nat →
        Forall (λ k, AccountKey_Validate k = None)
               (built_keys pubKeys 0 keyWeights sigAlgo hashAlgo) →
        Create_keys pubKeys 0 keyWeights sigAlgo hashAlgo [] w
        = (Ok (built_keys pubKeys 0 keyWeights sigAlgo hashAlgo), w))).
Proof.
  intros Hst. split.
  - intros Hpos Hne. unfold Create. rewrite Hst.
    by rewrite bool_decide_eq_true_2.
  - intros ->. split; [|split].
    + intros r w' E.
      apply Create_submitted_keys in E
        as [Hnone|(ptx & contracts & Hsub & Hop)]; [by left|].
      right. exists ptx, (built_keys pubKeys 0 [] sigAlgo hashAlgo), contracts.
      split; [done|]. split; [done|].
      split; [unfold built_keys; apply length_imap|].
      apply built_keys_default_weight.
    + intros accKeys w' E.
      by apply Create_keys_default_weight in E as (new & -> & Hlen & Hall).
    + intros Hs Hh Hvalid. by rewrite Create_keys_built.
Qed.

End CreateMore.

(** ** The staking queries *)

Lemma query_bind_inv {A B} (m : Query A) (k : A → Query B) cs r cs' :
  (m ≫= k) cs = (r, cs') →
  ∃ r1 cs1, m cs = (r1, cs1)
    ∧ match r1 with
      | Returned a => k a cs1 = (r, cs')
      | Failed e => r = Failed e ∧ cs' = cs1
      | Panicked c => r = Panicked c ∧ cs' = cs1
      end.
Proof.
  unfold mbind, Query_bind, query_bind.
  destruct (m cs) as [[a|e|c] cs1]; intros E;
    eexists _, _; (split; [done|]); by (done || injection E as <- <-).
Qed.

Lemma query_bind_Returned {A B} (m : Query A) (k : A → Query B) cs a cs' :
  m cs = (Returned a, cs') → (m ≫= k) cs = k a cs'.
Proof. intros E. unfold mbind, Query_bind, query_bind. by rewrite E. Qed.

Lemma ExecuteScript_inv g text script arguments cs r cs' :
  ExecuteScript g text script arguments cs = (r, cs') →
  cs' = (cs ++ [{| sc_script := script; sc_arguments := arguments |}])%list
  ∧ match gw_ExecuteScript g cs script arguments with
    | inl e => r = Failed (Errorf (text +:+ message e))
    | inr v => r = Returned v
    end.
Proof.
  unfold ExecuteScript.
  destruct (gw_ExecuteScript g cs script arguments); by intros [= <- <-].
Qed.

Section StakingFacts.
Context {L : Libraries} {F : Flowkit} {K : StakingLibraries}.

(** The first loop of [StakingInfo] executes no script and never fails with
    an error.  When it comes to its end, every id is a string and the keys
    of the map are the keys it started with and the ids; when it panics, it
    has met an id that is not a string. *)
Lemma StakingInfo_nodes_inv : ∀ stakingInfos nodeStakes cs r cs',
  StakingInfo_nodes stakingInfos nodeStakes cs = (r, cs') →
  cs' = cs
  ∧ match r with
    | Returned nodeStakes' =>
        Forall (λ info, ∀ v, info !! "id" = Some v → ∃ s, v = CString s)
               stakingInfos
        ∧ (∀ k, is_Some (nodeStakes' !! k)
                ↔ is_Some (nodeStakes !! k)
                  ∨ ∃ info, info ∈ stakingInfos
                            ∧ info !! "id" = Some (CString k))
    | Failed _ => False
    | Panicked c =>
        ∃ info v, info ∈ stakingInfos ∧ info !! "id" = Some v
                  ∧ (∀ s, v ≠ CString s) ∧ c = NotString (Some v)
    end.
Proof.
  induction stakingInfos as [|info rest IH]; intros nodeStakes cs r cs' E.
  - injection E as <- <-. split; [done|]. split; [constructor|].
    intros k. split; [by left|]. intros [?|(info & Hin & _)]; [done|].
    by apply elem_of_nil in Hin.
  - cbn [StakingInfo_nodes] in E.
    destruct (info !! "id") as [nodeID|] eqn:Hid.
    + destruct nodeID as [s| | |];
        try (injection E as <- <-; split; [done|];
             eexists info, _; split; [left|]; by repeat split).
      rewrite (query_bind_Returned _ _ _ s cs eq_refl) in E.
      apply IH in E as [-> Hr]. split; [done|].
      destruct r as [nodeStakes'|e|c]; [|done|].
      * destruct Hr as [Hall Hkeys]. split.
        { constructor; [|done]. intros v. rewrite Hid. intros [= <-]. eauto. }
        intros k. rewrite Hkeys. split.
        -- intros [Hk|(info' & Hin & Hk)].
           ++ destruct (decide (s = k)) as [<-|Hne].
              ** right. exists info. split; [left|done].
              ** left. by rewrite lookup_insert_ne in Hk.
           ++ right. exists info'. split; [by right|done].
        -- intros [Hk|(info' & Hin & Hk)].
           ++ left. destruct (decide (s = k)) as [<-|Hne].
              ** rewrite lookup_insert_eq. by eexists.
              ** by rewrite lookup_insert_ne.
           ++ apply elem_of_cons in Hin as [->|Hin].
              ** left. rewrite Hid in Hk. injection Hk as ->.
                 rewrite lookup_insert_eq. by eexists.
              ** right. by exists info'.
      * destruct Hr as (info' & v & Hin & Hv & Hnot & ->).
        exists info', v. split; [by right|done].
    + apply IH in E as [-> Hr]. split; [done|].
      destruct r as [nodeStakes'|e|c]; [|done|].
      * destruct Hr as [Hall Hkeys]. split.
        { constructor; [|done]. intros v. by rewrite Hid. }
        intros k. rewrite Hkeys. split.
        -- intros [Hk|(info' & Hin & Hk)]; [by left|].
           right. exists info'. split; [by right|done].
        -- intros [Hk|(info' & Hin & Hk)]; [by left|].
           apply elem_of_cons in Hin as [->|Hin]; [congruence|].
           right. by exists info'.
      * destruct Hr as (info' & v & Hin & Hv & Hnot & ->).
        exists info', v. split; [by right|done].
Qed.

(** The first loop on a list whose first id that is not a string is [v]. *)
Lemma StakingInfo_nodes_panics (pre : list (gmap string CadenceValue))
    (info : gmap string CadenceValue) (post : list (gmap string CadenceValue))
    (v : CadenceValue) :
  Forall (λ info, ∀ v, info !! "id" = Some v → ∃ s, v = CString s) pre →
  info !! "id" = Some v →
  (∀ s, v ≠ CString s) →
  ∀ nodeStakes cs,
    StakingInfo_nodes (pre ++ info :: post) nodeStakes cs
    = (Panicked (NotString (Some v)), cs).
Proof.
  intros Hpre Hid Hnot. induction Hpre as [|first pre Hfirst _ IH];
    intros nodeStakes cs.
  - simpl. rewrite Hid. destruct v as [s| | |]; try done. by destruct (Hnot s).
  - rewrite <- app_comm_cons. cbn [StakingInfo_nodes].
    destruct (first !! "id") as [nodeID|]; [|apply IH].
    destruct (Hfirst nodeID eq_refl) as [s ->].
    rewrite (query_bind_Returned _ _ _ s cs eq_refl). apply IH.
Qed.

(** The second loop executes one script per node id, in the order of the
    list, and stops at the first failure; it does not panic.  When it comes
    to its end, the keys outside the list are as they were, and when no id
    occurs twice, the value under each id is what the gateway answered for
    it. *)
Lemma StakingInfo_stakes_inv g script : ∀ nodeIDs nodeStakes cs r cs',
  StakingInfo_stakes g script nodeIDs nodeStakes cs = (r, cs') →
  (∀ c, r ≠ Panicked c)
  ∧ ∀ nodeStakes', r = Returned nodeStakes' →
      cs' = (cs ++ stake_calls script nodeIDs)%list
      ∧ (∀ k, k ∉ nodeIDs → nodeStakes' !! k = nodeStakes !! k)
      ∧ (NoDup nodeIDs →
         ∀ k, k ∈ nodeIDs →
           ∃ v earlier later,
             nodeStakes' !! k = Some (Some v)
             ∧ cs' = (earlier ++ {| sc_script := script;
                                    sc_arguments := [CString k] |} :: later)%list
             ∧ gw_ExecuteScript g earlier script [CString k] = inr v).
Proof.
  induction nodeIDs as [|nodeID rest IH]; intros nodeStakes cs r cs' E.
  - injection E as <- <-. split; [done|]. intros ? [= <-].
    split; [by rewrite app_nil_r|]. split; [done|].
    intros _ k Hk. by apply elem_of_nil in Hk.
  - cbn [StakingInfo_stakes] in E.
    apply query_bind_inv in E as (r1 & cs1 & E1 & E).
    apply ExecuteScript_inv in E1 as [-> Hanswer].
    destruct (gw_ExecuteScript g cs script [CString nodeID]) as [e|v] eqn:Hv;
      subst r1; [destruct E as [-> ->]; by split|].
    apply IH in E as [Hsafe Hret]. split; [done|].
    intros nodeStakes' ->. destruct (Hret _ eq_refl) as (-> & Hout & Hin).
    split; [by rewrite <- app_assoc|]. split.
    + intros k Hk. apply not_elem_of_cons in Hk as [Hne Hk].
      by rewrite Hout, lookup_insert_ne.
    + intros Hnd k Hk. apply NoDup_cons in Hnd as [Hfresh Hnd].
      apply elem_of_cons in Hk as [->|Hk].
      * exists v, cs, (stake_calls script rest).
        rewrite Hout, lookup_insert_eq by done.
        split; [done|]. split; [by rewrite <- app_assoc|done].
      * exact (Hin Hnd k Hk).
Qed.

(** The third loop executes no script and never fails with an error.  When
    it comes to its end, it hands back one info per info, in order: an
    info without id as it was, an info with an id with the total stake the
    map holds for the id. *)
Lemma StakingInfo_totals_inv : ∀ stakingInfos nodeStakes cs r cs',
  StakingInfo_totals stakingInfos nodeStakes cs = (r, cs') →
  cs' = cs
  ∧ (∀ e, r ≠ Failed e)
  ∧ ∀ stakingInfos', r = Returned stakingInfos' →
      Forall2 (λ info info',
                 match info !! "id" with
                 | None => info' = info
                 | Some v =>
                     ∃ id n, v = CString id
                             ∧ nodeStakes !! id = Some (Some (CUFix64 n))
                             ∧ info' = <["nodeTotalStake" := CUFix64 n]> info
                 end)
              stakingInfos stakingInfos'.
Proof.
  induction stakingInfos as [|info rest IH]; intros nodeStakes cs r cs' E.
  - injection E as <- <-. split; [done|]. split; [done|].
    intros ? [= <-]. constructor.
  - cbn [StakingInfo_totals] in E.
    destruct (info !! "id") as [nodeID|] eqn:Hid.
    + destruct nodeID as [s| | |];
        try (injection E as <- <-; by repeat split).
      rewrite (query_bind_Returned _ _ _ s cs eq_refl) in E.
      destruct (nodeStakes !! s) as [[stake|]|] eqn:Hs;
        cbn [default from_option id] in E;
        [|injection E as <- <-; by repeat split..].
      destruct stake as [|n| |];
        try (injection E as <- <-; by repeat split).
      apply query_bind_inv in E as (r1 & cs1 & E1 & E).
      apply IH in E1 as (-> & Hnofail & Hret).
      destruct r1 as [rest'|e|c];
        [|by destruct (Hnofail e)|destruct E as [-> ->]; by repeat split].
      injection E as <- <-. split; [done|]. split; [done|].
      intros ? [= <-]. constructor; [|by apply Hret].
      rewrite Hid. by exists s, n.
    + apply query_bind_inv in E as (r1 & cs1 & E1 & E).
      apply IH in E1 as (-> & Hnofail & Hret).
      destruct r1 as [rest'|e|c];
        [|by destruct (Hnofail e)|destruct E as [-> ->]; by repeat split].
      injection E as <- <-. split; [done|]. split; [done|].
      intros ? [= <-]. constructor; [|by apply Hret]. by rewrite Hid.
Qed.

Lemma keys_elem_of {V} (m : gmap string V) (k : string) :
  k ∈ (map_to_list m).*1 ↔ is_Some (m !! k).
Proof.
  rewrite list_elem_of_fmap. split.
  - intros ([k' v] & -> & Hin). apply elem_of_map_to_list in Hin. by eexists.
  - intros [v Hv]. exists (k, v). split; [done|]. by apply elem_of_map_to_list.
Qed.

(** [StakingInfo] when it returns normally, step by step. *)
Lemma StakingInfo_Returned_inv g address cs infos delegations cs' :
  StakingInfo g address cs = (Returned (infos, delegations), cs') →
  ∃ chain stakingValue delegationValue stakingInfos nodeStakes nodeStakes',
    let env := EnvFromNetwork chain in
    let cs2 := (cs ++ info_calls chain address)%list in
    GetAddressNetwork address = inr chain
    ∧ chain ≠ flow_Emulator
    ∧ gw_ExecuteScript g cs (GenerateCollectionGetAllNodeInfoScript env)
        [CAddress address] = inr stakingValue
    ∧ gw_ExecuteScript g (cs ++ take 1 (info_calls chain address))
        (GenerateCollectionGetAllDelegatorInfoScript env)
        [CAddress address] = inr delegationValue
    ∧ NewStakingInfoFromValue stakingValue = inr stakingInfos
    ∧ NewStakingInfoFromValue delegationValue = inr delegations
    ∧ StakingInfo_nodes stakingInfos ∅ cs2 = (Returned nodeStakes, cs2)
    ∧ StakingInfo_stakes g (GenerateGetTotalCommitmentBalanceScript env)
        (range_order (map_to_list nodeStakes).*1) nodeStakes cs2
      = (Returned nodeStakes', cs')
    ∧ StakingInfo_totals stakingInfos nodeStakes' cs' = (Returned infos, cs').
Proof.
  unfold StakingInfo. intros E.
  destruct (GetAddressNetwork address) as [e|chain] eqn:Hchain; [done|].
  destruct (decide (chain = flow_Emulator)) as [|Hne]; [done|].
  cbv zeta in E.
  apply query_bind_inv in E as (r1 & cs1 & E1 & E).
  apply ExecuteScript_inv in E1 as [-> Hv1].
  destruct (gw_ExecuteScript g cs _ _) as [e|stakingValue] eqn:H1; subst r1;
    [by destruct E|].
  apply query_bind_inv in E as (r2 & cs2 & E2 & E).
  apply ExecuteScript_inv in E2 as [-> Hv2].
  destruct (gw_ExecuteScript g (cs ++ _) _ _) as [e|delegationValue] eqn:H2;
    subst r2; [by destruct E|].
  destruct (NewStakingInfoFromValue stakingValue)
    as [e|stakingInfos] eqn:Hp1; [done|].
  rewrite (query_bind_Returned _ _ _ stakingInfos _ eq_refl) in E.
  destruct (NewStakingInfoFromValue delegationValue)
    as [e|delegationInfos] eqn:Hp2; [done|].
  rewrite (query_bind_Returned _ _ _ delegationInfos _ eq_refl) in E.
  apply query_bind_inv in E as (r3 & cs3 & E3 & E).
  pose proof (StakingInfo_nodes_inv _ _ _ _ _ E3) as [-> _].
  destruct r3 as [nodeStakes| |]; [|by destruct E..].
  apply query_bind_inv in E as (r4 & cs4 & E4 & E).
  destruct r4 as [nodeStakes'| |]; [|by destruct E..].
  apply query_bind_inv in E as (r5 & cs5 & E5 & E).
  pose proof (StakingInfo_totals_inv _ _ _ _ _ E5) as [-> _].
  destruct r5 as [infos'| |]; [|by destruct E..].
  injection E as <- <- <-.
  exists chain, stakingValue, delegationValue, stakingInfos, nodeStakes,
    nodeStakes'.
  unfold info_calls. cbv zeta. simpl take.
  rewrite <- app_assoc in E3, E4. by repeat split.
Qed.

(** X19: lines 154 to 173: [NodeTotalStake] does not panic.  On the emulator
    chain it fails with a fixed error and executes no script; on any other
    chain it executes one script, the total-commitment script of that chain
    with the node id as only argument, and hands back what the gateway
    answers, an error of the gateway coming back as a text that starts with
    [error getting total stake for node: ]. *)
Theorem NodeTotalStake_outcome (g : ScriptGateway) (nodeId : string)
    (chain : ChainID) (cs : list ScriptCall) :
  ∃ r cs',
    NodeTotalStake g nodeId chain cs = (r, cs')
    ∧ (∀ c, r ≠ Panicked c)
    ∧ (chain = flow_Emulator →
       r = Failed (Errorf "emulator chain not supported") ∧ cs' = cs)
    ∧ (chain ≠ flow_Emulator →
       let script :=
         GenerateGetTotalCommitmentBalanceScript (EnvFromNetwork chain) in
       cs' = (cs ++ stake_calls script [nodeId])%list
       ∧ (∀ v, r = Returned v ↔
                gw_ExecuteScript g cs script [CString nodeId] = inr v)
       ∧ (∀ e, gw_ExecuteScript g cs script [CString nodeId] = inl e →
               r = Failed (Errorf ("error getting total stake for node: "
                                   +:+ message e)))).
Proof.
  unfold NodeTotalStake.
  destruct (decide (chain = flow_Emulator)) as [Heq|Hne].
  - eexists _, _. split; [done|]. by repeat split.
  - cbv zeta. unfold ExecuteScript.
    destruct (gw_ExecuteScript g cs _ _) as [e|v] eqn:Hv;
      eexists _, _; (split; [done|]); (split; [done|]);
      (split; [done|]); intros _; (split; [done|]); split.
    + intros v. split; intros ?; congruence.
    + intros ? [= <-]. done.
    + intros v'. split; intros ?; congruence.
    + intros ? [=].
Qed.

(** X20: lines 80 to 89: when the network of the address cannot be determined
    [StakingInfo] fails with a fixed text, which drops the cause; for an
    address of the emulator it fails with the text [NodeTotalStake] has
    for that chain.  In both cases it executes no script. *)
Theorem StakingInfo_guards (g : ScriptGateway) (address : Address)
    (cs : list ScriptCall) :
  (∀ e, GetAddressNetwork address = inl e →
        StakingInfo g address cs
        = (Failed (Errorf "failed to determine network from address, check the address and network"),
           cs))
  ∧ (GetAddressNetwork address = inr flow_Emulator →
     StakingInfo g address cs
     = (Failed (Errorf "emulator chain not supported"), cs)).
Proof.
  unfold StakingInfo. split.
  - by intros e ->.
  - intros ->. by rewrite decide_True.
Qed.

(** X21: lines 96 to 134: when [StakingInfo] returns normally, it has executed
    the node-info script and the delegator-info script on the address, in
    that order, and then the total-commitment script once for each node id
    that occurs in the staking infos: no node is asked for twice, whatever
    the number of infos that name it. *)
Theorem StakingInfo_scripts (g : ScriptGateway) (address : Address)
    (cs : list ScriptCall)
    (infos delegations : list (gmap string CadenceValue))
    (cs' : list ScriptCall) :
  StakingInfo g address cs = (Returned (infos, delegations), cs') →
  ∃ chain stakingValue stakingInfos nodeIDs,
    GetAddressNetwork address = inr chain
    ∧ chain ≠ flow_Emulator
    ∧ gw_ExecuteScript g cs
        (GenerateCollectionGetAllNodeInfoScript (EnvFromNetwork chain))
        [CAddress address] = inr stakingValue
    ∧ NewStakingInfoFromValue stakingValue = inr stakingInfos
    ∧ cs' = (cs ++ info_calls chain address
                ++ stake_calls (GenerateGetTotalCommitmentBalanceScript
                                  (EnvFromNetwork chain)) nodeIDs)%list
    ∧ NoDup nodeIDs
    ∧ ∀ id, id ∈ nodeIDs
            ↔ ∃ info, info ∈ stakingInfos ∧ info !! "id" = Some (CString id).
Proof.
  intros E. apply StakingInfo_Returned_inv in E
    as (chain & stakingValue & delegationValue & stakingInfos & nodeStakes
        & nodeStakes' & Hchain & Hne & H1 & H2 & Hp1 & Hp2 & E3 & E4 & E5).
  exists chain, stakingValue, stakingInfos,
    (range_order (map_to_list nodeStakes).*1).
  apply StakingInfo_nodes_inv in E3 as (_ & _ & Hkeys).
  apply StakingInfo_stakes_inv in E4 as (_ & Hret).
  destruct (Hret _ eq_refl) as (-> & _).
  split; [done|]. split; [done|]. split; [done|]. split; [done|].
  split; [by rewrite <- app_assoc|]. split.
  - rewrite range_order_permutation. apply NoDup_fst_map_to_list.
  - intros id. rewrite range_order_permutation, keys_elem_of, Hkeys.
    split; [|by right]. intros [[v Hv]|Hinfo]; [|done].
    by rewrite lookup_empty in Hv.
Qed.

(** X22: lines 107 to 146: when [StakingInfo] returns normally, the delegation
    infos are the parsed answer of the delegator-info script, untouched, and
    the staking infos are the parsed answer of the node-info script, one for
    one and in order: an info without [id] is as it was parsed, and an info
    with an [id] has that id as a string and got, under [nodeTotalStake],
    the [UFix64] that the gateway answered when the total-commitment script
    was executed for that id. *)
Theorem StakingInfo_adds_totals (g : ScriptGateway) (address : Address)
    (cs : list ScriptCall)
    (infos delegations : list (gmap string CadenceValue))
    (cs' : list ScriptCall) :
  StakingInfo g address cs = (Returned (infos, delegations), cs') →
  ∃ chain stakingValue delegationValue stakingInfos,
    let script :=
      GenerateGetTotalCommitmentBalanceScript (EnvFromNetwork chain) in
    GetAddressNetwork address = inr chain
    ∧ gw_ExecuteScript g cs
        (GenerateCollectionGetAllNodeInfoScript (EnvFromNetwork chain))
        [CAddress address] = inr stakingValue
    ∧ gw_ExecuteScript g (cs ++ take 1 (info_calls chain address))
        (GenerateCollectionGetAllDelegatorInfoScript (EnvFromNetwork chain))
        [CAddress address] = inr delegationValue
    ∧ NewStakingInfoFromValue stakingValue = inr stakingInfos
    ∧ NewStakingInfoFromValue delegationValue = inr delegations
    ∧ Forall2 (λ info info',
                 match info !! "id" with
                 | None => info' = info
                 | Some v =>
                     ∃ id n earlier later,
                       v = CString id
                       ∧ info' = <["nodeTotalStake" := CUFix64 n]> info
                       ∧ cs' = (earlier
                                ++ {| sc_script := script;
                                      sc_arguments := [CString id] |}
                                   :: later)%list
                       ∧ gw_ExecuteScript g earlier script [CString id]
                         = inr (CUFix64 n)
                 end)
              stakingInfos infos.
Proof.
  intros E. apply StakingInfo_Returned_inv in E
    as (chain & stakingValue & delegationValue & stakingInfos & nodeStakes
        & nodeStakes' & Hchain & Hne & H1 & H2 & Hp1 & Hp2 & E3 & E4 & E5).
  exists chain, stakingValue, delegationValue, stakingInfos.
  apply StakingInfo_nodes_inv in E3 as (_ & _ & Hkeys).
  apply StakingInfo_stakes_inv in E4 as (_ & Hret).
  destruct (Hret _ eq_refl) as (_ & _ & Hin).
  apply StakingInfo_totals_inv in E5 as (_ & _ & Htotals).
  specialize (Htotals _ eq_refl).
  assert (NoDup (range_order (map_to_list nodeStakes).*1)) as Hnd
    by (rewrite range_order_permutation; apply NoDup_fst_map_to_list).
  specialize (Hin Hnd).
  cbv zeta. split; [done|]. split; [done|]. split; [done|].
  split; [done|]. split; [done|].
  apply Forall2_same_length_lookup.
  split; [by apply Forall2_length in Htotals|].
  intros i info info' Hi Hi'.
  pose proof (Forall2_lookup_lr _ _ _ _ _ _ Htotals Hi Hi') as Hpair.
  cbv beta in Hpair. revert Hpair.
  destruct (info !! "id") as [v|] eqn:Hid; [|done].
  intros (id & n & -> & Hstake & ->).
  destruct (Hin id) as (v & earlier & later & Hv & Hcs & Hanswer).
  { rewrite range_order_permutation, keys_elem_of, Hkeys. right.
    exists info. split; [|done]. by eapply list_elem_of_lookup_2. }
  exists id, n, earlier, later. rewrite Hstake in Hv. injection Hv as <-.
  by repeat split.
Qed.

(** X23: lines 118 to 123 and 149 to 151: the two info scripts answered and the
    answers parsed, but one of the staking infos has an [id] that is not a
    [cadence.String].  [StakingInfo] does not return an error: the type
    assertion of [nodeIDToString] panics on the first such id, after the two
    info scripts and before any total-commitment script. *)
Theorem StakingInfo_id_not_string (g : ScriptGateway) (address : Address)
    (cs : list ScriptCall) (chain : ChainID)
    (stakingValue delegationValue : CadenceValue)
    (pre : list (gmap string CadenceValue)) (info : gmap string CadenceValue)
    (post delegations : list (gmap string CadenceValue)) (v : CadenceValue) :
  GetAddressNetwork address = inr chain →
  chain ≠ flow_Emulator →
  gw_ExecuteScript g cs
    (GenerateCollectionGetAllNodeInfoScript (EnvFromNetwork chain))
    [CAddress address] = inr stakingValue →
  gw_ExecuteScript g (cs ++ take 1 (info_calls chain address))
    (GenerateCollectionGetAllDelegatorInfoScript (EnvFromNetwork chain))
    [CAddress address] = inr delegationValue →
  NewStakingInfoFromValue stakingValue = inr (pre ++ info :: post)%list →
  NewStakingInfoFromValue delegationValue = inr delegations →
  Forall (λ info, ∀ v, info !! "id" = Some v → ∃ s, v = CString s) pre →
  info !! "id" = Some v →
  (∀ s, v ≠ CString s) →
  StakingInfo g address cs
  = (Panicked (NotString (Some v)), (cs ++ info_calls chain address)%list).
Proof.
  intros Hchain Hne H1 H2 Hp1 Hp2 Hpre Hid Hnot.
  unfold StakingInfo. rewrite Hchain, decide_False by done. cbv zeta.
  unfold info_calls in *. cbv zeta in *. simpl take in H2.
  erewrite query_bind_Returned; [|unfold ExecuteScript; by rewrite H1].
  erewrite query_bind_Returned; [|unfold ExecuteScript; by rewrite H2].
  rewrite Hp1, Hp2.
  rewrite (query_bind_Returned _ _ _ (pre ++ info :: post)%list _ eq_refl).
  rewrite (query_bind_Returned _ _ _ delegations _ eq_refl).
  unfold mbind at 1, Query_bind, query_bind.
  rewrite (StakingInfo_nodes_panics _ _ _ _ Hpre Hid Hnot).
  by rewrite <- app_assoc.
Qed.

(** X28: lines 96 to 110: on a chain other than the emulator, a failure of
    the node-info script is reported at once and the delegator-info script
    is not executed; a failure of the delegator-info script is reported
    whatever the node-info script answered; and a node-info answer that
    does not parse is reported only after the delegator-info script was
    executed too. *)
Theorem StakingInfo_script_failure (g : ScriptGateway) (address : Address)
    (cs : list ScriptCall) (chain : ChainID) :
  let env := EnvFromNetwork chain in
  let answer1 :=
    gw_ExecuteScript g cs (GenerateCollectionGetAllNodeInfoScript env)
      [CAddress address] in
  let answer2 :=
    gw_ExecuteScript g (cs ++ take 1 (info_calls chain address))
      (GenerateCollectionGetAllDelegatorInfoScript env) [CAddress address] in
  GetAddressNetwork address = inr chain →
  chain ≠ flow_Emulator →
  (∀ e, answer1 = inl e →
        StakingInfo g address cs
        = (Failed (Errorf ("error getting staking info: " +:+ message e)),
           (cs ++ take 1 (info_calls chain address))%list))
  ∧ (∀ v e, answer1 = inr v → answer2 = inl e →
        StakingInfo g address cs
        = (Failed (Errorf ("error getting delegation info: " +:+ message e)),
           (cs ++ info_calls chain address)%list))
  ∧ (∀ v v' e, answer1 = inr v → answer2 = inr v' →
        NewStakingInfoFromValue v = inl e →
        StakingInfo g address cs
        = (Failed (Errorf ("error parsing staking info: " +:+ message e)),
           (cs ++ info_calls chain address)%list)).
Proof.
  intros env answer1 answer2 Hchain Hne. subst env answer1 answer2.
  unfold StakingInfo. rewrite Hchain, decide_False by done. cbv zeta.
  unfold info_calls. cbv zeta. simpl take.
  unfold mbind, Query_bind, query_bind, ExecuteScript.
  split; [|split].
  - intros e ->. done.
  - intros v e -> ->. by rewrite <- app_assoc.
  - intros v v' e -> -> ->. by rewrite <- app_assoc.
Qed.

(** The third loop when it panics: an id is not a string, or the map does
    not hold a [UFix64] for an id. *)
Lemma StakingInfo_totals_panic_inv : ∀ stakingInfos nodeStakes cs c cs',
  StakingInfo_totals stakingInfos nodeStakes cs = (Panicked c, cs') →
  ∃ info v,
    info ∈ stakingInfos ∧ info !! "id" = Some v
    ∧ (((∀ s, v ≠ CString s) ∧ c = NotString (Some v))
       ∨ ∃ id, v = CString id
               ∧ c = NotUFix64 (default None (nodeStakes !! id))
               ∧ ∀ n, default None (nodeStakes !! id) ≠ Some (CUFix64 n)).
Proof.
  induction stakingInfos as [|info rest IH]; intros nodeStakes cs c cs' E;
    [done|].
  cbn [StakingInfo_totals] in E.
  destruct (info !! "id") as [nodeID|] eqn:Hid.
  - destruct nodeID as [s|n|addr|text].
    2-4: injection E as <- <-; eexists info, _;
         (split; [left|]); (split; [done|]); left; by split.
    rewrite (query_bind_Returned _ _ _ s cs eq_refl) in E.
    destruct (default None (nodeStakes !! s)) as [stake|] eqn:Hs.
    + destruct stake as [s'|n|addr|text].
      2: { apply query_bind_inv in E as (r1 & cs1 & E1 & E).
           destruct r1 as [a|e|c0]; [done|by destruct E|].
           destruct E as [[= <-] ->].
           apply IH in E1 as (info0 & v & Hin & Hrest).
           exists info0, v. split; [by right|done]. }
      all: injection E as <- <-; exists info, (CString s);
           (split; [left|]); (split; [done|]); right; exists s;
           rewrite Hs; by repeat split.
    + injection E as <- <-. exists info, (CString s).
      split; [left|]. split; [done|]. right. exists s. rewrite Hs.
      by repeat split.
  - apply query_bind_inv in E as (r1 & cs1 & E1 & E).
    destruct r1 as [a|e|c0]; [done|by destruct E|].
    destruct E as [[= <-] ->].
    apply IH in E1 as (info0 & v & Hin & Hrest).
    exists info0, v. split; [by right|done].
Qed.

(** X29: lines 116 to 151: [StakingInfo] panics in two cases only.  Either
    a staking info has an [id] that is not a [cadence.String], and then the
    two info scripts are all it has executed; or the gateway answered the
    total-commitment script of some node with a value that is not a
    [cadence.UFix64].  It never panics on a node it has not asked for. *)
Theorem StakingInfo_panics (g : ScriptGateway) (address : Address)
    (cs : list ScriptCall) (c : Conversion) (cs' : list ScriptCall) :
  StakingInfo g address cs = (Panicked c, cs') →
  ∃ chain,
    GetAddressNetwork address = inr chain
    ∧ ((∃ v, c = NotString (Some v) ∧ (∀ s, v ≠ CString s)
             ∧ cs' = (cs ++ info_calls chain address)%list)
       ∨ ∃ id value earlier later,
           c = NotUFix64 (Some value)
           ∧ (∀ n, value ≠ CUFix64 n)
           ∧ cs' = (earlier
                    ++ {| sc_script :=
                            GenerateGetTotalCommitmentBalanceScript
                              (EnvFromNetwork chain);
                          sc_arguments := [CString id] |} :: later)%list
           ∧ gw_ExecuteScript g earlier
               (GenerateGetTotalCommitmentBalanceScript (EnvFromNetwork chain))
               [CString id] = inr value).
Proof.
  unfold StakingInfo. intros E.
  destruct (GetAddressNetwork address) as [e|chain] eqn:Hchain; [done|].
  destruct (decide (chain = flow_Emulator)) as [|Hne]; [done|].
  exists chain. split; [done|]. cbv zeta in E.
  apply query_bind_inv in E as (r1 & cs1 & E1 & E).
  apply ExecuteScript_inv in E1 as [-> Hv1].
  destruct (gw_ExecuteScript g cs _ _) as [e|stakingValue]; subst r1;
    [by destruct E|].
  apply query_bind_inv in E as (r2 & cs2 & E2 & E).
  apply ExecuteScript_inv in E2 as [-> Hv2].
  destruct (gw_ExecuteScript g (cs ++ _) _ _) as [e|delegationValue];
    subst r2; [by destruct E|].
  destruct (NewStakingInfoFromValue stakingValue)
    as [e|stakingInfos]; [done|].
  rewrite (query_bind_Returned _ _ _ stakingInfos _ eq_refl) in E.
  destruct (NewStakingInfoFromValue delegationValue)
    as [e|delegationInfos]; [done|].
  rewrite (query_bind_Returned _ _ _ delegationInfos _ eq_refl) in E.
  rewrite <- app_assoc in E. change ([_] ++ [_])%list
    with (info_calls chain address) in E.
  apply query_bind_inv in E as (r3 & cs3 & E3 & E).
  apply StakingInfo_nodes_inv in E3 as [-> Hnodes].
  destruct r3 as [nodeStakes|e|c3]; [|done|].
  2: { destruct E as [[= <-] ->].
       destruct Hnodes as (info & v & _ & _ & Hnot & ->). left. by exists v. }
  destruct Hnodes as [Hstrings Hkeys].
  apply query_bind_inv in E as (r4 & cs4 & E4 & E).
  apply StakingInfo_stakes_inv in E4 as [Hsafe Hret].
  destruct r4 as [nodeStakes'|e|c4];
    [|by destruct E|by destruct (Hsafe c4)].
  destruct (Hret _ eq_refl) as (-> & _ & Hin).
  assert (NoDup (range_order (map_to_list nodeStakes).*1)) as Hnd
    by (rewrite range_order_permutation; apply NoDup_fst_map_to_list).
  specialize (Hin Hnd).
  apply query_bind_inv in E as (r5 & cs5 & E5 & E).
  pose proof (StakingInfo_totals_inv _ _ _ _ _ E5) as [-> _].
  destruct r5 as [infos'|e|c5]; [done|by destruct E|].
  destruct E as [[= <-] ->].
  apply StakingInfo_totals_panic_inv in E5
    as (info & v & Hinfo & Hid & [[Hnot _]|(id & -> & -> & Hstake)]).
  { rewrite Forall_forall in Hstrings.
    destruct (Hstrings info Hinfo v Hid) as [s ->]. by destruct (Hnot s). }
  destruct (Hin id) as (value & earlier & later & Hvalue & Hcs & Hanswer).
  { rewrite range_order_permutation, keys_elem_of, Hkeys. right.
    by exists info. }
  right. exists id, value, earlier, later. rewrite Hvalue in Hstake |- *.
  split; [done|]. split; [|done]. intros n ->. by destruct (Hstake n).
Qed.

End StakingFacts.

(** ** The accounts service on the fixture, once more *)

(** Preparing a removal on the chain where [alice] holds an older [C]. *)
Lemma prepareTransaction_outcome_witness :
  ∃ r w',
    prepareTransaction (F:=Sample.flowkit)
      (Fixture.service Fixture.old_chain) Cases.removalC Fixture.alice
      Fixture.world
    = (r, w')
    ∧ heap w' = heap Fixture.world
    ∧ submitted (calls w') = []
    ∧ calls w' = [CallGetLatestBlock; CallGetAccount 1%N]
    ∧ ∀ f, r ≠ Panic f.
Proof.
  destruct (prepareTransaction (F:=Sample.flowkit)
              (Fixture.service Fixture.old_chain) Cases.removalC Fixture.alice
              Fixture.world) as [r w'] eqn:E.
  exists r, w'. split; [reflexivity|].
  destruct (prepareTransaction_outcome (F:=Sample.flowkit)
              (Fixture.service Fixture.old_chain) Cases.removalC Fixture.alice
              Fixture.world r w' E)
    as (Hheap & Hsub & Hsafe & [[_ (e & _ & Hblock)]|Hcalls] & _).
  - discriminate Hblock.
  - split; [exact Hheap|]. split; [exact Hsub|]. split; [exact Hcalls|].
    exact Hsafe.
Defined.

(** [alice] holds an older [C] and the update flag is off. *)
Lemma AddContract_exists_without_update_witness :
  heap Fixture.world !! 0 = Some Fixture.scriptC
  ∧ ∃ w',
      AddContract (L:=Sample.libraries) (F:=Sample.flowkit)
        (Fixture.service Fixture.old_chain) Fixture.alice 0 "emulator" false
        Fixture.world
      = (Err (ErrContractExists "C" "alice"), w')
      ∧ submitted (calls w') = []
      ∧ s_code <$> heap w' !! 0 = Some Fixture.resolvedC.
Proof.
  split; [reflexivity|].
  edestruct (AddContract_exists_without_update (L:=Sample.libraries)
               (F:=Sample.flowkit) (Fixture.service Fixture.old_chain)
               Fixture.alice 0 "emulator" Fixture.world Fixture.scriptC
               Fixture.resolvedC "C" "pub contract C { }")
    as (w' & Hrun & _ & Hsub & Hheap);
    [evaluate..|].
  exists w'. split; [exact Hrun|]. split; [exact Hsub|]. by rewrite Hheap.
Defined.

(** The project deploys [A] only, and [C] imports [B] as well. *)
Lemma AddContract_unresolved_import_witness :
  state (Cases.service_of (Sample.emulator Fixture.empty_chain) Cases.projectA)
  = Some Cases.projectA
  ∧ ∃ imp w',
      AddContract (L:=Sample.libraries) (F:=Sample.flowkit)
        (Cases.service_of (Sample.emulator Fixture.empty_chain) Cases.projectA)
        Fixture.alice 0 "emulator" false Fixture.world
      = (Err (ErrUnresolvedImport imp), w')
      ∧ calls w' = [].
Proof.
  split; [reflexivity|].
  edestruct (AddContract_unresolved_import (L:=Sample.libraries)
               (F:=Sample.flowkit)
               (Cases.service_of (Sample.emulator Fixture.empty_chain)
                                 Cases.projectA)
               Fixture.alice 0 "emulator" false Fixture.world Fixture.scriptC
               Cases.projectA [Fixture.contractA])
    as (imp & w' & Hrun & _ & _ & Hcalls);
    [reflexivity|reflexivity|reflexivity|reflexivity| |].
  - change (cadence_imports (s_code Fixture.scriptC))
      with (Sample.imports_of Fixture.sourceC).
    replace (Sample.imports_of Fixture.sourceC)
      with ["./contractA.cdc"; "./contractB.cdc"] by evaluate.
    apply Exists_cons_tl, Exists_cons_hd. evaluate.
  - exists imp, w'. split; [exact Hrun|exact Hcalls].
Defined.

(** A contract without imports, on a service with a project state and on a
    service without one. *)
Lemma AddContract_without_imports_witness :
  AddContract (L:=Sample.libraries) (F:=Sample.flowkit)
    (Cases.service_of (Sample.emulator Fixture.empty_chain) Cases.files)
    Fixture.alice 0 "emulator" true Cases.worldHello
  = AddContract (L:=Sample.libraries) (F:=Sample.flowkit)
      Fixture.stateless Fixture.alice 0 "testnet" true Cases.worldHello.
Proof.
  apply (AddContract_without_imports (L:=Sample.libraries) (F:=Sample.flowkit)
           (Cases.service_of (Sample.emulator Fixture.empty_chain) Cases.files)
           Fixture.stateless Fixture.alice 0 "emulator" "testnet" true
           Cases.worldHello Cases.scriptHello);
    reflexivity.
Defined.

(** Adding [C] to the empty account of [alice]. *)
Lemma AddContract_submits_at_most_once_witness :
  ∃ r w',
    AddContract (L:=Sample.libraries) (F:=Sample.flowkit)
      (Fixture.service Fixture.empty_chain) Fixture.alice 0 "emulator" false
      Fixture.world
    = (r, w')
    ∧ (length (submitted (calls w')) ≤ 1)%nat.
Proof.
  destruct (AddContract (L:=Sample.libraries) (F:=Sample.flowkit)
              (Fixture.service Fixture.empty_chain) Fixture.alice 0 "emulator"
              false Fixture.world) as [r w'] eqn:E.
  exists r, w'. split; [reflexivity|].
  destruct (AddContract_submits_at_most_once (L:=Sample.libraries)
              (F:=Sample.flowkit) (Fixture.service Fixture.empty_chain)
              Fixture.alice 0 "emulator" false Fixture.world r w' E)
    as [[Hsub _]|(ptx & Hsub & _)]; rewrite Hsub; simpl; lia.
Defined.

(** The access node refuses the transaction that adds [C]. *)
Lemma AddContract_send_refused_witness :
  heap Fixture.world !! 0 = Some Fixture.scriptC
  ∧ ∃ w',
      AddContract (L:=Sample.libraries) (F:=Sample.flowkit)
        (Cases.service_of (Cases.refusing Fixture.empty_chain) Fixture.project)
        Fixture.alice 0 "emulator" false Fixture.world
      = (Err (ErrSendDeployFailed (ErrExternal "connection refused")), w')
      ∧ length (calls w') = 4.
Proof.
  split; [reflexivity|].
  edestruct (AddContract_send_refused (L:=Sample.libraries)
               (F:=Sample.flowkit)
               (Cases.service_of (Cases.refusing Fixture.empty_chain)
                                 Fixture.project)
               Fixture.alice 0 "emulator" false Fixture.world Fixture.scriptC
               Fixture.resolvedC "C")
    as (w' & Hrun & _ & Hcalls);
    [evaluate..|].
  exists w'. split; [exact Hrun|]. by rewrite Hcalls.
Defined.

(** The transaction that adds [C] is sealed with an execution error. *)
Lemma AddContract_sealed_with_error_witness :
  heap Fixture.world !! 0 = Some Fixture.scriptC
  ∧ ∃ ptx w',
      AddContract (L:=Sample.libraries) (F:=Sample.flowkit)
        (Cases.service_of (Cases.reverting Fixture.empty_chain) Fixture.project)
        Fixture.alice 0 "emulator" false Fixture.world
      = (Err (ErrExternal "execution reverted"), w')
      ∧ submitted (calls w') = [ptx].
Proof.
  split; [reflexivity|].
  edestruct (AddContract_sealed_with_error (L:=Sample.libraries)
               (F:=Sample.flowkit)
               (Cases.service_of (Cases.reverting Fixture.empty_chain)
                                 Fixture.project)
               Fixture.alice 0 "emulator" false Fixture.world Fixture.scriptC
               Fixture.resolvedC "C")
    as (Hrun & _ & Hsub);
    [evaluate..|].
  eexists _, _. split; [exact Hrun|exact Hsub].
Defined.

(** Removing the [C] that [alice] holds. *)
Lemma RemoveContract_removes_witness :
  gw_GetAccount (gateway (Fixture.service Fixture.old_chain)) [] 1%N
  = inr (Fixture.account_with {[ "C" := "pub contract C { }" ]})
  ∧ ∃ id ptx w',
      RemoveContract (F:=Sample.flowkit)
        (Fixture.service Fixture.old_chain) Fixture.alice "C" Fixture.world
      = (Ok id, w')
      ∧ tx_op ptx = OpRemoveContract "C"
      ∧ submitted (calls w') = [ptx].
Proof.
  split; [reflexivity|].
  edestruct (RemoveContract_removes (F:=Sample.flowkit)
               (Fixture.service Fixture.old_chain) Fixture.alice "C"
               Fixture.world
               (Fixture.account_with {[ "C" := "pub contract C { }" ]}))
    as (Hrun & Hop & _ & Hsub);
    [evaluate|by eexists|evaluate..|].
  eexists _, _, _. split; [exact Hrun|]. split; [exact Hop|exact Hsub].
Defined.

(** Removing a contract that [alice] does not hold submits nothing. *)
Lemma RemoveContract_submits_at_most_once_witness :
  ∃ r w',
    RemoveContract (F:=Sample.flowkit)
      (Fixture.service Fixture.old_chain) Fixture.alice "Nope" Fixture.world
    = (r, w')
    ∧ (length (submitted (calls w')) ≤ 1)%nat.
Proof.
  destruct (RemoveContract (F:=Sample.flowkit)
              (Fixture.service Fixture.old_chain) Fixture.alice "Nope"
              Fixture.world) as [r w'] eqn:E.
  exists r, w'. split; [reflexivity|].
  destruct (RemoveContract_submits_at_most_once (F:=Sample.flowkit)
              (Fixture.service Fixture.old_chain) Fixture.alice "Nope"
              Fixture.world r w' E)
    as [[Hsub _]|(ptx & Hsub & _)]; rewrite Hsub; simpl; lia.
Defined.

(** Two keys with a weight each. *)
Lemma Create_keys_in_order_witness :
  ∃ accKeys,
    Create_keys (L:=Sample.libraries) ["k1"; "k2"] 0 [600%Z; 400%Z]
      [ECDSA_P256; ECDSA_secp256k1] [SHA3_256; SHA2_256] [] Fixture.world
    = (Ok accKeys, Fixture.world)
    ∧ PublicKey <$> accKeys = ["k1"; "k2"]
    ∧ Weight <$> accKeys = [600%Z; 400%Z].
Proof.
  pose (keys := [{| PublicKey := "k1"; SigAlgo := ECDSA_P256;
                    HashAlgo := SHA3_256; Weight := 600 |};
                 {| PublicKey := "k2"; SigAlgo := ECDSA_secp256k1;
                    HashAlgo := SHA2_256; Weight := 400 |}]).
  exists keys. split; [reflexivity|].
  destruct (Create_keys_in_order (L:=Sample.libraries) ["k1"; "k2"]
              [600%Z; 400%Z] [ECDSA_P256; ECDSA_secp256k1]
              [SHA3_256; SHA2_256] Fixture.world keys Fixture.world eq_refl)
    as (_ & Hkeys & _ & _ & Hweights & _).
  split; [exact Hkeys|]. apply Hweights. reflexivity.
Defined.

(** The second key pairs a signature algorithm with a hash algorithm that
    does not go with it. *)
Lemma Create_invalid_key_witness :
  Create (L:=Sample.libraries) (F:=Sample.flowkit)
    (Fixture.service Fixture.empty_chain) Fixture.alice ["k1"; "k2"] []
    [ECDSA_P256; ECDSA_P256] [SHA3_256; KMAC128] [] Fixture.world
  = (Err (ErrInvalidAccountKey
            (ErrExternal
               "signing algorithm is incompatible with hashing algorithm")),
     Fixture.world).
Proof.
  apply (Create_invalid_key (L:=Sample.libraries) (F:=Sample.flowkit)
           (Fixture.service Fixture.empty_chain) Fixture.project Fixture.alice
           ["k1"] "k2" [] [] [ECDSA_P256; ECDSA_P256] [SHA3_256; KMAC128] []
           Fixture.world ECDSA_P256 KMAC128);
    [reflexivity|by left|reflexivity|reflexivity| |reflexivity].
  repeat constructor.
Defined.

(** One contract argument that names a file, and one without a colon. *)
Lemma Create_wrong_contract_format_witness :
  Create (L:=Sample.libraries) (F:=Sample.flowkit)
    (Cases.service_of (Sample.emulator Fixture.empty_chain) Cases.files)
    Fixture.alice ["k1"] [] [ECDSA_P256] [SHA3_256]
    ["Hello:./hello.cdc"; "oops"] Fixture.world
  = (Err (ErrWrongContractFormat "oops"), Fixture.world).
Proof.
  eapply (Create_wrong_contract_format (L:=Sample.libraries) (F:=Sample.flowkit)
           (Cases.service_of (Sample.emulator Fixture.empty_chain) Cases.files)
           Cases.files Fixture.alice ["k1"] [] [ECDSA_P256] [SHA3_256]
           ["Hello:./hello.cdc"] "oops" []
           [{| tc_Name := "Hello"; tc_Source := "pub contract Hello {}" |}]
           Fixture.world _ Fixture.world);
    [reflexivity|by left|evaluate| |reflexivity].
  constructor; [|constructor]. exists "./hello.cdc". split; reflexivity.
Defined.

(** An account with one key and the contract [Hello]. *)
Lemma Create_creates_witness :
  state (Cases.service_of (Sample.emulator Fixture.empty_chain) Cases.files)
  = Some Cases.files
  ∧ ∃ account ptx w',
      Create (L:=Sample.libraries) (F:=Sample.flowkit)
        (Cases.service_of (Sample.emulator Fixture.empty_chain) Cases.files)
        Fixture.alice ["k1"] [] [ECDSA_P256] [SHA3_256]
        ["Hello:./hello.cdc"] Fixture.world
      = (Ok account, w')
      ∧ fa_address account = 2%N
      ∧ fa_contracts account !! "Hello" = Some "pub contract Hello {}"
      ∧ tx_op ptx
        = OpCreateAccount
            [{| PublicKey := "k1"; SigAlgo := ECDSA_P256;
                HashAlgo := SHA3_256; Weight := AccountKeyWeightThreshold |}]
            [{| tc_Name := "Hello"; tc_Source := "pub contract Hello {}" |}]
      ∧ submitted (calls w') = [ptx].
Proof.
  split; [reflexivity|].
  edestruct (Create_creates (L:=Sample.libraries) (F:=Sample.flowkit)
               (Cases.service_of (Sample.emulator Fixture.empty_chain)
                                 Cases.files)
               Cases.files Fixture.alice ["k1"] [] [ECDSA_P256] [SHA3_256]
               ["Hello:./hello.cdc"]
               [{| tc_Name := "Hello"; tc_Source := "pub contract Hello {}" |}]
               Fixture.world)
    as (Hrun & Hop & Hsub);
    [reflexivity|by left|evaluate
    |constructor; [exists "./hello.cdc"; split; reflexivity|constructor]
    |evaluate..|].
  eexists _, _, _. split; [exact Hrun|].
  split; [evaluate|]. split; [evaluate|]. split; [exact Hop|].
  evaluate.
Defined.

(** The sealed result of the creation carries no event. *)
Lemma Create_no_new_address_witness :
  state (Cases.service_of (Cases.eventless Fixture.empty_chain) Cases.files)
  = Some Cases.files
  ∧ ∃ ptx w',
      Create (L:=Sample.libraries) (F:=Sample.flowkit)
        (Cases.service_of (Cases.eventless Fixture.empty_chain) Cases.files)
        Fixture.alice ["k1"] [] [ECDSA_P256] [SHA3_256] [] Fixture.world
      = (Err ErrNoNewAddress, w')
      ∧ submitted (calls w') = [ptx].
Proof.
  split; [reflexivity|].
  edestruct (Create_no_new_address (L:=Sample.libraries) (F:=Sample.flowkit)
               (Cases.service_of (Cases.eventless Fixture.empty_chain)
                                 Cases.files)
               Cases.files Fixture.alice ["k1"] [] [ECDSA_P256] [SHA3_256]
               [] [] Fixture.world)
    as (Hrun & Hsub & _);
    [reflexivity|by left|evaluate|constructor|evaluate..|constructor|].
  eexists _, _. split; [exact Hrun|exact Hsub].
Defined.

(** Creating an account with one key. *)
Lemma Create_submits_at_most_once_witness :
  ∃ r w',
    Create (L:=Sample.libraries) (F:=Sample.flowkit)
      (Fixture.service Fixture.empty_chain) Fixture.alice ["k1"] []
      [ECDSA_P256] [SHA3_256] [] Fixture.world
    = (r, w')
    ∧ (length (submitted (calls w')) ≤ 1)%nat.
Proof.
  destruct (Create (L:=Sample.libraries) (F:=Sample.flowkit)
              (Fixture.service Fixture.empty_chain) Fixture.alice ["k1"] []
              [ECDSA_P256] [SHA3_256] [] Fixture.world) as [r w'] eqn:E.
  exists r, w'. split; [reflexivity|].
  destruct (Create_submits_at_most_once (L:=Sample.libraries)
              (F:=Sample.flowkit) (Fixture.service Fixture.empty_chain)
              Fixture.alice ["k1"] [] [ECDSA_P256] [SHA3_256] []
              Fixture.world r w' E)
    as [[Hsub _]|(ptx & keys & contracts & Hsub & _)];
    rewrite Hsub; simpl; lia.
Defined.

(** ** The staking queries on a network with two nodes *)

(** Three infos name two nodes: two info scripts and two stake scripts. *)
Lemma StakingInfo_scripts_witness :
  StakingInfo (K:=Cases.staking) (Cases.network Cases.three_infos) 2%N []
  = (Returned (Cases.three_totals, [Cases.info_of EmptyString]),
     (info_calls (K:=Cases.staking) "flow-testnet" 2%N
      ++ stake_calls "commitment of flow-testnet" ["n2"; "n1"])%list)
  ∧ ∃ nodeIDs,
      NoDup nodeIDs
      ∧ stake_calls "commitment of flow-testnet" ["n2"; "n1"]
        = stake_calls "commitment of flow-testnet" nodeIDs.
Proof.
  assert (StakingInfo (K:=Cases.staking) (Cases.network Cases.three_infos)
            2%N []
          = (Returned (Cases.three_totals, [Cases.info_of EmptyString]),
             (info_calls (K:=Cases.staking) "flow-testnet" 2%N
              ++ stake_calls "commitment of flow-testnet" ["n2"; "n1"])%list))
    as E by (vm_compute; reflexivity).
  split; [exact E|].
  destruct (StakingInfo_scripts (K:=Cases.staking)
              (Cases.network Cases.three_infos) 2%N [] _ _ _ E)
    as (chain & stakingValue & stakingInfos & nodeIDs
        & Hchain & _ & _ & _ & Hcs & Hnd & _).
  injection Hchain as <-. exists nodeIDs. split; [exact Hnd|].
  rewrite app_nil_l in Hcs. by apply app_inv_head in Hcs.
Defined.

(** The four infos come back in order, the three with an id with a total. *)
Lemma StakingInfo_adds_totals_witness :
  StakingInfo (K:=Cases.staking) (Cases.network Cases.three_infos) 2%N []
  = (Returned (Cases.three_totals, [Cases.info_of EmptyString]),
     (info_calls (K:=Cases.staking) "flow-testnet" 2%N
      ++ stake_calls "commitment of flow-testnet" ["n2"; "n1"])%list)
  ∧ ∃ stakingInfos,
      NewStakingInfoFromValue (StakingLibraries:=Cases.staking)
        (COther Cases.three_infos) = inr stakingInfos
      ∧ length stakingInfos = length Cases.three_totals.
Proof.
  assert (StakingInfo (K:=Cases.staking) (Cases.network Cases.three_infos)
            2%N []
          = (Returned (Cases.three_totals, [Cases.info_of EmptyString]),
             (info_calls (K:=Cases.staking) "flow-testnet" 2%N
              ++ stake_calls "commitment of flow-testnet" ["n2"; "n1"])%list))
    as E by (vm_compute; reflexivity).
  split; [exact E|].
  destruct (StakingInfo_adds_totals (K:=Cases.staking)
              (Cases.network Cases.three_infos) 2%N [] _ _ _ E)
    as (chain & stakingValue & delegationValue & stakingInfos
        & Hchain & Hvalue & _ & Hparse & _ & Hinfos).
  injection Hchain as <-. injection Hvalue as <-.
  exists stakingInfos. split; [exact Hparse|].
  by apply Forall2_length in Hinfos.
Defined.

(** The second info has an id that is not a string. *)
Lemma StakingInfo_id_not_string_witness :
  StakingInfo (K:=Cases.staking) (Cases.network Cases.bad_infos) 2%N []
  = (Panicked (NotString (Some (COther "#7"))),
     info_calls (K:=Cases.staking) "flow-testnet" 2%N).
Proof.
  apply (StakingInfo_id_not_string (K:=Cases.staking)
           (Cases.network Cases.bad_infos) 2%N [] "flow-testnet"
           (COther Cases.bad_infos) (COther EmptyString)
           [Cases.info_of "n1"] (Cases.info_of "#7") []
           [Cases.info_of EmptyString] (COther "#7"));
    [reflexivity|discriminate|reflexivity|reflexivity|reflexivity|reflexivity
    | |reflexivity|discriminate].
  constructor; [|constructor]. intros v Hv. vm_compute in Hv.
  injection Hv as <-. by eexists.
Defined.

(** The total stake of [n1] on the test network. *)
Lemma NodeTotalStake_outcome_witness :
  NodeTotalStake (K:=Cases.staking) (Cases.network Cases.three_infos)
    "n1" "flow-testnet" []
  = (Returned (CUFix64 100), stake_calls "commitment of flow-testnet" ["n1"]).
Proof.
  destruct (NodeTotalStake_outcome (K:=Cases.staking)
              (Cases.network Cases.three_infos) "n1" "flow-testnet" [])
    as (r & cs' & E & _ & _ & Hother).
  destruct (Hother ltac:(discriminate)) as (-> & Hreturned & _).
  rewrite E. f_equal. apply Hreturned. reflexivity.
Defined.

(** An address of no known chain, and an address of the emulator. *)
Lemma StakingInfo_guards_witness :
  StakingInfo (K:=Cases.staking) (Cases.network Cases.three_infos) 7%N []
  = (Failed (Errorf "failed to determine network from address, check the address and network"),
     [])
  ∧ StakingInfo (K:=Cases.staking) (Cases.network Cases.three_infos) 1%N []
    = (Failed (Errorf "emulator chain not supported"), []).
Proof.
  destruct (StakingInfo_guards (K:=Cases.staking)
              (Cases.network Cases.three_infos) 7%N []) as [Hunknown _].
  destruct (StakingInfo_guards (K:=Cases.staking)
              (Cases.network Cases.three_infos) 1%N []) as [_ Hemulator].
  split; [eapply Hunknown|apply Hemulator]; reflexivity.
Defined.

(** ** More runs: the heap, refusals and failing scripts *)

(** [alice] holds an older [C] and the update flag is off: the call fails
    and the script has kept its place, its location and its arguments. *)
Lemma AddContract_frame_witness :
  ∃ r w',
    AddContract (L:=Sample.libraries) (F:=Sample.flowkit)
      (Fixture.service Fixture.old_chain) Fixture.alice 0 "emulator" false
      Fixture.world
    = (r, w')
    ∧ length (heap w') = 1
    ∧ ∃ code, heap w' !! 0 = Some (Script_SetCode Fixture.scriptC code).
Proof.
  destruct (AddContract (L:=Sample.libraries) (F:=Sample.flowkit)
              (Fixture.service Fixture.old_chain) Fixture.alice 0 "emulator"
              false Fixture.world) as [r w'] eqn:E.
  exists r, w'. split; [reflexivity|].
  destruct (AddContract_frame (L:=Sample.libraries) (F:=Sample.flowkit)
              (Fixture.service Fixture.old_chain) Fixture.alice 0 "emulator"
              false Fixture.world r w' E) as (Hlen & _ & Hscript).
  split; [exact Hlen|]. apply (Hscript Fixture.scriptC). reflexivity.
Defined.

(** The second contract argument names a file that is not there; its path
    is what follows the first colon. *)
Lemma Create_unreadable_contract_witness :
  Create (L:=Sample.libraries) (F:=Sample.flowkit)
    (Cases.service_of (Sample.emulator Fixture.empty_chain) Cases.files)
    Fixture.alice ["k1"] [] [ECDSA_P256] [SHA3_256]
    ["Hello:./hello.cdc"; "Bye:./a:b.cdc"] Fixture.world
  = (Err (ErrExternal "no such file"), Fixture.world).
Proof.
  eapply (Create_unreadable_contract (L:=Sample.libraries) (F:=Sample.flowkit)
            (Cases.service_of (Sample.emulator Fixture.empty_chain) Cases.files)
            Cases.files Fixture.alice ["k1"] [] [ECDSA_P256] [SHA3_256]
            ["Hello:./hello.cdc"] "Bye:./a:b.cdc" "Bye" "./a:b.cdc" []
            [{| tc_Name := "Hello"; tc_Source := "pub contract Hello {}" |}]
            Fixture.world _ Fixture.world);
    [reflexivity|by left|evaluate| |reflexivity|reflexivity].
  constructor; [|constructor]. exists "./hello.cdc". split; reflexivity.
Defined.

(** The access node refuses the transaction that creates the account. *)
Lemma Create_send_refused_witness :
  state (Cases.service_of (Cases.refusing Fixture.empty_chain) Cases.files)
  = Some Cases.files
  ∧ ∃ w',
      Create (L:=Sample.libraries) (F:=Sample.flowkit)
        (Cases.service_of (Cases.refusing Fixture.empty_chain) Cases.files)
        Fixture.alice ["k1"] [] [ECDSA_P256] [SHA3_256] [] Fixture.world
      = (Err (ErrAccountCreationFailed (ErrExternal "connection refused")), w')
      ∧ length (calls w') = 3.
Proof.
  split; [reflexivity|].
  edestruct (Create_send_refused (L:=Sample.libraries) (F:=Sample.flowkit)
               (Cases.service_of (Cases.refusing Fixture.empty_chain)
                                 Cases.files)
               Cases.files Fixture.alice ["k1"] [] [ECDSA_P256] [SHA3_256]
               [] [] Fixture.world)
    as (Hrun & _ & Hcalls);
    [reflexivity|by left|evaluate|constructor|evaluate..|].
  eexists. split; [exact Hrun|]. reflexivity.
Defined.

(** The access node refuses the transaction that removes [C]. *)
Lemma RemoveContract_send_refused_witness :
  ∃ w',
    RemoveContract (F:=Sample.flowkit)
      (Cases.service_of (Cases.refusing Fixture.old_chain) Fixture.project)
      Fixture.alice "C" Fixture.world
    = (Err (ErrExternal "connection refused"), w')
    ∧ length (calls w') = 4.
Proof.
  edestruct (RemoveContract_send_refused (F:=Sample.flowkit)
               (Cases.service_of (Cases.refusing Fixture.old_chain)
                                 Fixture.project)
               Fixture.alice "C" Fixture.world
               (Fixture.account_with {[ "C" := "pub contract C { }" ]}))
    as (Hrun & Hcalls);
    [evaluate|by eexists|evaluate..|].
  eexists. split; [exact Hrun|]. reflexivity.
Defined.

(** The access node cannot be reached: the first script fails and the
    second is not executed. *)
Lemma StakingInfo_script_failure_witness :
  StakingInfo (K:=Cases.staking) Cases.offline 2%N []
  = (Failed (Errorf "error getting staking info: connection refused"),
     take 1 (info_calls (K:=Cases.staking) "flow-testnet" 2%N)).
Proof.
  destruct (StakingInfo_script_failure (K:=Cases.staking) Cases.offline 2%N []
              "flow-testnet" eq_refl ltac:(discriminate)) as (Hfirst & _).
  apply (Hfirst (ErrExternal "connection refused")). reflexivity.
Defined.

(** An id that is not a string, again: the panic names it. *)
Lemma StakingInfo_panics_witness :
  StakingInfo (K:=Cases.staking) (Cases.network Cases.bad_infos) 2%N []
  = (Panicked (NotString (Some (COther "#7"))),
     info_calls (K:=Cases.staking) "flow-testnet" 2%N)
  ∧ ∃ chain,
      GetAddressNetwork (StakingLibraries:=Cases.staking) 2%N = inr chain
      ∧ info_calls (K:=Cases.staking) "flow-testnet" 2%N
        = info_calls (K:=Cases.staking) chain 2%N.
Proof.
  assert (StakingInfo (K:=Cases.staking) (Cases.network Cases.bad_infos)
            2%N []
          = (Panicked (NotString (Some (COther "#7"))),
             info_calls (K:=Cases.staking) "flow-testnet" 2%N))
    as E by (vm_compute; reflexivity).
  split; [exact E|].
  destruct (StakingInfo_panics (K:=Cases.staking)
              (Cases.network Cases.bad_infos) 2%N [] _ _ E)
    as (chain & Hchain & [(v & _ & _ & Hcs)|(id & value & ? & ? & Hc & _)]).
  - exists chain. split; [exact Hchain|]. by rewrite app_nil_l in Hcs.
  - discriminate Hc.
Defined.

(** ** Create and the weights, on the fixture *)

(** Two keys and one weight, then two keys and no weight, on a service with
    a project state: the first call is refused before any gateway call, the
    second submits one transaction, whose two keys have the threshold. *)
Lemma Create_weights_witness :
  state (Fixture.service Fixture.empty_chain) = Some Fixture.project
  ∧ Create (L:=Sample.libraries) (F:=Sample.flowkit)
      (Fixture.service Fixture.empty_chain) Fixture.alice ["k1"; "k2"] [1000%Z]
      [ECDSA_P256; ECDSA_P256] [SHA3_256; SHA3_256] [] Fixture.world
    = (Err (ErrKeysWeightsMismatch 2 1), Fixture.world)
  ∧ (∃ account w' ptx keys contracts,
       Create (L:=Sample.libraries) (F:=Sample.flowkit)
         (Fixture.service Fixture.empty_chain) Fixture.alice ["k1"; "k2"] []
         [ECDSA_P256; ECDSA_P256] [SHA3_256; SHA3_256] [] Fixture.world
       = (Ok account, w')
       ∧ submitted (calls w') = [ptx]
       ∧ tx_op ptx = OpCreateAccount keys contracts
       ∧ length keys = 2
       ∧ Forall (λ k, Weight k = AccountKeyWeightThreshold) keys)
  ∧ ∀ accKeys w',
      Create_keys (L:=Sample.libraries) ["k1"; "k2"] 0 []
        [ECDSA_P256; ECDSA_P256] [SHA3_256; SHA3_256] [] Fixture.world
      = (Ok accKeys, w') →
      Forall (λ k, Weight k = AccountKeyWeightThreshold) accKeys.
Proof.
  split; [reflexivity|]. split; [|split].
  - apply (Create_weights (L:=Sample.libraries) (F:=Sample.flowkit)
             (Fixture.service Fixture.empty_chain) Fixture.project
             Fixture.alice ["k1"; "k2"] [1000%Z]
             [ECDSA_P256; ECDSA_P256] [SHA3_256; SHA3_256] [] Fixture.world
             eq_refl); simpl; lia.
  - destruct (Create (L:=Sample.libraries) (F:=Sample.flowkit)
                (Fixture.service Fixture.empty_chain) Fixture.alice
                ["k1"; "k2"] [] [ECDSA_P256; ECDSA_P256] [SHA3_256; SHA3_256]
                [] Fixture.world) as [r w'] eqn:E.
    destruct (Create_weights (L:=Sample.libraries) (F:=Sample.flowkit)
                (Fixture.service Fixture.empty_chain) Fixture.project
                Fixture.alice ["k1"; "k2"] []
                [ECDSA_P256; ECDSA_P256] [SHA3_256; SHA3_256] [] Fixture.world
                eq_refl) as (_ & Hdefault).
    destruct (Hdefault eq_refl) as (Hcreate & _ & _).
    destruct (Hcreate r w' E)
      as [[_ Hno]|(ptx & keys & contracts & Hsub & Hop & Hlen & Hall)].
    + vm_compute in E. injection E as <- _. exfalso. by eapply Hno.
    + vm_compute in E. injection E as <- <-.
      eexists _, _, ptx, keys, contracts. split; [reflexivity|].
      split; [exact Hsub|]. split; [exact Hop|]. split; [exact Hlen|exact Hall].
  - intros accKeys w' E.
    eapply (Create_weights (L:=Sample.libraries) (F:=Sample.flowkit)
              (Fixture.service Fixture.empty_chain) Fixture.project
              Fixture.alice ["k1"; "k2"] []
              [ECDSA_P256; ECDSA_P256] [SHA3_256; SHA3_256] [] Fixture.world
              eq_refl); [reflexivity|exact E].
Defined.
